(** * A MapReduce coordinator and worker (MIT 6.5840 lab 1)

    Two revisions of [mr/coordinator.go] are verified side by side:
    - [Module Polling]: the handlers test the task buckets outside the mutex
      and wait in [time.Sleep] loops;
    - [Module Signalled]: the handlers touch the buckets only inside the
      mutex and wait on channels.

    The model.  A coordinator is a transition system over its struct and the
    goroutines that [net/rpc] and [go c.track(...)] start.  A goroutine is a
    control point of its handler.  One transition is
    - a critical section, from [c.mu.Lock()] to the [c.mu.Unlock()] or the
      [return] that ends it; it is enabled when the mutex is free; or
    - one statement outside the mutex: a loop test, a membership test, a
      [select], a [close].
    Nothing is assumed of the scheduler or of time: a goroutine that sleeps
    may take its next transition at any later point.  A [range] over a map
    may yield any entry first and a [select] may take any ready case; the
    [Pick] argument of a transition names that choice.  [net/rpc] hands each
    handler a zero reply.  Go [int]s are [Z] (they are only compared and used
    as keys), Go maps are [gmap]s, Go strings are [string]s, that is byte
    sequences.

    [Module Worker] embeds the MAP and REDUCE cases of [mr/worker.go].  A file
    is the sequence of records or lines written to it; [hash/fnv] and
    [sort.Sort] are given by what their documentation fixes. *)

From Equations.Prop Require Import Equations Logic.
From Stdlib Require Import ZArith Lia String Ascii.
From stdpp Require Import base option list list_numbers gmap strings pretty sorting.

Local Open Scope Z_scope.
Set Warnings "-clear-no-such-hyp".

(** ** mr/rpc.go *)

(** [const ( MAP TaskType = iota; REDUCE; EXIT )] *)
Inductive TaskType : Set := MAP | REDUCE | EXIT.

(** [type Task struct { Filename string; TaskNum int; TaskType }] *)
Record Task : Set := mkTask {
  Filename : string;
  TaskNum : Z;
  Task_TaskType : TaskType
}.

(** The zero value [Task{}]: the reply a handler starts from. *)
Definition zeroTask : Task := mkTask "" 0 MAP.

(** The two [fmt.Errorf] values of the coordinator; each carries the task
    number it prints. *)
Inductive error : Set :=
| ErrMapNotInProgress (taskNum : Z)
| ErrReduceNotInProgress (taskNum : Z).

Global Instance TaskType_eq_dec : EqDecision TaskType.
Proof. solve_decision. Defined.
Global Instance Task_eq_dec : EqDecision Task.
Proof. solve_decision. Defined.
Global Instance error_eq_dec : EqDecision error.
Proof. solve_decision. Defined.

(** [len(m)] of a Go map, as an [int]. *)
Definition len {V} (m : gmap Z V) : Z := Z.of_nat (size m).

(** What a goroutine has to resolve when it runs one transition: the entry a
    [range] over a map yields first, or the case a [select] takes. *)
Definition Pick := Z.

(** The RPCs a worker can send. *)
Inductive Request : Set :=
| ReqGetTask
| ReqCompleteMapTask (args : Task)
| ReqCompleteReduceTask (args : Task).

(** An event of the system: a request arrives and its handler goroutine is
    started, or goroutine [tid] runs one transition. *)
Inductive Event : Set :=
| Arrive (r : Request)
| Run (tid : nat) (pick : Pick).

(** ** The signalling coordinator

    Every access to the buckets is inside the mutex, so a critical section is
    one transition; the channel operations outside the mutex (the [select]s
    of [GetTask], [close(c.jobDone)]) are transitions of their own. *)
Module Signalled.

(** [type Coordinator struct].  A channel of capacity one is the boolean
    "holds a token"; [jobDone] is never sent on, only closed, and is the
    boolean "closed"; [mu] is [true] while the mutex is held. *)
Record Coordinator := mkCoordinator {
  mapPending : gmap Z string;
  mapInProgress : gmap Z string;
  reducePending : gmap Z bool;
  reduceInProgress : gmap Z bool;
  reduceCompleted : gmap Z bool;
  mapTaskAvailable : bool;
  reduceTaskAvailable : bool;
  jobDone : bool;
  nReduce : Z;
  mu : bool
}.

Definition set_mapPending v c :=
  mkCoordinator v (mapInProgress c) (reducePending c) (reduceInProgress c)
    (reduceCompleted c) (mapTaskAvailable c) (reduceTaskAvailable c) (jobDone c)
    (nReduce c) (mu c).
Definition set_mapInProgress v c :=
  mkCoordinator (mapPending c) v (reducePending c) (reduceInProgress c)
    (reduceCompleted c) (mapTaskAvailable c) (reduceTaskAvailable c) (jobDone c)
    (nReduce c) (mu c).
Definition set_reducePending v c :=
  mkCoordinator (mapPending c) (mapInProgress c) v (reduceInProgress c)
    (reduceCompleted c) (mapTaskAvailable c) (reduceTaskAvailable c) (jobDone c)
    (nReduce c) (mu c).
Definition set_reduceInProgress v c :=
  mkCoordinator (mapPending c) (mapInProgress c) (reducePending c) v
    (reduceCompleted c) (mapTaskAvailable c) (reduceTaskAvailable c) (jobDone c)
    (nReduce c) (mu c).
Definition set_reduceCompleted v c :=
  mkCoordinator (mapPending c) (mapInProgress c) (reducePending c)
    (reduceInProgress c) v (mapTaskAvailable c) (reduceTaskAvailable c)
    (jobDone c) (nReduce c) (mu c).
Definition set_mapTaskAvailable v c :=
  mkCoordinator (mapPending c) (mapInProgress c) (reducePending c)
    (reduceInProgress c) (reduceCompleted c) v (reduceTaskAvailable c)
    (jobDone c) (nReduce c) (mu c).
Definition set_reduceTaskAvailable v c :=
  mkCoordinator (mapPending c) (mapInProgress c) (reducePending c)
    (reduceInProgress c) (reduceCompleted c) (mapTaskAvailable c) v
    (jobDone c) (nReduce c) (mu c).
Definition set_jobDone v c :=
  mkCoordinator (mapPending c) (mapInProgress c) (reducePending c)
    (reduceInProgress c) (reduceCompleted c) (mapTaskAvailable c)
    (reduceTaskAvailable c) v (nReduce c) (mu c).
Definition set_mu v c :=
  mkCoordinator (mapPending c) (mapInProgress c) (reducePending c)
    (reduceInProgress c) (reduceCompleted c) (mapTaskAvailable c)
    (reduceTaskAvailable c) (jobDone c) (nReduce c) v.

(** [MakeCoordinator]: [for i, file := range files] fills [mapPending],
    [for i := range nReduce] fills [reducePending] (no iteration when
    [nReduce <= 0]); the channels are fresh, the mutex is free. *)
Definition MakeCoordinator (files : list string) (nReduce : Z) : Coordinator :=
  {| mapPending :=
       foldl (λ m p, <[p.1 := p.2]> m) ∅
             (zip (seqZ 0 (Z.of_nat (length files))) files);
     mapInProgress := ∅;
     reducePending := foldl (λ m i, <[i := true]> m) ∅ (seqZ 0 nReduce);
     reduceInProgress := ∅;
     reduceCompleted := ∅;
     mapTaskAvailable := false;
     reduceTaskAvailable := false;
     jobDone := false;
     nReduce := nReduce;
     mu := false |}.

(** The value [Done] computes between [c.mu.Lock()] and [c.mu.Unlock()]. *)
Definition Done (c : Coordinator) : bool :=
  bool_decide (len (mapPending c) = 0) &&
  bool_decide (len (mapInProgress c) = 0) &&
  bool_decide (len (reducePending c) = 0) &&
  bool_decide (len (reduceInProgress c) = 0) &&
  bool_decide (len (reduceCompleted c) = nReduce c).

(** [GetReduceN] *)
Definition GetReduceN (c : Coordinator) : Z := nReduce c.

(** Non-blocking send [select { case ch <- struct{}{}: default: }] on a
    channel of capacity one: the channel holds a token afterwards. *)
Definition trySend (ch : bool) : bool := true.

(** Control points of the goroutines the coordinator runs. *)
Inductive Goroutine : Set :=
| GetTask_loop                       (* top of [for], about to call [Done] *)
| GetTask_tryMap                     (* [c.mu.Lock()] before the map range *)
| GetTask_tryReduce                  (* [allMapsDone], [c.mu.Lock()] before the reduce range *)
| GetTask_waitReduce                 (* [select] on reduceTaskAvailable / jobDone *)
| GetTask_waitMap                    (* [select] on mapTaskAvailable / reduceTaskAvailable *)
| GetTask_return (reply : Task)      (* [return nil] with this reply *)
| CompleteMapTask_call (args : Task)
| CompleteMapTask_return (err : option error)
| CompleteReduceTask_call (args : Task)
| CompleteReduceTask_checkDone       (* after the unlock, about to call [Done] *)
| CompleteReduceTask_close           (* [Done] was true, about to [close(c.jobDone)] *)
| CompleteReduceTask_return (err : option error)
| track_call (task : Task)           (* sleeping, then [c.mu.Lock()] *)
| track_return
| panicked.                          (* close of closed channel *)

Global Instance Goroutine_eq_dec : EqDecision Goroutine.
Proof. solve_decision. Defined.

(** Body of the critical section of [GetTask] that tries to hand out a map
    task.  [pick] is the key the [range] yields. *)
Definition tryMap (pick : Pick) (c : Coordinator)
  : option (Coordinator * Goroutine * list Goroutine) :=
  match mapPending c !! pick with
  | Some filename =>
      let reply := mkTask filename pick MAP in
      let c := set_mapInProgress (<[pick := filename]> (mapInProgress c)) c in
      let c := set_mapPending (delete pick (mapPending c)) c in
      Some (c, GetTask_return reply, [track_call reply])
  | None =>
      if bool_decide (mapPending c = ∅) then
        let allMapsDone := bool_decide (len (mapInProgress c) = 0) in
        Some (c, if allMapsDone then GetTask_tryReduce else GetTask_waitMap, [])
      else None
  end.

(** Body of the critical section of [GetTask] that tries to hand out a
    reduce task. *)
Definition tryReduce (pick : Pick) (c : Coordinator)
  : option (Coordinator * Goroutine * list Goroutine) :=
  match reducePending c !! pick with
  | Some _ =>
      let reply := mkTask "" pick REDUCE in
      let c := set_reduceInProgress (<[pick := true]> (reduceInProgress c)) c in
      let c := set_reducePending (delete pick (reducePending c)) c in
      Some (c, GetTask_return reply, [track_call reply])
  | None =>
      if bool_decide (reducePending c = ∅) then Some (c, GetTask_waitReduce, [])
      else None
  end.

(** [CompleteMapTask]: one critical section.  The error branch returns
    without [c.mu.Unlock()]. *)
Definition CompleteMapTask (args : Task) (c : Coordinator)
  : Coordinator * option error :=
  let taskNum := TaskNum args in
  match mapInProgress c !! taskNum with
  | None => (set_mu true c, Some (ErrMapNotInProgress taskNum))
  | Some _ =>
      let c := set_mapInProgress (delete taskNum (mapInProgress c)) c in
      let c :=
        if bool_decide (len (mapPending c) = 0) && bool_decide (len (mapInProgress c) = 0)
        then set_reduceTaskAvailable (trySend (reduceTaskAvailable c)) c
        else c in
      (c, None)
  end.

(** [CompleteReduceTask], up to its [c.mu.Unlock()].  The error branch
    returns without unlocking. *)
Definition CompleteReduceTask (args : Task) (c : Coordinator)
  : Coordinator * option error :=
  let taskNum := TaskNum args in
  match reduceInProgress c !! taskNum with
  | None => (set_mu true c, Some (ErrReduceNotInProgress taskNum))
  | Some _ =>
      let c := set_reduceCompleted (<[taskNum := true]> (reduceCompleted c)) c in
      let c := set_reduceInProgress (delete taskNum (reduceInProgress c)) c in
      (c, None)
  end.

(** [track], after its [time.Sleep]: the critical section of the [switch]
    case the task type selects (no case, and no lock, for another type). *)
Definition track (task : Task) (c : Coordinator) : Coordinator :=
  match Task_TaskType task with
  | MAP =>
      match mapInProgress c !! TaskNum task with
      | Some _ =>
          let c := set_mapPending (<[TaskNum task := Filename task]> (mapPending c)) c in
          let c := set_mapInProgress (delete (TaskNum task) (mapInProgress c)) c in
          set_mapTaskAvailable (trySend (mapTaskAvailable c)) c
      | None => c
      end
  | REDUCE =>
      match reduceInProgress c !! TaskNum task with
      | Some _ =>
          let c := set_reducePending (<[TaskNum task := true]> (reducePending c)) c in
          let c := set_reduceInProgress (delete (TaskNum task) (reduceInProgress c)) c in
          set_reduceTaskAvailable (trySend (reduceTaskAvailable c)) c
      | None => c
      end
  | EXIT => c
  end.

(** One transition of a goroutine: [None] when it is blocked (mutex held,
    no [select] case ready), has finished, or [pick] is not a choice the
    runtime can make. The third component lists the goroutines started by
    [go]. *)
Definition step_goroutine (pick : Pick) (c : Coordinator) (g : Goroutine)
  : option (Coordinator * Goroutine * list Goroutine) :=
  match g with
  | GetTask_loop =>
      if mu c then None
      else if Done c then Some (c, GetTask_return (mkTask "" 0 EXIT), [])
      else Some (c, GetTask_tryMap, [])
  | GetTask_tryMap => if mu c then None else tryMap pick c
  | GetTask_tryReduce => if mu c then None else tryReduce pick c
  | GetTask_waitReduce =>
      if bool_decide (pick = 0) then
        if reduceTaskAvailable c
        then Some (set_reduceTaskAvailable false c, GetTask_loop, [])
        else None
      else if bool_decide (pick = 1) then
        if jobDone c then Some (c, GetTask_return (mkTask "" 0 EXIT), [])
        else None
      else None
  | GetTask_waitMap =>
      if bool_decide (pick = 0) then
        if mapTaskAvailable c
        then Some (set_mapTaskAvailable false c, GetTask_loop, [])
        else None
      else if bool_decide (pick = 1) then
        if reduceTaskAvailable c
        then Some (set_reduceTaskAvailable false c, GetTask_loop, [])
        else None
      else None
  | CompleteMapTask_call args =>
      if mu c then None
      else let '(c, err) := CompleteMapTask args c in
           Some (c, CompleteMapTask_return err, [])
  | CompleteReduceTask_call args =>
      if mu c then None
      else let '(c, err) := CompleteReduceTask args c in
           Some (c, match err with
                    | Some _ => CompleteReduceTask_return err
                    | None => CompleteReduceTask_checkDone
                    end, [])
  | CompleteReduceTask_checkDone =>
      if mu c then None
      else Some (c, if Done c then CompleteReduceTask_close
                    else CompleteReduceTask_return None, [])
  | CompleteReduceTask_close =>
      if jobDone c then Some (c, panicked, [])
      else Some (set_jobDone true c, CompleteReduceTask_return None, [])
  | track_call task =>
      match Task_TaskType task with
      | MAP | REDUCE =>
          if mu c then None else Some (track task c, track_return, [])
      | EXIT => Some (c, track_return, [])
      end
  | GetTask_return _ | CompleteMapTask_return _ | CompleteReduceTask_return _
  | track_return | panicked => None
  end.

(** The coordinator process: its state and its goroutines, in the order
    they were started. *)
Record Config := mkConfig {
  coord : Coordinator;
  goroutines : list Goroutine
}.

Definition handler (r : Request) : Goroutine :=
  match r with
  | ReqGetTask => GetTask_loop
  | ReqCompleteMapTask args => CompleteMapTask_call args
  | ReqCompleteReduceTask args => CompleteReduceTask_call args
  end.

Definition exec (e : Event) (s : Config) : option Config :=
  match e with
  | Arrive r => Some (mkConfig (coord s) (goroutines s ++ [handler r]))
  | Run tid pick =>
      g ← goroutines s !! tid;
      '(c, g', spawned) ← step_goroutine pick (coord s) g;
      Some (mkConfig c (<[tid := g']> (goroutines s) ++ spawned))
  end.

Definition step (s s' : Config) : Prop := ∃ e, exec e s = Some s'.

Definition init (files : list string) (nReduce : Z) : Config :=
  mkConfig (MakeCoordinator files nReduce) [].

Definition reachable (files : list string) (nReduce : Z) (s : Config) : Prop :=
  rtc step (init files nReduce) s.

(** Running a list of events from a configuration. *)
Fixpoint run (es : list Event) (s : Config) : option Config :=
  match es with
  | [] => Some s
  | e :: es => s' ← exec e s; run es s'
  end.

(** Runs of the signalling coordinator on the job [MakeCoordinator ["f"] 1].
    Goroutines are numbered in the order they start. *)

(** One worker does the job: [GetTask] (goroutine 0) hands out map task 0
    (watcher: goroutine 1), [CompleteMapTask] (goroutine 2) reports it,
    [GetTask] (goroutine 3) hands out reduce task 0 (watcher: goroutine 4),
    [CompleteReduceTask] (goroutine 5) reports it, finds [Done] true and
    closes [jobDone]. *)
Definition one_worker_job : list Event :=
  [Arrive ReqGetTask; Run 0 0; Run 0 0;
   Arrive (ReqCompleteMapTask (mkTask "f" 0 MAP)); Run 2 0;
   Arrive ReqGetTask; Run 3 0; Run 3 0; Run 3 0;
   Arrive (ReqCompleteReduceTask (mkTask "" 0 MAP)); Run 5 0; Run 5 0; Run 5 0].

(** ... then a [GetTask] (goroutine 6) runs to its return, the two watchers
    wake up, and a late [CompleteMapTask] arrives. *)
Definition after_the_job : list Event :=
  [Arrive ReqGetTask; Run 6 0; Run 1 0; Run 4 0;
   Arrive (ReqCompleteMapTask (mkTask "f" 0 MAP))].

End Signalled.

(** ** The polling coordinator

    Its handlers read the buckets outside the mutex.  Each such read (a loop
    test, [Done], a membership test) is one transition, and so is each
    critical section; an interleaving of these transitions is an execution of
    the Go code in which no two accesses overlap. *)
Module Polling.

(** [type Coordinator struct]; [mu] is [true] while the mutex is held. *)
Record Coordinator := mkCoordinator {
  mapPending : gmap Z string;
  mapInProgress : gmap Z string;
  reducePending : gmap Z bool;
  reduceInProgress : gmap Z bool;
  reduceCompleted : gmap Z bool;
  nReduce : Z;
  mu : bool
}.

Definition set_mapPending v c :=
  mkCoordinator v (mapInProgress c) (reducePending c) (reduceInProgress c)
    (reduceCompleted c) (nReduce c) (mu c).
Definition set_mapInProgress v c :=
  mkCoordinator (mapPending c) v (reducePending c) (reduceInProgress c)
    (reduceCompleted c) (nReduce c) (mu c).
Definition set_reducePending v c :=
  mkCoordinator (mapPending c) (mapInProgress c) v (reduceInProgress c)
    (reduceCompleted c) (nReduce c) (mu c).
Definition set_reduceInProgress v c :=
  mkCoordinator (mapPending c) (mapInProgress c) (reducePending c) v
    (reduceCompleted c) (nReduce c) (mu c).
Definition set_reduceCompleted v c :=
  mkCoordinator (mapPending c) (mapInProgress c) (reducePending c)
    (reduceInProgress c) v (nReduce c) (mu c).

(** [MakeCoordinator] *)
Definition MakeCoordinator (files : list string) (nReduce : Z) : Coordinator :=
  {| mapPending :=
       foldl (λ m p, <[p.1 := p.2]> m) ∅
             (zip (seqZ 0 (Z.of_nat (length files))) files);
     mapInProgress := ∅;
     reducePending := foldl (λ m i, <[i := true]> m) ∅ (seqZ 0 nReduce);
     reduceInProgress := ∅;
     reduceCompleted := ∅;
     nReduce := nReduce;
     mu := false |}.

(** [Done]: reads the five buckets, without the mutex. *)
Definition Done (c : Coordinator) : bool :=
  bool_decide (len (mapPending c) = 0) &&
  bool_decide (len (mapInProgress c) = 0) &&
  bool_decide (len (reducePending c) = 0) &&
  bool_decide (len (reduceInProgress c) = 0) &&
  bool_decide (len (reduceCompleted c) = nReduce c).

(** [GetReduceN] *)
Definition GetReduceN (c : Coordinator) : Z := nReduce c.

(** Control points of the goroutines the coordinator runs. *)
Inductive Goroutine : Set :=
| GetTask_waitMaps                   (* [for len(mapPending) == 0 && len(mapInProgress) > 0] *)
| GetTask_checkDone                  (* [if c.Done()] *)
| GetTask_tryMap                     (* [c.mu.Lock()] before the map range *)
| GetTask_waitReduces                (* [for len(reducePending) == 0 && len(reduceInProgress) > 0] *)
| GetTask_tryReduce                  (* [c.mu.Lock()] before the reduce range *)
| GetTask_return (reply : Task)      (* [return nil] with this reply *)
| CompleteMapTask_call (args : Task)     (* the unlocked membership test *)
| CompleteMapTask_delete (args : Task)   (* [c.mu.Lock()] before the delete *)
| CompleteMapTask_return (err : option error)
| CompleteReduceTask_call (args : Task)
| CompleteReduceTask_move (args : Task)
| CompleteReduceTask_return (err : option error)
| track_call (task : Task)           (* sleeping, then the unlocked membership test *)
| track_repend (task : Task)         (* test passed, [c.mu.Lock()] before the move *)
| track_return.

Global Instance Goroutine_eq_dec : EqDecision Goroutine.
Proof. solve_decision. Defined.

(** Critical section of [GetTask] around the map range. *)
Definition tryMap (pick : Pick) (c : Coordinator)
  : option (Coordinator * Goroutine * list Goroutine) :=
  match mapPending c !! pick with
  | Some filename =>
      let reply := mkTask filename pick MAP in
      let c := set_mapInProgress (<[pick := filename]> (mapInProgress c)) c in
      let c := set_mapPending (delete pick (mapPending c)) c in
      Some (c, GetTask_return reply, [track_call reply])
  | None =>
      if bool_decide (mapPending c = ∅) then Some (c, GetTask_waitReduces, [])
      else None
  end.

(** Critical section of [GetTask] around the reduce range; when the range is
    empty the handler returns the reply it was given, untouched. *)
Definition tryReduce (pick : Pick) (c : Coordinator)
  : option (Coordinator * Goroutine * list Goroutine) :=
  match reducePending c !! pick with
  | Some _ =>
      let reply := mkTask "" pick REDUCE in
      let c := set_reduceInProgress (<[pick := true]> (reduceInProgress c)) c in
      let c := set_reducePending (delete pick (reducePending c)) c in
      Some (c, GetTask_return reply, [track_call reply])
  | None =>
      if bool_decide (reducePending c = ∅) then Some (c, GetTask_return zeroTask, [])
      else None
  end.

(** Critical section of [CompleteMapTask]. *)
Definition deleteMap (args : Task) (c : Coordinator) : Coordinator :=
  set_mapInProgress (delete (TaskNum args) (mapInProgress c)) c.

(** Critical section of [CompleteReduceTask]. *)
Definition moveReduce (args : Task) (c : Coordinator) : Coordinator :=
  let c := set_reduceCompleted (<[TaskNum args := true]> (reduceCompleted c)) c in
  set_reduceInProgress (delete (TaskNum args) (reduceInProgress c)) c.

(** The unlocked test of [track]: is the task still in progress? *)
Definition stillInProgress (task : Task) (c : Coordinator) : bool :=
  match Task_TaskType task with
  | MAP => bool_decide (is_Some (mapInProgress c !! TaskNum task))
  | REDUCE => bool_decide (is_Some (reduceInProgress c !! TaskNum task))
  | EXIT => false
  end.

(** Critical section of [track]. *)
Definition repend (task : Task) (c : Coordinator) : Coordinator :=
  match Task_TaskType task with
  | MAP =>
      let c := set_mapPending (<[TaskNum task := Filename task]> (mapPending c)) c in
      set_mapInProgress (delete (TaskNum task) (mapInProgress c)) c
  | REDUCE =>
      let c := set_reducePending (<[TaskNum task := true]> (reducePending c)) c in
      set_reduceInProgress (delete (TaskNum task) (reduceInProgress c)) c
  | EXIT => c
  end.

(** One transition of a goroutine.  A wait loop whose condition holds sleeps
    and stays where it is. *)
Definition step_goroutine (pick : Pick) (c : Coordinator) (g : Goroutine)
  : option (Coordinator * Goroutine * list Goroutine) :=
  match g with
  | GetTask_waitMaps =>
      if bool_decide (len (mapPending c) = 0) && bool_decide (0 < len (mapInProgress c))
      then Some (c, GetTask_waitMaps, [])
      else Some (c, GetTask_checkDone, [])
  | GetTask_checkDone =>
      if Done c then Some (c, GetTask_return (mkTask "" 0 EXIT), [])
      else Some (c, GetTask_tryMap, [])
  | GetTask_tryMap => if mu c then None else tryMap pick c
  | GetTask_waitReduces =>
      if bool_decide (len (reducePending c) = 0) && bool_decide (0 < len (reduceInProgress c))
      then Some (c, GetTask_waitReduces, [])
      else Some (c, GetTask_tryReduce, [])
  | GetTask_tryReduce => if mu c then None else tryReduce pick c
  | CompleteMapTask_call args =>
      match mapInProgress c !! TaskNum args with
      | None => Some (c, CompleteMapTask_return (Some (ErrMapNotInProgress (TaskNum args))), [])
      | Some _ => Some (c, CompleteMapTask_delete args, [])
      end
  | CompleteMapTask_delete args =>
      if mu c then None else Some (deleteMap args c, CompleteMapTask_return None, [])
  | CompleteReduceTask_call args =>
      match reduceInProgress c !! TaskNum args with
      | None => Some (c, CompleteReduceTask_return (Some (ErrReduceNotInProgress (TaskNum args))), [])
      | Some _ => Some (c, CompleteReduceTask_move args, [])
      end
  | CompleteReduceTask_move args =>
      if mu c then None else Some (moveReduce args c, CompleteReduceTask_return None, [])
  | track_call task =>
      if stillInProgress task c then Some (c, track_repend task, [])
      else Some (c, track_return, [])
  | track_repend task =>
      if mu c then None else Some (repend task c, track_return, [])
  | GetTask_return _ | CompleteMapTask_return _ | CompleteReduceTask_return _
  | track_return => None
  end.

Record Config := mkConfig {
  coord : Coordinator;
  goroutines : list Goroutine
}.

Definition handler (r : Request) : Goroutine :=
  match r with
  | ReqGetTask => GetTask_waitMaps
  | ReqCompleteMapTask args => CompleteMapTask_call args
  | ReqCompleteReduceTask args => CompleteReduceTask_call args
  end.

Definition exec (e : Event) (s : Config) : option Config :=
  match e with
  | Arrive r => Some (mkConfig (coord s) (goroutines s ++ [handler r]))
  | Run tid pick =>
      g ← goroutines s !! tid;
      '(c, g', spawned) ← step_goroutine pick (coord s) g;
      Some (mkConfig c (<[tid := g']> (goroutines s) ++ spawned))
  end.

Definition step (s s' : Config) : Prop := ∃ e, exec e s = Some s'.

Definition init (files : list string) (nReduce : Z) : Config :=
  mkConfig (MakeCoordinator files nReduce) [].

Definition reachable (files : list string) (nReduce : Z) (s : Config) : Prop :=
  rtc step (init files nReduce) s.

Fixpoint run (es : list Event) (s : Config) : option Config :=
  match es with
  | [] => Some s
  | e :: es => s' ← exec e s; run es s'
  end.

(** Interleavings of the polling coordinator on the job
    [MakeCoordinator ["f"] 1].  Goroutines are numbered in the order they
    start. *)

(** Two [GetTask] calls (goroutines 0 and 1) run side by side: both leave the
    first wait loop and pass the [Done] test; goroutine 0 takes map task 0
    (its watcher is goroutine 2); goroutine 1 finds the map range empty and
    leaves the second wait loop, and is about to range over [reducePending]. *)
Definition race_two_GetTask : list Event :=
  [Arrive ReqGetTask; Arrive ReqGetTask;
   Run 0 0; Run 1 0;      (* first wait loop *)
   Run 0 0; Run 1 0;      (* [Done] is false *)
   Run 0 0;               (* goroutine 0 hands out map task 0 *)
   Run 1 0;               (* goroutine 1: map range empty *)
   Run 1 0].              (* goroutine 1: second wait loop *)

(** ... then goroutine 1 hands out reduce task 0 (watcher: goroutine 3), and
    the worker reports it complete (goroutine 4). *)
Definition reduce_completed_during_map : list Event :=
  race_two_GetTask ++
  [Run 1 0;
   Arrive (ReqCompleteReduceTask (mkTask "" 0 REDUCE)); Run 4 0; Run 4 0].

(** A worker takes map task 0 and completes it, takes reduce task 0; a second
    worker's [GetTask] (goroutine 5) waits in the second loop; the first
    worker completes reduce task 0; goroutine 5 leaves the loop. *)
Definition waiter_at_job_end : list Event :=
  [Arrive ReqGetTask; Run 0 0; Run 0 0; Run 0 0;
   Arrive (ReqCompleteMapTask (mkTask "f" 0 MAP)); Run 2 0; Run 2 0;
   Arrive ReqGetTask; Run 3 0; Run 3 0; Run 3 0; Run 3 0; Run 3 0;
   Arrive ReqGetTask; Run 5 0; Run 5 0; Run 5 0; Run 5 0;
   Arrive (ReqCompleteReduceTask (mkTask "" 0 REDUCE)); Run 6 0; Run 6 0;
   Run 5 0].

(** A worker takes map task 0 (watcher: goroutine 1); the watcher wakes and
    tests [mapInProgress]; the worker's [CompleteMapTask] (goroutine 2) runs
    to its end. *)
Definition watcher_races_completion : list Event :=
  [Arrive ReqGetTask; Run 0 0; Run 0 0; Run 0 0;
   Run 1 0;
   Arrive (ReqCompleteMapTask (mkTask "f" 0 MAP)); Run 2 0; Run 2 0].

(** A worker takes map task 0 (watcher: goroutine 1); its [CompleteMapTask]
    (goroutine 2) passes the unlocked test; the watcher wakes, tests and
    moves the task back to [mapPending]. *)
Definition stale_map_report : list Event :=
  [Arrive ReqGetTask; Run 0 0; Run 0 0; Run 0 0;
   Arrive (ReqCompleteMapTask (mkTask "f" 0 MAP)); Run 2 0;
   Run 1 0; Run 1 0].

(** A worker takes map task 0 and completes it; a [GetTask] (goroutine 3)
    hands out reduce task 0 (watcher: goroutine 4). *)
Definition reduce_handed_out : list Event :=
  [Arrive ReqGetTask; Run 0 0; Run 0 0; Run 0 0;
   Arrive (ReqCompleteMapTask (mkTask "f" 0 MAP)); Run 2 0; Run 2 0;
   Arrive ReqGetTask; Run 3 0; Run 3 0; Run 3 0; Run 3 0; Run 3 0].

(** ... then the worker's [CompleteReduceTask] (goroutine 5) passes the
    unlocked test; the watcher wakes, tests and moves the task back to
    [reducePending]. *)
Definition stale_reduce_report : list Event :=
  reduce_handed_out ++
  [Arrive (ReqCompleteReduceTask (mkTask "" 0 MAP)); Run 5 0;
   Run 4 0; Run 4 0].

(** ... or else the watcher wakes and passes its unlocked test; the worker's
    [CompleteReduceTask] (goroutine 5) then runs to its end. *)
Definition watcher_races_reduce_completion : list Event :=
  reduce_handed_out ++
  [Run 4 0;
   Arrive (ReqCompleteReduceTask (mkTask "" 0 MAP)); Run 5 0; Run 5 0].

End Polling.

(** ** The worker: mr/worker.go *)
Module Worker.

(** [type KeyValue struct { Key string; Value string }] *)
Record KeyValue : Set := mkKeyValue {
  Key : string;
  Value : string
}.

Global Instance KeyValue_eq_dec : EqDecision KeyValue.
Proof. solve_decision. Defined.

(** Go's [hash/fnv] 32-bit FNV-1a: [New32a] starts from [offset32]; [Write]
    does [hash ^= uint32(c); hash *= prime32] for each byte, in [uint32]
    arithmetic; [Sum32] returns the state. *)
Definition offset32 : Z := 2166136261.
Definition prime32 : Z := 16777619.

Definition byte_of (c : ascii) : Z := Z.of_N (N_of_ascii c).

Fixpoint fnv32a_Write (hash : Z) (data : string) : Z :=
  match data with
  | EmptyString => hash
  | String c data =>
      fnv32a_Write ((Z.lxor hash (byte_of c) * prime32) mod 2 ^ 32) data
  end.

(** [ihash]: [int(h.Sum32() & 0x7fffffff)] *)
Definition ihash (key : string) : Z :=
  Z.land (fnv32a_Write offset32 key) 0x7fffffff.

(** Go's [a % b] on [int]: the remainder of the truncated division; a zero
    divisor panics. *)
Definition go_rem (a b : Z) : option Z :=
  if bool_decide (b = 0) then None else Some (Z.rem a b).

(** The loop [for _, kv := range kva] of the MAP case, run on
    [intermediateFilesContents]; reading a key the map does not hold gives
    the nil slice. *)
Fixpoint partition (nReduce : Z) (kva : list KeyValue)
    (intermediateFilesContents : gmap Z (list KeyValue))
  : option (gmap Z (list KeyValue)) :=
  match kva with
  | [] => Some intermediateFilesContents
  | kv :: kva =>
      reduceTask ← go_rem (ihash (Key kv)) nReduce;
      partition nReduce kva
        (<[reduceTask := default [] (intermediateFilesContents !! reduceTask) ++ [kv]]>
           intermediateFilesContents)
  end.

(** [fmt.Sprintf("mr-%v-%v", taskNum, reduceTask)] *)
Definition intermediateFilename (taskNum reduceTask : Z) : string :=
  "mr-" +:+ pretty taskNum +:+ "-" +:+ pretty reduceTask.

(** A directory of record files: the name of each file and the records
    that were encoded into it, in order. *)
Abbreviation Dir := (gmap string (list KeyValue)).

(** The loop [for reduceTask, contents := range intermediateFilesContents]:
    the files it creates, fills with [enc.Encode] and renames into place. *)
Definition intermediateFiles (taskNum : Z) (contents : gmap Z (list KeyValue)) : Dir :=
  map_fold (λ reduceTask contents files,
              <[intermediateFilename taskNum reduceTask := contents]> files)
           ∅ contents.

(** The MAP case up to the completion report: [kva] is what [mapf] returned;
    the result is the set of files written, [None] after a panic.  A rename
    replaces a file of the same name in the directory. *)
Definition mapTask (taskNum nReduce : Z) (kva : list KeyValue) : option Dir :=
  intermediateFiles taskNum <$> partition nReduce kva ∅.

Definition mapTask_dir (taskNum nReduce : Z) (kva : list KeyValue) (dir : Dir)
  : option Dir :=
  (λ written, written ∪ dir) <$> mapTask taskNum nReduce kva.

(** [ByKey.Less] *)
Definition Less (a b : KeyValue) : bool := String.ltb (Key a) (Key b).

(** What [sort.Sort(ByKey(kva))] guarantees of the slice it leaves: the same
    elements, and no later element [Less] than an earlier one.  The sort is
    not stable, so the order inside a run of equal keys is not determined. *)
Definition sortedByKey (kva : list KeyValue) : Prop :=
  StronglySorted (λ a b, Less b a = false) kva.

Definition sort_Sort (kva sorted : list KeyValue) : Prop :=
  kva ≡ₚ sorted ∧ sortedByKey sorted.

(** The inner loop [for j < len(kva) && kva[j].Key == kva[i].Key { j++ }],
    run on the slice [rest = kva[j:]]. *)
Fixpoint scanRun (key : string) (rest : list KeyValue) (j : nat) : nat :=
  match rest with
  | kv :: rest => if String.eqb (Key kv) key then scanRun key rest (S j) else j
  | [] => j
  end.

Lemma scanRun_ge key rest j : (j ≤ scanRun key rest j)%nat.
Proof.
  revert j. induction rest as [|kv rest IH]; intros j; simpl; [lia|].
  destruct (String.eqb _ _); [|lia]. specialize (IH (S j)). lia.
Qed.

(** [fmt.Fprintf(ofile, "%v %v\n", key, output)] *)
Definition outputLine (key output : string) : string :=
  key +:+ " " +:+ output +:+ String "010" EmptyString.

Section Reduce.
Variable reducef : string → list string → string.

(** The loop [for i < len(kva)] of the REDUCE case, from index [i]: the
    strings it prints to [ofile], in order. *)
Equations reduceLoop (kva : list KeyValue) (i : nat) : list string
  by wf (length kva - i)%nat lt :=
reduceLoop kva i with inspect (kva !! i) := {
  | exist _ (Some kvi) Hi =>
      outputLine (Key kvi)
        (reducef (Key kvi)
           (Value <$> take (scanRun (Key kvi) (drop (S i) kva) (S i) - i)
                           (drop i kva)))
      :: reduceLoop kva (scanRun (Key kvi) (drop (S i) kva) (S i))
  | exist _ None _ => [] }.
Next Obligation.
  intros kva i kvi Hi _.
  apply lookup_lt_Some in Hi.
  pose proof (scanRun_ge (Key kvi) (drop (S i) kva) (S i)). lia.
Qed.

(** The contents of [mr-out-Y] once [sorted] is what [sort.Sort] left. *)
Definition reduceOutput (sorted : list KeyValue) : string :=
  String.concat "" (reduceLoop sorted 0).
End Reduce.

End Worker.

(** ** Invariants of the signalling coordinator *)

(** The indices of the reduce tasks of a job with fan-out [R]. *)
Definition reduceIds (R : Z) : gset Z := list_to_set (seqZ 0 R).

(** Index [i] names the input file [f] of the job. *)
Definition isInput (files : list string) (i : Z) (f : string) : Prop :=
  0 ≤ i ∧ files !! Z.to_nat i = Some f.

Module SignalledSpec.
Import Signalled.

(** What every reachable configuration of a job satisfies: each reduce task
    is in exactly one bucket, a reduce task leaves [reducePending] only
    once both map buckets are empty, a [GetTask] that saw [allMapsDone]
    still sees both map buckets empty, and every file name in a map bucket or
    in a watcher is the input file of its index. *)
Record Inv (files : list string) (R : Z) (s : Config) : Prop := mkInv {
  inv_nReduce : nReduce (coord s) = R;
  inv_cover :
    dom (reducePending (coord s)) ∪ dom (reduceInProgress (coord s))
      ∪ dom (reduceCompleted (coord s)) = reduceIds R;
  inv_disj_pi : dom (reducePending (coord s)) ## dom (reduceInProgress (coord s));
  inv_disj_pc : dom (reducePending (coord s)) ## dom (reduceCompleted (coord s));
  inv_disj_ic : dom (reduceInProgress (coord s)) ## dom (reduceCompleted (coord s));
  inv_barrier :
    reduceInProgress (coord s) ≠ ∅ ∨ reduceCompleted (coord s) ≠ ∅ →
    mapPending (coord s) = ∅ ∧ mapInProgress (coord s) = ∅;
  inv_tryReduce :
    GetTask_tryReduce ∈ goroutines s →
    mapPending (coord s) = ∅ ∧ mapInProgress (coord s) = ∅;
  inv_pending_file : ∀ i f, mapPending (coord s) !! i = Some f → isInput files i f;
  inv_inProgress_file : ∀ i f, mapInProgress (coord s) !! i = Some f → isInput files i f;
  inv_track_file : ∀ task,
    track_call task ∈ goroutines s → Task_TaskType task = MAP →
    isInput files (TaskNum task) (Filename task)
}.

(** Every one of the [R] reduce tasks is in [reduceCompleted]. *)
Definition allReduceCompleted (R : Z) (c : Coordinator) : Prop :=
  ∀ y, 0 ≤ y < R → is_Some (reduceCompleted c !! y).

(** The five task-state buckets. *)
Definition buckets (c : Coordinator) :=
  (mapPending c, mapInProgress c, reducePending c, reduceInProgress c,
   reduceCompleted c).

(** A transition hands out reduce task [y]: it takes it from
    [reducePending] and puts it in [reduceInProgress]. *)
Definition dispatchesReduce (y : Z) (s s' : Config) : Prop :=
  is_Some (reducePending (coord s) !! y) ∧
  reducePending (coord s') !! y = None ∧
  is_Some (reduceInProgress (coord s') !! y).

End SignalledSpec.

Module PollingSpec.
Import Polling.

(** Every file name in a map bucket or in a watcher is the input file of
    its index. *)
Record Inv (files : list string) (s : Config) : Prop := mkInv {
  inv_pending_file : ∀ i f, mapPending (coord s) !! i = Some f → isInput files i f;
  inv_inProgress_file : ∀ i f, mapInProgress (coord s) !! i = Some f → isInput files i f;
  inv_track_file : ∀ task,
    track_call task ∈ goroutines s ∨ track_repend task ∈ goroutines s →
    Task_TaskType task = MAP →
    isInput files (TaskNum task) (Filename task)
}.

Definition allReduceCompleted (R : Z) (c : Coordinator) : Prop :=
  ∀ y, 0 ≤ y < R → is_Some (reduceCompleted c !! y).

Definition buckets (c : Coordinator) :=
  (mapPending c, mapInProgress c, reducePending c, reduceInProgress c,
   reduceCompleted c).

Definition dispatchesReduce (y : Z) (s s' : Config) : Prop :=
  is_Some (reducePending (coord s) !! y) ∧
  reducePending (coord s') !! y = None ∧
  is_Some (reduceInProgress (coord s') !! y).

End PollingSpec.

Module WorkerSpec.
Import Worker.

(** The bucket of a pair: [ihash(kv.Key) % nReduce] for [nReduce >= 1]. *)
Definition bucketOf (R : Z) (kv : KeyValue) : Z := ihash (Key kv) mod R.

(** A bucket list after more pairs were appended to it; a bucket nothing
    was appended to stays absent. *)
Definition extendBucket (o : option (list KeyValue)) (l : list KeyValue)
  : option (list KeyValue) :=
  match o, l with
  | None, [] => None
  | _, _ => Some (default [] o ++ l)
  end.

(** Go's [<] on strings: bytewise lexicographic. *)
Definition keyLt (a b : string) : Prop := String.ltb a b = true.

(** The values of the records of [kva] whose key is [key], in the order of
    [kva]. *)
Definition valuesOf (key : string) (kva : list KeyValue) : list string :=
  Value <$> filter (λ kv, Key kv = key) kva.

End WorkerSpec.

(** ** Further invariants of the two coordinators *)

Module SignalledMore.
Import Signalled.

(** Further facts of every reachable configuration: a map task is in at most
    one bucket, the pending reduce entries hold [true], [jobDone] is closed,
    or about to be, only once [Done] holds. *)
Record Inv (s : Config) : Prop := mkInv {
  inv_map_disj : dom (mapPending (coord s)) ## dom (mapInProgress (coord s));
  inv_pending_true : ∀ y b, reducePending (coord s) !! y = Some b → b = true;
  inv_jobDone : jobDone (coord s) = true → Done (coord s) = true;
  inv_close : CompleteReduceTask_close ∈ goroutines s → Done (coord s) = true
}.

End SignalledMore.

Module PollingMore.
Import Polling.

Record Inv (R : Z) (s : Config) : Prop := mkInv {
  inv_nReduce : nReduce (coord s) = R;
  inv_mu : mu (coord s) = false;
  inv_map_disj : dom (mapPending (coord s)) ## dom (mapInProgress (coord s));
  inv_reduce_disj : dom (reducePending (coord s)) ## dom (reduceInProgress (coord s));
  inv_pending_true : ∀ y b, reducePending (coord s) !! y = Some b → b = true;
  inv_range : ∀ y,
    y ∈ dom (reducePending (coord s)) ∪ dom (reduceInProgress (coord s))
        ∪ dom (reduceCompleted (coord s)) → 0 ≤ y < R;
  inv_args : ∀ args,
    CompleteReduceTask_move args ∈ goroutines s → 0 ≤ TaskNum args < R;
  inv_track : ∀ task,
    track_repend task ∈ goroutines s ∨ track_call task ∈ goroutines s →
    Task_TaskType task = REDUCE → 0 ≤ TaskNum task < R
}.

End PollingMore.

(** ** One worker on its own *)

(** A task of the job: map task [i] on input file [files[i]], or reduce task
    [y < R], as [GetTask] replies name them. *)
Definition jobTask (files : list string) (R : Z) (t : Task) : Prop :=
  (Task_TaskType t = MAP ∧ isInput files (TaskNum t) (Filename t)) ∨
  (Task_TaskType t = REDUCE ∧ Filename t = ""%string ∧ 0 ≤ TaskNum t < R).

Module SignalledWorker.
Import Signalled.

(** A handler running with no other goroutine taking a transition in
    between: its goroutine goes from one control point to another; the
    watchers it starts sleep. *)
Inductive runsAlone : Coordinator → Goroutine → Coordinator → Goroutine → Prop :=
| runs_here c g : runsAlone c g c g
| runs_step pick c g c1 g1 sp c2 g2 :
    step_goroutine pick c g = Some (c1, g1, sp) →
    runsAlone c1 g1 c2 g2 →
    runsAlone c g c2 g2.

(** One iteration of the loop of [Worker] that does a task, as the
    coordinator sees it: [GetTask] replies a MAP or REDUCE task, and the
    worker's report, [CompleteMapTask] with [Task{Filename, TaskNum}] or
    [CompleteReduceTask] with [Task{TaskNum}], returns [nil]. *)
Inductive iteration : Coordinator → Task → Coordinator → Prop :=
| iteration_map c c1 c2 reply :
    runsAlone c GetTask_loop c1 (GetTask_return reply) →
    Task_TaskType reply = MAP →
    runsAlone c1 (CompleteMapTask_call (mkTask (Filename reply) (TaskNum reply) MAP))
              c2 (CompleteMapTask_return None) →
    iteration c reply c2
| iteration_reduce c c1 c2 reply :
    runsAlone c GetTask_loop c1 (GetTask_return reply) →
    Task_TaskType reply = REDUCE →
    runsAlone c1 (CompleteReduceTask_call (mkTask "" (TaskNum reply) MAP))
              c2 (CompleteReduceTask_return None) →
    iteration c reply c2.

(** The iterations of one worker, with the tasks it did, oldest first. *)
Inductive workerRuns : Coordinator → list Task → Coordinator → Prop :=
| worker_start c : workerRuns c [] c
| worker_iteration c tasks c1 t c2 :
    workerRuns c tasks c1 → iteration c1 t c2 → workerRuns c (tasks ++ [t]) c2.

(** What holds between the iterations of a lone worker on the job. *)
Record SeqInv (files : list string) (R : Z) (tasks : list Task) (c : Coordinator)
  : Prop := mkSeqInv {
  seq_R : 0 ≤ R;
  seq_mu : mu c = false;
  seq_nReduce : nReduce c = R;
  seq_mip : mapInProgress c = ∅;
  seq_rip : reduceInProgress c = ∅;
  seq_mp : ∀ i f, mapPending c !! i = Some f ↔
                  isInput files i f ∧ mkTask f i MAP ∉ tasks;
  seq_rp : ∀ y, is_Some (reducePending c !! y) ↔
                0 ≤ y < R ∧ mkTask "" y REDUCE ∉ tasks;
  seq_rc : ∀ y, is_Some (reduceCompleted c !! y) ↔ mkTask "" y REDUCE ∈ tasks;
  seq_job : Forall (jobTask files R) tasks;
  seq_nodup : NoDup tasks;
  seq_phase : ∃ ms rs, tasks = ms ++ rs ∧
                Forall (λ t, Task_TaskType t = MAP) ms ∧
                Forall (λ t, Task_TaskType t = REDUCE) rs ∧
                (rs ≠ [] → mapPending c = ∅);
  seq_jobDone : jobDone c = true → Done c = true
}.

End SignalledWorker.

Module PollingWorker.
Import Polling.

(** A handler running with no other goroutine taking a transition in
    between. *)
Inductive runsAlone : Coordinator → Goroutine → Coordinator → Goroutine → Prop :=
| runs_here c g : runsAlone c g c g
| runs_step pick c g c1 g1 sp c2 g2 :
    step_goroutine pick c g = Some (c1, g1, sp) →
    runsAlone c1 g1 c2 g2 →
    runsAlone c g c2 g2.

(** One iteration of the loop of [Worker] that does a task. *)
Inductive iteration : Coordinator → Task → Coordinator → Prop :=
| iteration_map c c1 c2 reply :
    runsAlone c GetTask_waitMaps c1 (GetTask_return reply) →
    Task_TaskType reply = MAP →
    runsAlone c1 (CompleteMapTask_call (mkTask (Filename reply) (TaskNum reply) MAP))
              c2 (CompleteMapTask_return None) →
    iteration c reply c2
| iteration_reduce c c1 c2 reply :
    runsAlone c GetTask_waitMaps c1 (GetTask_return reply) →
    Task_TaskType reply = REDUCE →
    runsAlone c1 (CompleteReduceTask_call (mkTask "" (TaskNum reply) MAP))
              c2 (CompleteReduceTask_return None) →
    iteration c reply c2.

(** The iterations of one worker, with the tasks it did, oldest first. *)
Inductive workerRuns : Coordinator → list Task → Coordinator → Prop :=
| worker_start c : workerRuns c [] c
| worker_iteration c tasks c1 t c2 :
    workerRuns c tasks c1 → iteration c1 t c2 → workerRuns c (tasks ++ [t]) c2.

(** What holds between the iterations of a lone worker on the job. *)
Record SeqInv (files : list string) (R : Z) (tasks : list Task) (c : Coordinator)
  : Prop := mkSeqInv {
  seq_R : 0 ≤ R;
  seq_mu : mu c = false;
  seq_nReduce : nReduce c = R;
  seq_mip : mapInProgress c = ∅;
  seq_rip : reduceInProgress c = ∅;
  seq_mp : ∀ i f, mapPending c !! i = Some f ↔
                  isInput files i f ∧ mkTask f i MAP ∉ tasks;
  seq_rp : ∀ y, is_Some (reducePending c !! y) ↔
                0 ≤ y < R ∧ mkTask "" y REDUCE ∉ tasks;
  seq_rc : ∀ y, is_Some (reduceCompleted c !! y) ↔ mkTask "" y REDUCE ∈ tasks;
  seq_job : Forall (jobTask files R) tasks;
  seq_nodup : NoDup tasks;
  seq_phase : ∃ ms rs, tasks = ms ++ rs ∧
                Forall (λ t, Task_TaskType t = MAP) ms ∧
                Forall (λ t, Task_TaskType t = REDUCE) rs ∧
                (rs ≠ [] → mapPending c = ∅)
}.

End PollingWorker.

(** ** The files of the map and reduce phases *)

Module WorkerFiles.
Import Worker.

(** [path/filepath.Match] for a pattern whose only metacharacter is [*]
    (no [?], no bracket, no backslash): [*] matches any sequence of
    characters other than the separator [/], another character matches
    itself. *)
Fixpoint Match (pattern name : string) : bool :=
  match pattern with
  | EmptyString => bool_decide (name = EmptyString)
  | String p pattern =>
      if Ascii.eqb p "*" then
        (fix star (name : string) : bool :=
           Match pattern name ||
           match name with
           | EmptyString => false
           | String c name => negb (Ascii.eqb c "/") && star name
           end) name
      else
        match name with
        | String c name => Ascii.eqb p c && Match pattern name
        | EmptyString => false
        end
  end.

(** [filepath.Glob(pattern)] for a pattern without a directory part, in the
    working directory [dir]: [Readdirnames], [sort.Strings], and the names
    that [Match]. *)
Definition Glob (pattern : string) (dir : Dir) : list string :=
  filter (λ name, Match pattern name = true)
         (merge_sort String.le ((map_to_list dir).*1)).

Section ReduceInput.
(** What [dec.Decode(&kv)] reads back from a record [enc.Encode(&kv)] wrote. *)
Variable decoded : KeyValue → KeyValue.

(** The loop [for _, match := range matches] of the REDUCE case: the
    records appended to [kva]; [None] when a file cannot be opened. *)
Definition readMatches (dir : Dir) (matches : list string) : option (list KeyValue) :=
  mjoin <$> mapM (λ name, fmap decoded <$> dir !! name) matches.

(** The REDUCE case up to [sort.Sort]: the slice [kva]. *)
Definition reduceInput (dir : Dir) (taskNum : Z) : option (list KeyValue) :=
  readMatches dir (Glob ("mr-*-" +:+ pretty taskNum) dir).
End ReduceInput.

(** [oname := "mr-out-" + strconv.Itoa(reply.TaskNum)] *)
Definition oname (taskNum : Z) : string := "mr-out-" +:+ pretty taskNum.

(** The REDUCE case from [sort.Sort] on: the file that
    [os.Rename(ofile.Name(), oname)] puts in place, as its name and its
    contents. *)
Definition reduceTask (reducef : string → list string → string)
    (taskNum : Z) (sorted : list KeyValue) : string * string :=
  (oname taskNum, reduceOutput reducef sorted).

(** The MAP case of several tasks, one after another in a directory: task
    [x] writes what the map callback returned for it, [outs x]. *)
Fixpoint runMapTasks (nReduce : Z) (outs : Z → list KeyValue) (xs : list Z) (dir : Dir)
  : option Dir :=
  match xs with
  | [] => Some dir
  | x :: xs =>
      dir ← mapTask_dir x nReduce (outs x) dir;
      runMapTasks nReduce outs xs dir
  end.

End WorkerFiles.

Module WorkerFilesSpec.

(** Every character of [s] satisfies [P]. *)
Fixpoint allChars (P : ascii → bool) (s : string) : bool :=
  match s with
  | EmptyString => true
  | String c s => P c && allChars P s
  end.

Definition isDigit (c : ascii) : bool :=
  match Ascii.is_nat c with Some _ => true | None => false end.

Definition notChar (d c : ascii) : bool := negb (Ascii.eqb c d).

(** The files the MAP case of task [x] writes, when it does not panic. *)
Definition written (R : Z) (outs : Z → list Worker.KeyValue) (x : Z) : Worker.Dir :=
  default ∅ (Worker.mapTask x R (outs x)).

End WorkerFilesSpec.

(** ** [ByKey] *)

(** [type ByKey []KeyValue] with the methods of [sort.Interface]. *)
Module ByKey.
Import Worker.

(** [a[i]]: an index outside [0, len(a)) panics. *)
Definition index (a : list KeyValue) (i : Z) : option KeyValue :=
  if bool_decide (0 ≤ i) then a !! Z.to_nat i else None.

(** [func (a ByKey) Len() int { return len(a) }] *)
Definition Len (a : list KeyValue) : Z := Z.of_nat (length a).

(** [func (a ByKey) Swap(i, j int) { a[i], a[j] = a[j], a[i] }] *)
Definition Swap (a : list KeyValue) (i j : Z) : option (list KeyValue) :=
  aj ← index a j;
  ai ← index a i;
  Some (<[Z.to_nat j := ai]> (<[Z.to_nat i := aj]> a)).

(** [func (a ByKey) Less(i, j int) bool { return a[i].Key < a[j].Key }] *)
Definition Less (a : list KeyValue) (i j : Z) : option bool :=
  ai ← index a i;
  aj ← index a j;
  Some (Worker.Less ai aj).

End ByKey.

(** ** Generic facts on maps filled by a loop *)

Lemma elem_of_insert_app {A} (l sp : list A) (i : nat) (x y : A) :
  x ∈ <[i := y]> l ++ sp → x = y ∨ x ∈ l ∨ x ∈ sp.
Proof.
  rewrite elem_of_app. intros [H|H]; [|auto].
  apply list_elem_of_lookup in H as [j Hj].
  destruct (decide (i = j)) as [->|Hne].
  - destruct (decide (j < length l)%nat).
    + rewrite list_lookup_insert_eq in Hj by done. left. congruence.
    + rewrite list_insert_ge in Hj by lia. right; left.
      by eapply list_elem_of_lookup_2.
  - rewrite list_lookup_insert_ne in Hj by done. right; left.
    by eapply list_elem_of_lookup_2.
Qed.

Lemma dom_foldl_insert_true (l : list Z) (m : gmap Z bool) :
  dom (foldl (λ m i, <[i := true]> m) m l) = list_to_set l ∪ dom m.
Proof.
  revert m. induction l as [|x l IH]; intros m; simpl.
  - set_solver.
  - rewrite IH, dom_insert_L. set_solver.
Qed.

Lemma lookup_foldl_insert_pair (l : list (Z * string)) (m : gmap Z string) i f :
  foldl (λ m p, <[p.1 := p.2]> m) m l !! i = Some f →
  (i, f) ∈ l ∨ m !! i = Some f.
Proof.
  revert m. induction l as [|[k v] l IH]; intros m; simpl; [auto|].
  intros H. apply IH in H as [H|H].
  - left. by right.
  - destruct (decide (k = i)) as [->|Hne].
    + rewrite lookup_insert_eq in H. simplify_eq. left. left.
    + rewrite lookup_insert_ne in H by done. auto.
Qed.

Lemma elem_of_zip_seqZ (files : list string) i f :
  (i, f) ∈ zip (seqZ 0 (Z.of_nat (length files))) files → isInput files i f.
Proof.
  intros H. apply list_elem_of_lookup in H as [n Hn].
  apply lookup_zip_with_Some in Hn as (x & y & Heq & Hx & Hy).
  simplify_eq. apply lookup_seqZ in Hx as [-> _].
  split; [lia|]. by rewrite Z.add_0_l, Nat2Z.id.
Qed.

Lemma len_0_empty {V} (m : gmap Z V) : len m = 0 → m = ∅.
Proof. unfold len. intros H. apply map_size_empty_inv. lia. Qed.

Lemma len_empty {V} : len (∅ : gmap Z V) = 0.
Proof. unfold len. by rewrite map_size_empty. Qed.

Lemma lookup_Some_non_empty {V} (m : gmap Z V) i v : m !! i = Some v → m ≠ ∅.
Proof. intros H ->. by rewrite lookup_empty in H. Qed.

(** ** Proof automation *)

Ltac split_goroutines H :=
  apply elem_of_insert_app in H as [H|[H|H]];
  [ try discriminate H
  | idtac
  | first [ by apply elem_of_nil in H
          | apply list_elem_of_singleton in H; try discriminate H ] ].

Ltac decide_hyps :=
  repeat match goal with
  | H : bool_decide _ = true |- _ => apply bool_decide_eq_true in H
  | H : bool_decide _ = false |- _ => apply bool_decide_eq_false in H
  end.

(** Both map buckets are empty ([E]): close a goal about them. *)
Ltac maps_empty_from E :=
  let E1 := fresh "E" in
  let E2 := fresh "E" in
  destruct E as [E1 E2]; rewrite ?E1, ?E2 in *;
  simplify_map_eq; rewrite ?delete_empty; done.

Lemma dom_move_cover (X Y W : gset Z) (i : Z) :
  i ∈ X → X ∖ {[i]} ∪ ({[i]} ∪ Y) ∪ W = X ∪ Y ∪ W.
Proof.
  intros Hi. apply set_eq. intros x.
  destruct (decide (x = i)) as [->|]; set_solver.
Qed.

Lemma dom_move_cover_13 (X Y W : gset Z) (i : Z) :
  i ∈ Y → X ∪ Y ∖ {[i]} ∪ ({[i]} ∪ W) = X ∪ Y ∪ W.
Proof.
  intros Hi. apply set_eq. intros x.
  destruct (decide (x = i)) as [->|]; set_solver.
Qed.

Lemma dom_move_cover_21 (X Y W : gset Z) (i : Z) :
  i ∈ Y → {[i]} ∪ X ∪ Y ∖ {[i]} ∪ W = X ∪ Y ∪ W.
Proof.
  intros Hi. apply set_eq. intros x.
  destruct (decide (x = i)) as [->|]; set_solver.
Qed.

Ltac dom_solver :=
  repeat match goal with
  | H : @lookup _ _ (gmap _ _) _ _ _ = Some _ |- _ => apply (elem_of_dom_2 _ _ _) in H
  end;
  rewrite ?dom_insert_L, ?dom_delete_L;
  first [ rewrite dom_move_cover by done; done
        | rewrite dom_move_cover_13 by done; done
        | rewrite dom_move_cover_21 by done; done
        | match goal with
          | Hpi : _ ## _, Hpc : _ ## _, Hic : _ ## _ |- _ ## _ =>
              clear -Hpi Hpc Hic; set_solver
          end
        | match goal with
          | Hi : _ ∈ dom _, Hpi : _ ## _, Hpc : _ ## _, Hic : _ ## _ |- _ ## _ =>
              clear -Hi Hpi Hpc Hic; set_solver
          end ].

(** ** The signalling coordinator keeps its invariant *)
Section SignalledInv.
Import Signalled SignalledSpec.
Variable files : list string.
Variable R : Z.

Lemma init_Inv : Inv files R (init files R).
Proof.
  split; simpl.
  - done.
  - rewrite dom_foldl_insert_true. unfold reduceIds. set_solver.
  - set_solver.
  - set_solver.
  - set_solver.
  - intros [H|H]; done.
  - intros H. by apply elem_of_nil in H.
  - intros i f H. apply lookup_foldl_insert_pair in H as [H|H].
    + by apply elem_of_zip_seqZ.
    + by rewrite lookup_empty in H.
  - intros i f H. by rewrite lookup_empty in H.
  - intros task H. by apply elem_of_nil in H.
Qed.

Lemma arrive_Inv s r :
  Inv files R s → Inv files R (mkConfig (coord s) (goroutines s ++ [handler r])).
Proof.
  intros [].
  split; simpl; try done.
  - intros H. apply elem_of_app in H as [H|H]; [auto|].
    apply list_elem_of_singleton in H. by destruct r.
  - intros task H. apply elem_of_app in H as [H|H]; [auto|].
    apply list_elem_of_singleton in H. by destruct r.
Qed.

Lemma run_Inv s tid pick g c g' sp :
  Inv files R s →
  goroutines s !! tid = Some g →
  step_goroutine pick (coord s) g = Some (c, g', sp) →
  Inv files R (mkConfig c (<[tid := g']> (goroutines s) ++ sp)).
Proof.
  intros HI Hg Hs.
  assert (Hin : g ∈ goroutines s) by (by eapply list_elem_of_lookup_2).
  destruct HI as [HR Hcov Hpi Hpc Hic Hbar Htr Hpf Hif Htf].
  destruct s as [c0 gs]; simpl in *.
  destruct g; simpl in Hs; unfold tryMap, tryReduce, CompleteMapTask,
    CompleteReduceTask, track, trySend in Hs;
    repeat case_match; simplify_eq/=; decide_hyps.
  all: split; simpl; try done.
  all: try (intros Hmem; split_goroutines Hmem; auto; fail).
  all: try (intros tk Hmem; split_goroutines Hmem; auto; fail).
  all: try (intros Hp; maps_empty_from (Hbar Hp); fail).
  all: try (intros Hmem; split_goroutines Hmem; maps_empty_from (Htr Hmem); fail).
  all: try (intros _;
            first [ exact (Htr Hin)
                  | apply Hbar; left; eapply lookup_Some_non_empty; eassumption ];
            fail).
  all: try (dom_solver; fail).
  all: try (intros i f Hl; apply lookup_delete_Some in Hl as [_ Hl]; eauto; fail).
  all: try (intros i f Hl; apply lookup_insert_Some in Hl as [[<- <-]|[_ Hl]];
            eauto; fail).
  - intros tk Hmem. split_goroutines Hmem; [eauto|].
    simplify_eq; simpl. intros _. eauto.
  - intros _. split; [done|]. by apply len_0_empty.
  - intros tk Hmem. split_goroutines Hmem; [eauto|].
    simplify_eq; simpl. discriminate.
Qed.

Lemma step_Inv s s' : Inv files R s → step s s' → Inv files R s'.
Proof.
  intros HI [e He]. destruct e as [r|tid pick]; simpl in He.
  - simplify_eq. by apply arrive_Inv.
  - destruct (goroutines s !! tid) as [g|] eqn:Hg; simplify_eq/=.
    destruct (step_goroutine pick (coord s) g) as [[[c g'] sp]|] eqn:Hs;
      simplify_eq/=.
    by eapply run_Inv.
Qed.

Lemma reachable_Inv s : reachable files R s → Inv files R s.
Proof.
  intros H.
  eapply (rtc_ind_r (λ s, Inv files R s)); [apply init_Inv| |exact H].
  intros y z _ Hyz IH. by eapply step_Inv.
Qed.

End SignalledInv.

(** ** What the invariant gives for the signalling coordinator *)
Section SignalledFacts.
Import Signalled SignalledSpec.

Lemma Done_true_iff c :
  Done c = true ↔
  mapPending c = ∅ ∧ mapInProgress c = ∅ ∧ reducePending c = ∅ ∧
  reduceInProgress c = ∅ ∧ len (reduceCompleted c) = nReduce c.
Proof.
  unfold Done. rewrite !andb_true_iff, !bool_decide_eq_true. split.
  - intros [[[[? ?] ?] ?] ?]. repeat split; try done; by apply len_0_empty.
  - intros (-> & -> & -> & -> & ?). by rewrite !len_empty.
Qed.

Lemma elem_of_reduceIds R y : y ∈ reduceIds R ↔ 0 ≤ y < R.
Proof. unfold reduceIds. rewrite elem_of_list_to_set, elem_of_seqZ. lia. Qed.

Lemma size_reduceIds R : 0 ≤ R → Z.of_nat (size (reduceIds R)) = R.
Proof.
  intros HR. unfold reduceIds.
  rewrite size_list_to_set by apply NoDup_seqZ. rewrite length_seqZ. lia.
Qed.

Lemma Inv_allReduceCompleted files R s :
  1 ≤ R → Inv files R s → allReduceCompleted R (coord s) →
  mapPending (coord s) = ∅ ∧ mapInProgress (coord s) = ∅ ∧
  reducePending (coord s) = ∅ ∧ reduceInProgress (coord s) = ∅ ∧
  dom (reduceCompleted (coord s)) = reduceIds R.
Proof.
  intros HR [HnR Hcov Hpi Hpc Hic Hbar _ _ _ _] Hall.
  assert (Hsub : reduceIds R ⊆ dom (reduceCompleted (coord s))).
  { intros y Hy. apply elem_of_reduceIds in Hy. apply elem_of_dom. by apply Hall. }
  assert (Hne : reduceCompleted (coord s) ≠ ∅).
  { destruct (Hall 0) as [v Hv]; [lia|]. by eapply lookup_Some_non_empty. }
  destruct Hbar as [-> ->]; [by right|].
  assert (Hp : dom (reducePending (coord s)) = ∅) by set_solver.
  assert (Hi : dom (reduceInProgress (coord s)) = ∅) by set_solver.
  apply dom_empty_inv_L in Hp, Hi.
  repeat split; try done. set_solver.
Qed.

Lemma Inv_Done_iff files R s :
  1 ≤ R → Inv files R s →
  Done (coord s) = true ↔ allReduceCompleted R (coord s).
Proof.
  intros HR HI. rewrite Done_true_iff. split.
  - intros (_ & _ & Hp & Hi & _) y Hy.
    destruct HI as [_ Hcov _ _ _ _ _ _ _ _].
    rewrite Hp, Hi, !dom_empty_L in Hcov.
    apply elem_of_dom. rewrite <- (elem_of_reduceIds R) in Hy. set_solver.
  - intros Hall.
    destruct (Inv_allReduceCompleted files R s HR HI Hall) as (-> & -> & -> & -> & Hd).
    repeat split; try done.
    unfold len. rewrite <- size_dom, Hd, (inv_nReduce files R s HI).
    apply size_reduceIds. lia.
Qed.

(** [Done] in a reachable state of a job with at least one reduce task. *)
Lemma Signalled_Done_iff files R s :
  1 ≤ R → reachable files R s →
  Done (coord s) = true ↔ allReduceCompleted R (coord s).
Proof. intros HR Hr. apply (Inv_Done_iff files); [done|by apply reachable_Inv]. Qed.

(** The phase barrier: the transition that hands out a reduce task starts
    from a state whose map buckets are empty. *)
Lemma Signalled_phase_barrier files R s s' y :
  reachable files R s → step s s' → dispatchesReduce y s s' →
  mapPending (coord s) = ∅ ∧ mapInProgress (coord s) = ∅.
Proof.
  intros Hr [e He] (Hp & Hp' & Hi').
  apply reachable_Inv in Hr as HI.
  destruct e as [r|tid pick]; simpl in He.
  { simplify_eq/=. rewrite Hp' in Hp. by destruct Hp. }
  destruct (goroutines s !! tid) as [g|] eqn:Hg; simplify_eq/=.
  destruct (step_goroutine pick (coord s) g) as [[[c g'] sp]|] eqn:Hs;
    simplify_eq/=.
  assert (Hin : g ∈ goroutines s) by (by eapply list_elem_of_lookup_2).
  destruct (decide (g = GetTask_tryReduce)) as [->|Hne].
  { by apply (inv_tryReduce files R s HI). }
  exfalso. destruct Hp as [v Hp].
  destruct g; simpl in Hs; unfold tryMap, CompleteMapTask, CompleteReduceTask,
    track, trySend in Hs; repeat case_match; simplify_eq/=;
    try (rewrite Hp' in Hp; discriminate Hp).
  destruct (decide (TaskNum task = y)) as [<-|Hny].
  - by rewrite lookup_insert_eq in Hp'.
  - rewrite lookup_insert_ne in Hp' by done. rewrite Hp' in Hp. discriminate Hp.
Qed.

(** Once both map buckets are empty no transition fills them again. *)
Lemma Signalled_maps_stay_empty s s' :
  step s s' →
  mapPending (coord s) = ∅ ∧ mapInProgress (coord s) = ∅ →
  mapPending (coord s') = ∅ ∧ mapInProgress (coord s') = ∅.
Proof.
  intros [e He] [Hp Hi].
  destruct e as [r|tid pick]; simpl in He; [by simplify_eq/=|].
  destruct (goroutines s !! tid) as [g|] eqn:Hg; simplify_eq/=.
  destruct (step_goroutine pick (coord s) g) as [[[c g'] sp]|] eqn:Hs;
    simplify_eq/=.
  destruct s as [c0 gs]; simpl in *.
  destruct g; simpl in Hs; unfold tryMap, tryReduce, CompleteMapTask,
    CompleteReduceTask, track, trySend in Hs;
    repeat case_match; simplify_eq/=; try done;
    rewrite ?Hp, ?Hi in *; simplify_map_eq; rewrite ?delete_empty; done.
Qed.

(** A [GetTask] transition taken in a terminal state changes no bucket and
    starts no watcher, and a reply it returns is EXIT. *)
Lemma Signalled_terminal_GetTask files R s tid pick g c g' sp :
  1 ≤ R → reachable files R s → allReduceCompleted R (coord s) →
  goroutines s !! tid = Some g →
  g ∈ [GetTask_loop; GetTask_tryMap; GetTask_tryReduce; GetTask_waitReduce;
       GetTask_waitMap] →
  step_goroutine pick (coord s) g = Some (c, g', sp) →
  buckets c = buckets (coord s) ∧ sp = [] ∧
  ∀ reply, g' = GetTask_return reply → Task_TaskType reply = EXIT.
Proof.
  intros HR Hr Hall Hg Hkind Hs.
  apply reachable_Inv in Hr as HI.
  destruct (Inv_allReduceCompleted files R s HR HI Hall) as (Hmp & Hmi & Hrp & Hri & _).
  destruct s as [c0 gs]; simpl in *.
  repeat (apply elem_of_cons in Hkind as [->|Hkind]);
    [| | | | |by apply elem_of_nil in Hkind];
    simpl in Hs; unfold tryMap, tryReduce in Hs;
    rewrite ?Hmp, ?Hrp, ?lookup_empty in Hs;
    repeat case_match; simplify_eq/=;
    (split; [done|split; [done|]]); intros reply Hreply; by simplify_eq.
Qed.

(** Before it returns, a [GetTask] handler changes no bucket. *)
Lemma Signalled_GetTask_buckets pick c g c' g' sp :
  g ∈ [GetTask_loop; GetTask_tryMap; GetTask_tryReduce; GetTask_waitReduce;
       GetTask_waitMap] →
  step_goroutine pick c g = Some (c', g', sp) →
  (∀ reply, g' ≠ GetTask_return reply) →
  buckets c' = buckets c.
Proof.
  intros Hkind Hs Hnr.
  repeat (apply elem_of_cons in Hkind as [->|Hkind]);
    [| | | | |by apply elem_of_nil in Hkind];
    simpl in Hs; unfold tryMap, tryReduce in Hs;
    repeat case_match; simplify_eq/=; try done; by edestruct Hnr.
Qed.

End SignalledFacts.

(** ** The polling coordinator: file names *)
Section PollingInv.
Import Polling PollingSpec.
Variable files : list string.

Lemma Polling_init_Inv R : Inv files (init files R).
Proof.
  split; simpl.
  - intros i f H. apply lookup_foldl_insert_pair in H as [H|H].
    + by apply elem_of_zip_seqZ.
    + by rewrite lookup_empty in H.
  - intros i f H. by rewrite lookup_empty in H.
  - intros task [H|H]; by apply elem_of_nil in H.
Qed.

Lemma Polling_step_Inv s s' : Inv files s → step s s' → Inv files s'.
Proof.
  intros [Hpf Hif Htf] [e He]. destruct e as [r|tid pick]; simpl in He.
  { simplify_eq. split; simpl; try done.
    intros task [H|H] Hty; apply elem_of_app in H as [H|H]; eauto;
      apply list_elem_of_singleton in H; by destruct r. }
  destruct (goroutines s !! tid) as [g|] eqn:Hg; simplify_eq/=.
  destruct (step_goroutine pick (coord s) g) as [[[c g'] sp]|] eqn:Hs;
    simplify_eq/=.
  assert (Hin : g ∈ goroutines s) by (by eapply list_elem_of_lookup_2).
  destruct s as [c0 gs]; simpl in *.
  destruct g; simpl in Hs; unfold tryMap, tryReduce, deleteMap, moveReduce,
    repend, stillInProgress in Hs;
    repeat case_match; simplify_eq/=; decide_hyps.
  all: split; simpl; try done.
  all: try (intros tk [Hmem|Hmem]; split_goroutines Hmem; simplify_eq; eauto; fail).
  all: try (intros i f Hl; apply lookup_delete_Some in Hl as [_ Hl]; eauto; fail).
  all: try (intros i f Hl; apply lookup_insert_Some in Hl as [[<- <-]|[_ Hl]];
            eauto; fail).
  intros tk [Hmem|Hmem]; split_goroutines Hmem; simplify_eq; eauto.
  simpl. discriminate.
Qed.

Lemma Polling_reachable_Inv R s : reachable files R s → Inv files s.
Proof.
  intros H.
  eapply (rtc_ind_r (λ s, Inv files s)); [apply Polling_init_Inv| |exact H].
  intros y z _ Hyz IH. by eapply Polling_step_Inv.
Qed.

Lemma Polling_run_rtc es s s' : run es s = Some s' → rtc step s s'.
Proof.
  revert s. induction es as [|e es IH]; intros s; simpl.
  - intros; simplify_eq. constructor.
  - destruct (exec e s) as [s1|] eqn:He; simpl; [|done].
    intros H. eapply rtc_l; [by exists e|]. by apply IH.
Qed.

End PollingInv.

Lemma Signalled_run_rtc es s s' :
  Signalled.run es s = Some s' → rtc Signalled.step s s'.
Proof.
  revert s. induction es as [|e es IH]; intros s; simpl.
  - intros; simplify_eq. constructor.
  - destruct (Signalled.exec e s) as [s1|] eqn:He; simpl; [|done].
    intros H. eapply rtc_l; [by exists e|]. by apply IH.
Qed.

Lemma isInput_inj files i f f' : isInput files i f → isInput files i f' → f = f'.
Proof. intros [_ H] [_ H']. congruence. Qed.


(** ** Claims on the coordinator *)

(** C1 (phase barrier), evaluated on the polling coordinator at the job
    [MakeCoordinator ["f"] 1] with two [GetTask] calls in flight: both calls
    leave the first wait loop and pass the [Done] test while map task 0 is
    still pending, the first call takes map task 0, and the second call, whose
    map range is now empty, hands out reduce task 0 while map task 0 is in
    [mapInProgress].  The barrier the claim states is broken on this
    coordinator; [Signalled_phase_barrier] proves it for the signalling
    coordinator. *)
Theorem C1_polling_reduce_dispatched_during_map :
  ∃ s s',
    Polling.reachable ["f"%string] 1 s ∧
    Polling.step s s' ∧
    PollingSpec.dispatchesReduce 0 s s' ∧
    Polling.mapInProgress (Polling.coord s) !! 0 = Some "f"%string ∧
    Polling.goroutines s' !! 1%nat
      = Some (Polling.GetTask_return (mkTask "" 0 REDUCE)).
Proof.
  destruct (Polling.run Polling.race_two_GetTask (Polling.init ["f"%string] 1))
    as [s|] eqn:Hs; [|by vm_compute in Hs].
  destruct (Polling.exec (Run 1 0) s) as [s'|] eqn:Hs';
    [|by vm_compute in Hs; simplify_eq; vm_compute in Hs'].
  exists s, s'. split; [by eapply Polling_run_rtc|].
  split; [by exists (Run 1 0)|].
  vm_compute in Hs. simplify_eq. vm_compute in Hs'. simplify_eq.
  repeat split; try done; by eexists.
Qed.

(** C2 (terminal EXIT), evaluated on the polling coordinator: a [GetTask]
    call that is waiting in the second wait loop when the last reduce task
    completes leaves the loop in the terminal state, finds [reducePending]
    empty and returns the reply it was given, whose task type is the zero
    value MAP, not EXIT.  [Signalled_terminal_GetTask] proves the claim for
    the signalling coordinator. *)
Theorem C2_polling_terminal_GetTask_returns_MAP :
  ∃ s tid pick c reply sp,
    Polling.reachable ["f"%string] 1 s ∧
    PollingSpec.allReduceCompleted 1 (Polling.coord s) ∧
    Polling.Done (Polling.coord s) = true ∧
    Polling.goroutines s !! tid = Some Polling.GetTask_tryReduce ∧
    Polling.step_goroutine pick (Polling.coord s) Polling.GetTask_tryReduce
      = Some (c, Polling.GetTask_return reply, sp) ∧
    Task_TaskType reply = MAP.
Proof.
  destruct (Polling.run Polling.waiter_at_job_end (Polling.init ["f"%string] 1))
    as [s|] eqn:Hs; [|by vm_compute in Hs].
  exists s, 5%nat, 0, (Polling.coord s), zeroTask, [].
  split; [by eapply Polling_run_rtc|].
  vm_compute in Hs. simplify_eq.
  repeat split; try done.
  intros y Hy. assert (y = 0) as -> by lia. by eexists.
Qed.

(** C5 (Done characterization), evaluated on the polling coordinator: after
    the interleaving of C1 the only reduce task is handed out and reported
    complete while map task 0 is still in progress, so every reduce task is
    COMPLETED and [Done] is false.  Same defect as C1.
    [Signalled_Done_iff] proves the claim for the signalling coordinator. *)
Theorem C5_polling_all_reduces_completed_not_Done :
  ∃ s,
    Polling.reachable ["f"%string] 1 s ∧
    PollingSpec.allReduceCompleted 1 (Polling.coord s) ∧
    Polling.Done (Polling.coord s) = false.
Proof.
  destruct (Polling.run Polling.reduce_completed_during_map
              (Polling.init ["f"%string] 1)) as [s|] eqn:Hs;
    [|by vm_compute in Hs].
  exists s. split; [by eapply Polling_run_rtc|].
  vm_compute in Hs. simplify_eq. split; [|done].
  intros y Hy. assert (y = 0) as -> by lia. by eexists.
Qed.

(** C9 (map phase completion is irreversible), evaluated on the polling
    coordinator: the watcher of map task 0 tests [mapInProgress] without the
    mutex and finds the task; the worker's [CompleteMapTask] then removes it,
    leaving both map buckets empty; the watcher then takes the mutex and puts
    the task back in [mapPending].  [Signalled_maps_stay_empty] proves the
    claim for the signalling coordinator, whose watcher tests inside the
    mutex. *)
Theorem C9_polling_watcher_repends_completed_map :
  ∃ s s',
    Polling.reachable ["f"%string] 1 s ∧
    Polling.mapPending (Polling.coord s) = ∅ ∧
    Polling.mapInProgress (Polling.coord s) = ∅ ∧
    Polling.step s s' ∧
    Polling.mapPending (Polling.coord s') !! 0 = Some "f"%string.
Proof.
  destruct (Polling.run Polling.watcher_races_completion
              (Polling.init ["f"%string] 1)) as [s|] eqn:Hs;
    [|by vm_compute in Hs].
  destruct (Polling.exec (Run 1 0) s) as [s'|] eqn:Hs';
    [|by vm_compute in Hs; simplify_eq; vm_compute in Hs'].
  exists s, s'. split; [by eapply Polling_run_rtc|].
  assert (Hstep : Polling.step s s') by (by exists (Run 1 0)).
  vm_compute in Hs. simplify_eq. vm_compute in Hs'. simplify_eq.
  repeat split; try done.
Qed.

(** In the signalling coordinator the test and the update of a completion
    report are one critical section: whenever it runs, the handler returns
    its not-in-progress error exactly when the task number is not a key of
    the in-progress bucket, and then no bucket has changed; otherwise the
    task leaves the in-progress bucket in the same transition. *)
Lemma Signalled_completion_report_atomic pick c args c' g' sp :
  (Signalled.step_goroutine pick c (Signalled.CompleteMapTask_call args)
     = Some (c', g', sp) →
   (Signalled.mapInProgress c !! TaskNum args = None →
      g' = Signalled.CompleteMapTask_return
             (Some (ErrMapNotInProgress (TaskNum args))) ∧
      SignalledSpec.buckets c' = SignalledSpec.buckets c) ∧
   (is_Some (Signalled.mapInProgress c !! TaskNum args) →
      g' = Signalled.CompleteMapTask_return None ∧
      Signalled.mapInProgress c' = delete (TaskNum args) (Signalled.mapInProgress c))) ∧
  (Signalled.step_goroutine pick c (Signalled.CompleteReduceTask_call args)
     = Some (c', g', sp) →
   (Signalled.reduceInProgress c !! TaskNum args = None →
      g' = Signalled.CompleteReduceTask_return
             (Some (ErrReduceNotInProgress (TaskNum args))) ∧
      SignalledSpec.buckets c' = SignalledSpec.buckets c) ∧
   (is_Some (Signalled.reduceInProgress c !! TaskNum args) →
      g' = Signalled.CompleteReduceTask_checkDone ∧
      Signalled.reduceInProgress c'
        = delete (TaskNum args) (Signalled.reduceInProgress c) ∧
      Signalled.reduceCompleted c'
        = <[TaskNum args := true]> (Signalled.reduceCompleted c))).
Proof.
  split; intros Hs; simpl in Hs; destruct (Signalled.mu c); try done.
  - unfold Signalled.CompleteMapTask in Hs.
    destruct (Signalled.mapInProgress c !! TaskNum args) as [f|] eqn:Hl;
      simpl in Hs; simplify_eq.
    + split; [done|]. intros _. split; [done|]. by case_match.
    + split; [done|]. by intros [? ?].
  - unfold Signalled.CompleteReduceTask in Hs.
    destruct (Signalled.reduceInProgress c !! TaskNum args) as [f|] eqn:Hl;
      simpl in Hs; simplify_eq.
    + split; [done|]. done.
    + split; [done|]. by intros [? ?].
Qed.

(** C3 (stale completion rejected atomically), evaluated on the polling
    coordinator at the job [MakeCoordinator ["f"] 1].  [CompleteMapTask] and
    [CompleteReduceTask] test the in-progress bucket before they take the
    mutex.  A report for map task 0 passes the test; the watcher of the task
    then moves it back to [mapPending]; the report takes the mutex and
    returns [nil] although the task is PENDING and not IN_PROGRESS.  In the
    same way a report for reduce task 0 that passed the test before the
    watcher re-pended the task returns [nil] and writes [reduceCompleted[0]],
    so that the task is PENDING and COMPLETED at once.  The rejection the
    claim states is not atomic on this coordinator;
    [Signalled_completion_report_atomic] proves it for the critical section
    of the signalling coordinator. *)
Theorem C3_polling_stale_report_accepted :
  (∃ s s',
     Polling.reachable ["f"%string] 1 s ∧
     Polling.goroutines s !! 2%nat
       = Some (Polling.CompleteMapTask_delete (mkTask "f" 0 MAP)) ∧
     Polling.mapInProgress (Polling.coord s) !! 0 = None ∧
     Polling.mapPending (Polling.coord s) !! 0 = Some "f"%string ∧
     Polling.exec (Run 2 0) s = Some s' ∧
     Polling.goroutines s' !! 2%nat = Some (Polling.CompleteMapTask_return None)) ∧
  (∃ s s',
     Polling.reachable ["f"%string] 1 s ∧
     Polling.goroutines s !! 5%nat
       = Some (Polling.CompleteReduceTask_move (mkTask "" 0 MAP)) ∧
     Polling.reduceInProgress (Polling.coord s) !! 0 = None ∧
     Polling.reducePending (Polling.coord s) !! 0 = Some true ∧
     Polling.reduceCompleted (Polling.coord s) !! 0 = None ∧
     Polling.exec (Run 5 0) s = Some s' ∧
     Polling.goroutines s' !! 5%nat = Some (Polling.CompleteReduceTask_return None) ∧
     Polling.reducePending (Polling.coord s') !! 0 = Some true ∧
     Polling.reduceCompleted (Polling.coord s') !! 0 = Some true).
Proof.
  split.
  - destruct (Polling.run Polling.stale_map_report (Polling.init ["f"%string] 1))
      as [s|] eqn:Hs; [|by vm_compute in Hs].
    destruct (Polling.exec (Run 2 0) s) as [s'|] eqn:Hs';
      [|by vm_compute in Hs; simplify_eq; vm_compute in Hs'].
    exists s, s'. split; [by eapply Polling_run_rtc|].
    vm_compute in Hs. simplify_eq. vm_compute in Hs'. simplify_eq.
    repeat split; done.
  - destruct (Polling.run Polling.stale_reduce_report (Polling.init ["f"%string] 1))
      as [s|] eqn:Hs; [|by vm_compute in Hs].
    destruct (Polling.exec (Run 5 0) s) as [s'|] eqn:Hs';
      [|by vm_compute in Hs; simplify_eq; vm_compute in Hs'].
    exists s, s'. split; [by eapply Polling_run_rtc|].
    vm_compute in Hs. simplify_eq. vm_compute in Hs'. simplify_eq.
    repeat split; done.
Qed.

(** In the signalling coordinator the test and the move of a watcher are one
    critical section: whenever it runs, a task that is a key of the
    in-progress bucket of its phase is removed from it and put in the pending
    bucket (a map task under the file name the watcher carries), and for a
    task that is not, no bucket changes. *)
Lemma Signalled_watcher_atomic pick c task c' g' sp :
  Signalled.step_goroutine pick c (Signalled.track_call task) = Some (c', g', sp) →
  let i := TaskNum task in
  g' = Signalled.track_return ∧
  (Task_TaskType task = MAP →
     (is_Some (Signalled.mapInProgress c !! i) →
        Signalled.mapPending c' = <[i := Filename task]> (Signalled.mapPending c) ∧
        Signalled.mapInProgress c' = delete i (Signalled.mapInProgress c) ∧
        Signalled.reducePending c' = Signalled.reducePending c ∧
        Signalled.reduceInProgress c' = Signalled.reduceInProgress c ∧
        Signalled.reduceCompleted c' = Signalled.reduceCompleted c) ∧
     (Signalled.mapInProgress c !! i = None →
        SignalledSpec.buckets c' = SignalledSpec.buckets c)) ∧
  (Task_TaskType task = REDUCE →
     (is_Some (Signalled.reduceInProgress c !! i) →
        Signalled.reducePending c' = <[i := true]> (Signalled.reducePending c) ∧
        Signalled.reduceInProgress c' = delete i (Signalled.reduceInProgress c) ∧
        Signalled.mapPending c' = Signalled.mapPending c ∧
        Signalled.mapInProgress c' = Signalled.mapInProgress c ∧
        Signalled.reduceCompleted c' = Signalled.reduceCompleted c) ∧
     (Signalled.reduceInProgress c !! i = None →
        SignalledSpec.buckets c' = SignalledSpec.buckets c)) ∧
  (Task_TaskType task = EXIT → c' = c).
Proof.
  intros Hs i. subst i. simpl in Hs. unfold Signalled.track in Hs.
  destruct (Task_TaskType task) eqn:Hty.
  - destruct (Signalled.mu c); [done|]. simplify_eq.
    split; [done|]. split; [|split]; intros Hty'; try done.
    split; [by intros [f ->]|by intros ->].
  - destruct (Signalled.mu c); [done|]. simplify_eq.
    split; [done|]. split; [|split]; intros Hty'; try done.
    split; [by intros [f ->]|by intros ->].
  - simplify_eq. split; [done|]. split; [|split]; intros Hty'; done.
Qed.

(** C4 (timeout watcher step), evaluated on the polling coordinator at the
    job [MakeCoordinator ["f"] 1].  [track] tests the in-progress bucket
    before it takes the mutex.  The watcher of reduce task 0 wakes and finds
    the task in [reduceInProgress]; the worker's [CompleteReduceTask] then
    moves the task to [reduceCompleted], which ends the job: [Done] computes
    true; the watcher then takes the mutex and writes [reducePending[0]].  So
    a watcher whose task is no longer IN_PROGRESS changes a bucket: the task
    is COMPLETED and PENDING at once, and [Done] computes false again.
    [Signalled_watcher_atomic] proves the claim for the critical section of
    the signalling coordinator. *)
Theorem C4_polling_watcher_repends_completed_reduce :
  ∃ s s',
    Polling.reachable ["f"%string] 1 s ∧
    Polling.goroutines s !! 4%nat
      = Some (Polling.track_repend (mkTask "" 0 REDUCE)) ∧
    Polling.reduceInProgress (Polling.coord s) !! 0 = None ∧
    Polling.reduceCompleted (Polling.coord s) !! 0 = Some true ∧
    Polling.reducePending (Polling.coord s) !! 0 = None ∧
    Polling.Done (Polling.coord s) = true ∧
    Polling.exec (Run 4 0) s = Some s' ∧
    Polling.goroutines s' !! 4%nat = Some Polling.track_return ∧
    Polling.reducePending (Polling.coord s') !! 0 = Some true ∧
    Polling.reduceCompleted (Polling.coord s') !! 0 = Some true ∧
    Polling.Done (Polling.coord s') = false.
Proof.
  destruct (Polling.run Polling.watcher_races_reduce_completion
              (Polling.init ["f"%string] 1)) as [s|] eqn:Hs;
    [|by vm_compute in Hs].
  destruct (Polling.exec (Run 4 0) s) as [s'|] eqn:Hs';
    [|by vm_compute in Hs; simplify_eq; vm_compute in Hs'].
  exists s, s'. split; [by eapply Polling_run_rtc|].
  vm_compute in Hs. simplify_eq. vm_compute in Hs'. simplify_eq.
  repeat split; done.
Qed.

(** ** The empty job *)

Lemma lookup_foldl_insert_true (l : list Z) (m : gmap Z bool) k :
  foldl (λ m i, <[i := true]> m) m l !! k
  = if decide (k ∈ l) then Some true else m !! k.
Proof.
  revert m. induction l as [|x l IH]; intros m; cbn [foldl].
  - case_decide as Hin; [|done]. by apply elem_of_nil in Hin.
  - rewrite IH. destruct (decide (k ∈ l)) as [Hin|Hnin].
    + case_decide as Hin'; [done|]. exfalso. apply Hin'. by right.
    + destruct (decide (x = k)) as [->|Hne].
      * rewrite lookup_insert_eq. case_decide as Hin'; [done|].
        exfalso. apply Hin'. by left.
      * rewrite lookup_insert_ne by done.
        case_decide as Hin'; [|done].
        apply elem_of_cons in Hin' as [?|?]; congruence.
Qed.

Lemma lookup_reducePending_init R y :
  foldl (λ m i, <[i := true]> m) (∅ : gmap Z bool) (seqZ 0 R) !! y
  = if decide (0 ≤ y < R) then Some true else None.
Proof.
  rewrite lookup_foldl_insert_true, lookup_empty.
  repeat case_decide; try done.
  - exfalso. rewrite elem_of_seqZ in *. lia.
  - exfalso. rewrite elem_of_seqZ in *. lia.
Qed.

Lemma reducePending_init_non_empty R :
  1 ≤ R → foldl (λ m i, <[i := true]> m) (∅ : gmap Z bool) (seqZ 0 R) ≠ ∅.
Proof.
  intros HR. eapply (lookup_Some_non_empty _ 0 true).
  rewrite lookup_reducePending_init. case_decide; [done|lia].
Qed.

Lemma len_non_empty {V} (m : gmap Z V) : m ≠ ∅ → len m ≠ 0.
Proof. intros Hne Hl. by apply Hne, len_0_empty. Qed.

Lemma Signalled_Done_empty_job R :
  1 ≤ R → Signalled.Done (Signalled.MakeCoordinator [] R) = false.
Proof.
  intros HR. apply not_true_is_false. rewrite Done_true_iff.
  intros (_ & _ & H & _). by apply (reducePending_init_non_empty R).
Qed.

Lemma Polling_Done_empty_job R :
  1 ≤ R → Polling.Done (Polling.MakeCoordinator [] R) = false.
Proof.
  intros HR. apply not_true_is_false. unfold Polling.Done.
  rewrite !andb_true_iff, !bool_decide_eq_true.
  intros [[[[_ _] H] _] _]. simpl in H.
  by apply (len_non_empty _ (reducePending_init_non_empty R HR)).
Qed.


Lemma Signalled_empty_job_loop R p :
  1 ≤ R →
  Signalled.step_goroutine p (Signalled.MakeCoordinator [] R) Signalled.GetTask_loop
  = Some (Signalled.MakeCoordinator [] R, Signalled.GetTask_tryMap, []).
Proof. intros HR. cbn [Signalled.step_goroutine]. rewrite Signalled_Done_empty_job by done. done. Qed.

Lemma Signalled_empty_job_tryMap R p :
  Signalled.step_goroutine p (Signalled.MakeCoordinator [] R) Signalled.GetTask_tryMap
  = Some (Signalled.MakeCoordinator [] R, Signalled.GetTask_tryReduce, []).
Proof. done. Qed.

Lemma Signalled_empty_job_tryReduce R y :
  Signalled.step_goroutine y (Signalled.MakeCoordinator [] R) Signalled.GetTask_tryReduce
  = if decide (0 ≤ y < R)
    then Some (Signalled.set_reducePending
                 (delete y (Signalled.reducePending (Signalled.MakeCoordinator [] R)))
                 (Signalled.set_reduceInProgress {[y := true]}
                    (Signalled.MakeCoordinator [] R)),
               Signalled.GetTask_return (mkTask "" y REDUCE),
               [Signalled.track_call (mkTask "" y REDUCE)])
    else if decide (1 ≤ R) then None
    else Some (Signalled.MakeCoordinator [] R, Signalled.GetTask_waitReduce, []).
Proof.
  cbn [Signalled.step_goroutine Signalled.mu Signalled.MakeCoordinator].
  unfold Signalled.tryReduce. cbn [Signalled.reducePending Signalled.MakeCoordinator].
  rewrite lookup_reducePending_init.
  case_decide.
  - done.
  - case_decide.
    + rewrite bool_decide_eq_false_2; [done|]. by apply reducePending_init_non_empty.
    + rewrite bool_decide_eq_true_2; [done|]. by rewrite seqZ_nil by lia.
Qed.

Lemma Signalled_exec_head p c g gs :
  Signalled.exec (Run 0 p) (Signalled.mkConfig c (g :: gs))
  = '(c', g', sp) ← Signalled.step_goroutine p c g;
    Some (Signalled.mkConfig c' (g' :: gs ++ sp)).
Proof. done. Qed.

Ltac next_event Hsolo Hrun es p :=
  destruct es as [|? es];
  [ | apply Forall_cons in Hsolo as [[p ->] Hsolo];
      cbn [Signalled.run] in Hrun; rewrite Signalled_exec_head in Hrun ].

Lemma Signalled_first_GetTask_empty_job R es s' reply :
  1 ≤ R →
  Forall (λ e, ∃ p, e = Run 0 p) es →
  Signalled.run (Arrive ReqGetTask :: es) (Signalled.init [] R) = Some s' →
  Signalled.goroutines s' !! 0%nat = Some (Signalled.GetTask_return reply) →
  Task_TaskType reply = REDUCE ∧ 0 ≤ TaskNum reply < R ∧
  Signalled.reduceInProgress (Signalled.coord s') !! TaskNum reply = Some true.
Proof.
  intros HR Hsolo Hrun Hret.
  change (Signalled.run es (Signalled.mkConfig (Signalled.MakeCoordinator [] R)
                              [Signalled.GetTask_loop]) = Some s') in Hrun.
  next_event Hsolo Hrun es p1; [by simplify_eq/=|].
  rewrite Signalled_empty_job_loop in Hrun by done. cbn [mbind option_bind app] in Hrun.
  next_event Hsolo Hrun es p2; [by simplify_eq/=|].
  rewrite Signalled_empty_job_tryMap in Hrun. cbn [mbind option_bind app] in Hrun.
  next_event Hsolo Hrun es y; [by simplify_eq/=|].
  rewrite Signalled_empty_job_tryReduce in Hrun.
  case_decide as Hy; [|by rewrite decide_True in Hrun by done].
  cbn [mbind option_bind app] in Hrun.
  next_event Hsolo Hrun es p4.
  - simplify_eq/=. split; [done|]. split; [done|]. apply lookup_singleton_eq.
  - done.
Qed.

Lemma Signalled_first_GetTask_empty_job_returns R y p1 p2 :
  1 ≤ R → 0 ≤ y < R →
  ∃ s', Signalled.run [Arrive ReqGetTask; Run 0 p1; Run 0 p2; Run 0 y]
          (Signalled.init [] R) = Some s' ∧
        Signalled.goroutines s' !! 0%nat
          = Some (Signalled.GetTask_return (mkTask "" y REDUCE)).
Proof.
  intros HR Hy.
  change (Signalled.run (Arrive ReqGetTask :: ?es) (Signalled.init [] R))
    with (Signalled.run es (Signalled.mkConfig (Signalled.MakeCoordinator [] R)
                              [Signalled.GetTask_loop])).
  cbn [Signalled.run]. rewrite Signalled_exec_head, Signalled_empty_job_loop by done.
  cbn [mbind option_bind app].
  rewrite Signalled_exec_head, Signalled_empty_job_tryMap.
  cbn [mbind option_bind app].
  rewrite Signalled_exec_head, Signalled_empty_job_tryReduce, decide_True by done.
  cbn [mbind option_bind app]. eexists. split; done.
Qed.

Lemma Polling_empty_job_waitMaps R p :
  Polling.step_goroutine p (Polling.MakeCoordinator [] R) Polling.GetTask_waitMaps
  = Some (Polling.MakeCoordinator [] R, Polling.GetTask_checkDone, []).
Proof. done. Qed.

Lemma Polling_empty_job_checkDone R p :
  1 ≤ R →
  Polling.step_goroutine p (Polling.MakeCoordinator [] R) Polling.GetTask_checkDone
  = Some (Polling.MakeCoordinator [] R, Polling.GetTask_tryMap, []).
Proof.
  intros HR. cbn [Polling.step_goroutine].
  by rewrite Polling_Done_empty_job by done.
Qed.

Lemma Polling_empty_job_tryMap R p :
  Polling.step_goroutine p (Polling.MakeCoordinator [] R) Polling.GetTask_tryMap
  = Some (Polling.MakeCoordinator [] R, Polling.GetTask_waitReduces, []).
Proof. done. Qed.

Lemma Polling_empty_job_waitReduces R p :
  1 ≤ R →
  Polling.step_goroutine p (Polling.MakeCoordinator [] R) Polling.GetTask_waitReduces
  = Some (Polling.MakeCoordinator [] R, Polling.GetTask_tryReduce, []).
Proof.
  intros HR. cbn [Polling.step_goroutine Polling.reducePending Polling.MakeCoordinator].
  rewrite (bool_decide_eq_false_2 (len _ = 0)); [done|].
  by apply len_non_empty, reducePending_init_non_empty.
Qed.

Lemma Polling_empty_job_tryReduce R y :
  1 ≤ R →
  Polling.step_goroutine y (Polling.MakeCoordinator [] R) Polling.GetTask_tryReduce
  = if decide (0 ≤ y < R)
    then Some (Polling.set_reducePending
                 (delete y (Polling.reducePending (Polling.MakeCoordinator [] R)))
                 (Polling.set_reduceInProgress {[y := true]}
                    (Polling.MakeCoordinator [] R)),
               Polling.GetTask_return (mkTask "" y REDUCE),
               [Polling.track_call (mkTask "" y REDUCE)])
    else None.
Proof.
  intros HR.
  cbn [Polling.step_goroutine Polling.mu Polling.MakeCoordinator].
  unfold Polling.tryReduce. cbn [Polling.reducePending Polling.MakeCoordinator].
  rewrite lookup_reducePending_init.
  case_decide; [done|].
  rewrite bool_decide_eq_false_2; [done|]. by apply reducePending_init_non_empty.
Qed.

Lemma Polling_exec_head p c g gs :
  Polling.exec (Run 0 p) (Polling.mkConfig c (g :: gs))
  = '(c', g', sp) ← Polling.step_goroutine p c g;
    Some (Polling.mkConfig c' (g' :: gs ++ sp)).
Proof. done. Qed.

Ltac next_event_polling Hsolo Hrun es p :=
  destruct es as [|? es];
  [ | apply Forall_cons in Hsolo as [[p ->] Hsolo];
      cbn [Polling.run] in Hrun; rewrite Polling_exec_head in Hrun ].

Lemma Polling_first_GetTask_empty_job R es s' reply :
  1 ≤ R →
  Forall (λ e, ∃ p, e = Run 0 p) es →
  Polling.run (Arrive ReqGetTask :: es) (Polling.init [] R) = Some s' →
  Polling.goroutines s' !! 0%nat = Some (Polling.GetTask_return reply) →
  Task_TaskType reply = REDUCE ∧ 0 ≤ TaskNum reply < R ∧
  Polling.reduceInProgress (Polling.coord s') !! TaskNum reply = Some true.
Proof.
  intros HR Hsolo Hrun Hret.
  change (Polling.run es (Polling.mkConfig (Polling.MakeCoordinator [] R)
                            [Polling.GetTask_waitMaps]) = Some s') in Hrun.
  next_event_polling Hsolo Hrun es p1; [by simplify_eq/=|].
  rewrite Polling_empty_job_waitMaps in Hrun. cbn [mbind option_bind app] in Hrun.
  next_event_polling Hsolo Hrun es p2; [by simplify_eq/=|].
  rewrite Polling_empty_job_checkDone in Hrun by done. cbn [mbind option_bind app] in Hrun.
  next_event_polling Hsolo Hrun es p3; [by simplify_eq/=|].
  rewrite Polling_empty_job_tryMap in Hrun. cbn [mbind option_bind app] in Hrun.
  next_event_polling Hsolo Hrun es p4; [by simplify_eq/=|].
  rewrite Polling_empty_job_waitReduces in Hrun by done. cbn [mbind option_bind app] in Hrun.
  next_event_polling Hsolo Hrun es y; [by simplify_eq/=|].
  rewrite Polling_empty_job_tryReduce in Hrun by done.
  case_decide as Hy; [|done].
  cbn [mbind option_bind app] in Hrun.
  next_event_polling Hsolo Hrun es p6.
  - simplify_eq/=. split; [done|]. split; [done|]. apply lookup_singleton_eq.
  - done.
Qed.

Lemma Polling_first_GetTask_empty_job_returns R y p1 p2 p3 p4 :
  1 ≤ R → 0 ≤ y < R →
  ∃ s', Polling.run [Arrive ReqGetTask; Run 0 p1; Run 0 p2; Run 0 p3; Run 0 p4; Run 0 y]
          (Polling.init [] R) = Some s' ∧
        Polling.goroutines s' !! 0%nat
          = Some (Polling.GetTask_return (mkTask "" y REDUCE)).
Proof.
  intros HR Hy.
  change (Polling.run (Arrive ReqGetTask :: ?es) (Polling.init [] R))
    with (Polling.run es (Polling.mkConfig (Polling.MakeCoordinator [] R)
                            [Polling.GetTask_waitMaps])).
  cbn [Polling.run]. rewrite Polling_exec_head, Polling_empty_job_waitMaps.
  cbn [mbind option_bind app].
  rewrite Polling_exec_head, Polling_empty_job_checkDone by done.
  cbn [mbind option_bind app].
  rewrite Polling_exec_head, Polling_empty_job_tryMap.
  cbn [mbind option_bind app].
  rewrite Polling_exec_head, Polling_empty_job_waitReduces by done.
  cbn [mbind option_bind app].
  rewrite Polling_exec_head, Polling_empty_job_tryReduce, decide_True by done.
  cbn [mbind option_bind app]. eexists. split; done.
Qed.

(** C8 (empty job boundary), as the code has it: on a job with no input
    file and [R >= 1] reduce tasks, the first [GetTask] call, run with no
    other request in flight, returns a REDUCE task whose number is below [R]
    (any of them can be the one the range yields) and puts it in
    [reduceInProgress]; it does not return EXIT.  Both coordinators. *)
Theorem C8_first_GetTask_on_empty_job_is_REDUCE (R : Z) :
  1 ≤ R →
  (* signalling coordinator *)
  (∀ y p1 p2, 0 ≤ y < R →
     ∃ s', Signalled.run [Arrive ReqGetTask; Run 0 p1; Run 0 p2; Run 0 y]
             (Signalled.init [] R) = Some s' ∧
           Signalled.goroutines s' !! 0%nat
             = Some (Signalled.GetTask_return (mkTask "" y REDUCE))) ∧
  (∀ es s' reply,
     Forall (λ e, ∃ p, e = Run 0 p) es →
     Signalled.run (Arrive ReqGetTask :: es) (Signalled.init [] R) = Some s' →
     Signalled.goroutines s' !! 0%nat = Some (Signalled.GetTask_return reply) →
     Task_TaskType reply = REDUCE ∧ 0 ≤ TaskNum reply < R ∧
     Signalled.reduceInProgress (Signalled.coord s') !! TaskNum reply = Some true) ∧
  (* polling coordinator *)
  (∀ y p1 p2 p3 p4, 0 ≤ y < R →
     ∃ s', Polling.run [Arrive ReqGetTask; Run 0 p1; Run 0 p2; Run 0 p3; Run 0 p4; Run 0 y]
             (Polling.init [] R) = Some s' ∧
           Polling.goroutines s' !! 0%nat
             = Some (Polling.GetTask_return (mkTask "" y REDUCE))) ∧
  (∀ es s' reply,
     Forall (λ e, ∃ p, e = Run 0 p) es →
     Polling.run (Arrive ReqGetTask :: es) (Polling.init [] R) = Some s' →
     Polling.goroutines s' !! 0%nat = Some (Polling.GetTask_return reply) →
     Task_TaskType reply = REDUCE ∧ 0 ≤ TaskNum reply < R ∧
     Polling.reduceInProgress (Polling.coord s') !! TaskNum reply = Some true).
Proof.
  intros HR. repeat apply conj.
  - intros. by apply Signalled_first_GetTask_empty_job_returns.
  - intros. by eapply Signalled_first_GetTask_empty_job.
  - intros. by apply Polling_first_GetTask_empty_job_returns.
  - intros. by eapply Polling_first_GetTask_empty_job.
Qed.

(** C8 at [R = 2], reduce task 1. *)
Lemma C8_witness :
  1 ≤ 2 ∧
  ∃ s', Signalled.run [Arrive ReqGetTask; Run 0 0; Run 0 0; Run 0 1]
          (Signalled.init [] 2) = Some s' ∧
        Signalled.goroutines s' !! 0%nat
          = Some (Signalled.GetTask_return (mkTask "" 1 REDUCE)).
Proof.
  split; [lia|].
  apply (proj1 (C8_first_GetTask_on_empty_job_is_REDUCE 2 ltac:(lia)) 1 0 0).
  lia.
Defined.

(** C8 as the claim states it fails at [R = 1]: the first [GetTask] returns
    the reduce task 0, in both coordinators. *)
Lemma C8_counterexample :
  ¬ (∀ s' reply,
       Signalled.run [Arrive ReqGetTask; Run 0 0; Run 0 0; Run 0 0]
         (Signalled.init [] 1) = Some s' →
       Signalled.goroutines s' !! 0%nat = Some (Signalled.GetTask_return reply) →
       Task_TaskType reply = EXIT) ∧
  ¬ (∀ s' reply,
       Polling.run [Arrive ReqGetTask; Run 0 0; Run 0 0; Run 0 0; Run 0 0; Run 0 0]
         (Polling.init [] 1) = Some s' →
       Polling.goroutines s' !! 0%nat = Some (Polling.GetTask_return reply) →
       Task_TaskType reply = EXIT).
Proof.
  split.
  - intros H.
    destruct (Signalled.run [Arrive ReqGetTask; Run 0 0; Run 0 0; Run 0 0]
                (Signalled.init [] 1)) as [s'|] eqn:Hs; [|by vm_compute in Hs].
    specialize (H s' (mkTask "" 0 REDUCE) eq_refl).
    vm_compute in Hs. simplify_eq. by specialize (H eq_refl).
  - intros H.
    destruct (Polling.run [Arrive ReqGetTask; Run 0 0; Run 0 0; Run 0 0; Run 0 0; Run 0 0]
                (Polling.init [] 1)) as [s'|] eqn:Hs; [|by vm_compute in Hs].
    specialize (H s' (mkTask "" 0 REDUCE) eq_refl).
    vm_compute in Hs. simplify_eq. by specialize (H eq_refl).
Qed.

(** ** Completion reports for tasks that are not in progress *)

(** The polling coordinator rejects with no state change at all. *)
Lemma Polling_CompleteMapTask_rejects pick c args :
  Polling.mapInProgress c !! TaskNum args = None →
  Polling.step_goroutine pick c (Polling.CompleteMapTask_call args)
  = Some (c, Polling.CompleteMapTask_return
               (Some (ErrMapNotInProgress (TaskNum args))), []).
Proof. intros H. simpl. by rewrite H. Qed.

(** The signalling coordinator rejects and keeps the mutex. *)
Lemma Signalled_CompleteMapTask_rejects pick c args :
  Signalled.mu c = false →
  Signalled.mapInProgress c !! TaskNum args = None →
  Signalled.step_goroutine pick c (Signalled.CompleteMapTask_call args)
  = Some (Signalled.set_mu true c,
          Signalled.CompleteMapTask_return
            (Some (ErrMapNotInProgress (TaskNum args))), []).
Proof.
  intros Hmu H. simpl. rewrite Hmu. unfold Signalled.CompleteMapTask.
  by rewrite H.
Qed.

(** Every transition that takes the mutex is blocked while it is held. *)
Lemma Signalled_blocked_while_locked pick c g :
  Signalled.mu c = true →
  g ∈ [Signalled.GetTask_loop; Signalled.GetTask_tryMap;
       Signalled.GetTask_tryReduce; Signalled.CompleteReduceTask_checkDone] ∨
  (∃ args, g = Signalled.CompleteMapTask_call args) ∨
  (∃ args, g = Signalled.CompleteReduceTask_call args) ∨
  (∃ task, g = Signalled.track_call task ∧ Task_TaskType task ≠ EXIT) →
  Signalled.step_goroutine pick c g = None.
Proof.
  intros Hmu [Hg|[[a ->]|[[a ->]|[t [-> Ht]]]]]; simpl; rewrite ?Hmu; try done.
  - repeat (apply elem_of_cons in Hg as [->|Hg]); simpl; rewrite ?Hmu; try done.
    by apply elem_of_nil in Hg.
  - by destruct (Task_TaskType t).
Qed.

(** No transition releases a mutex that a returned handler left held. *)
Lemma Signalled_mutex_stays_held s s' :
  Signalled.step s s' →
  Signalled.mu (Signalled.coord s) = true →
  Signalled.mu (Signalled.coord s') = true.
Proof.
  intros [e He] Hmu.
  destruct e as [r|tid pick]; simpl in He; [by simplify_eq/=|].
  destruct (Signalled.goroutines s !! tid) as [g|] eqn:Hg; simplify_eq/=.
  destruct (Signalled.step_goroutine pick (Signalled.coord s) g)
    as [[[c g'] sp]|] eqn:Hs; simplify_eq/=.
  destruct g; simpl in Hs; rewrite ?Hmu in Hs;
    repeat case_match; simplify_eq/=; done.
Qed.

(** C10 (out-of-range completion reports), evaluated on the signalling
    coordinator at [CompleteMapTask] with task number 7 on the fresh job
    [MakeCoordinator ["f"] 1]: the call is rejected with the not-in-progress
    error and no bucket changes, but the handler returns between
    [c.mu.Lock()] and [c.mu.Unlock()]: the coordinator's mutex stays held, so
    its state has changed, and from then on no [GetTask], completion report,
    watcher or [Done] can run ([Signalled_mutex_stays_held]).  The polling
    coordinator rejects with no state change
    ([Polling_CompleteMapTask_rejects]). *)
Theorem C10_signalled_rejection_keeps_mutex :
  let c := Signalled.MakeCoordinator ["f"%string] 1 in
  ∃ c',
    Signalled.step_goroutine 0 c (Signalled.CompleteMapTask_call (mkTask "" 7 MAP))
      = Some (c', Signalled.CompleteMapTask_return (Some (ErrMapNotInProgress 7)), []) ∧
    SignalledSpec.buckets c' = SignalledSpec.buckets c ∧
    Signalled.mu c = false ∧ Signalled.mu c' = true ∧
    (∀ pick, Signalled.step_goroutine pick c' Signalled.GetTask_loop = None) ∧
    (∀ pick task, Task_TaskType task ≠ EXIT →
       Signalled.step_goroutine pick c' (Signalled.track_call task) = None) ∧
    (∀ pick args,
       Signalled.step_goroutine pick c' (Signalled.CompleteMapTask_call args) = None).
Proof.
  intros c. exists (Signalled.set_mu true c).
  split; [by apply Signalled_CompleteMapTask_rejects|].
  split; [done|]. split; [done|]. split; [done|].
  split; [|split]; intros; apply Signalled_blocked_while_locked; try done.
  - left. set_solver.
  - right; right; right. by eexists.
  - right; left. by eexists.
Qed.

(** ** The worker: partitioning of map output *)
Section MapPartition.
Import Worker WorkerSpec.

Lemma ihash_nonneg key : 0 ≤ ihash key.
Proof. unfold ihash. apply Z.land_nonneg. right. lia. Qed.

Lemma ihash_bound key : ihash key < 2 ^ 31.
Proof.
  unfold ihash.
  change 2147483647 with (Z.ones 31). rewrite Z.land_ones by lia.
  apply Z.mod_pos_bound. lia.
Qed.

Lemma go_rem_ihash key R :
  1 ≤ R → go_rem (ihash key) R = Some (ihash key mod R).
Proof.
  intros HR. unfold go_rem. rewrite bool_decide_eq_false_2 by lia.
  f_equal. apply Z.rem_mod_nonneg; [apply ihash_nonneg|lia].
Qed.

Lemma partition_lookup R kva m :
  1 ≤ R →
  ∃ m', partition R kva m = Some m' ∧
        ∀ y, m' !! y = extendBucket (m !! y) (filter (λ kv, bucketOf R kv = y) kva).
Proof.
  intros HR. revert m. induction kva as [|kv kva IH]; intros m.
  - exists m. split; [done|]. intros y. simpl. destruct (m !! y); simpl; [|done].
    by rewrite app_nil_r.
  - cbn [partition]. rewrite go_rem_ihash by done. cbn [mbind option_bind].
    destruct (IH (<[ihash (Key kv) mod R := default [] (m !! (ihash (Key kv) mod R)) ++ [kv]]> m))
      as (m' & Hm' & Hl).
    exists m'. split; [done|]. intros y. rewrite Hl.
    destruct (decide (ihash (Key kv) mod R = y)) as [<-|Hne].
    + rewrite filter_cons_True by done. rewrite lookup_insert_eq. simpl.
      destruct (m !! (ihash (Key kv) mod R)); simpl; by rewrite <- ?app_assoc.
    + rewrite filter_cons_False by done. by rewrite lookup_insert_ne.
Qed.

Global Instance intermediateFilename_inj taskNum :
  Inj (=) (=) (intermediateFilename taskNum).
Proof.
  intros y1 y2 H. unfold intermediateFilename in H.
  repeat apply (inj (String.app _)) in H.
  by apply (inj pretty) in H.
Qed.

Lemma intermediateFiles_lookup taskNum (contents : gmap Z (list KeyValue)) :
  (∀ y, intermediateFiles taskNum contents !! intermediateFilename taskNum y
        = contents !! y) ∧
  (∀ name, is_Some (intermediateFiles taskNum contents !! name) →
           ∃ y, is_Some (contents !! y) ∧ name = intermediateFilename taskNum y).
Proof.
  unfold intermediateFiles.
  apply (map_fold_weak_ind (λ files (m : gmap Z (list KeyValue)),
    (∀ y, files !! intermediateFilename taskNum y = m !! y) ∧
    (∀ name, is_Some (files !! name) →
             ∃ y, is_Some (m !! y) ∧ name = intermediateFilename taskNum y))).
  - split.
    + intros y. by rewrite !lookup_empty.
    + intros name [? H]. by rewrite lookup_empty in H.
  - intros i l m files Hi [IH1 IH2]. split.
    + intros y. destruct (decide (i = y)) as [->|Hne].
      * by rewrite !lookup_insert_eq.
      * rewrite !lookup_insert_ne; [done..|]. by intros ?%(inj _).
    + intros name Hn.
      destruct (decide (intermediateFilename taskNum i = name)) as [<-|Hne].
      * exists i. by rewrite lookup_insert_eq.
      * rewrite lookup_insert_ne in Hn by done.
        destruct (IH2 name Hn) as (y & Hy & ->). exists y. split; [|done].
        rewrite lookup_insert_ne; [done|]. by intros ->.
Qed.


End MapPartition.



(** ** The worker: keys in order and the reduce output *)

Lemma Ascii_compare_refl a : Ascii.compare a a = Eq.
Proof. unfold Ascii.compare. apply N.compare_refl. Qed.

Lemma String_compare_refl s : String.compare s s = Eq.
Proof. induction s as [|a s IH]; simpl; [done|]. by rewrite Ascii_compare_refl. Qed.

Lemma Ascii_compare_lt_trans a b c :
  Ascii.compare a b = Lt → Ascii.compare b c = Lt → Ascii.compare a c = Lt.
Proof. unfold Ascii.compare. rewrite !N.compare_lt_iff. lia. Qed.

Lemma String_compare_lt_trans s1 s2 s3 :
  String.compare s1 s2 = Lt → String.compare s2 s3 = Lt → String.compare s1 s3 = Lt.
Proof.
  revert s2 s3. induction s1 as [|a s1 IH]; intros [|b s2] [|c s3]; simpl; try done.
  destruct (Ascii.compare a b) eqn:Hab; try done;
    destruct (Ascii.compare b c) eqn:Hbc; try done; intros H1 H2.
  - apply Ascii.compare_eq_iff in Hab, Hbc. subst.
    rewrite Ascii_compare_refl. by eapply IH.
  - apply Ascii.compare_eq_iff in Hab. subst. by rewrite Hbc.
  - apply Ascii.compare_eq_iff in Hbc. subst. by rewrite Hab.
  - by rewrite (Ascii_compare_lt_trans a b c).
Qed.

Lemma keyLt_irrefl a : ¬ WorkerSpec.keyLt a a.
Proof. unfold WorkerSpec.keyLt, String.ltb. by rewrite String_compare_refl. Qed.

Lemma keyLt_trans a b c : WorkerSpec.keyLt a b → WorkerSpec.keyLt b c → WorkerSpec.keyLt a c.
Proof.
  unfold WorkerSpec.keyLt, String.ltb. intros H1 H2.
  destruct (String.compare a b) eqn:Hab; try done.
  destruct (String.compare b c) eqn:Hbc; try done.
  by rewrite (String_compare_lt_trans a b c).
Qed.

Lemma keyLt_total a b : String.ltb b a = false → a ≠ b → WorkerSpec.keyLt a b.
Proof.
  unfold WorkerSpec.keyLt, String.ltb. intros H Hne.
  rewrite String.compare_antisym in H.
  destruct (String.compare a b) eqn:Hab; try done.
  by apply String.compare_eq_iff in Hab.
Qed.

Lemma keyLt_le_trans a b c : WorkerSpec.keyLt a b → String.ltb c b = false → WorkerSpec.keyLt a c.
Proof.
  intros Hab Hcb. destruct (decide (b = c)) as [->|Hne]; [done|].
  eapply keyLt_trans; [done|]. by apply keyLt_total.
Qed.

Section ReduceOutput.
Import Worker WorkerSpec.
Variable reducef : string → list string → string.

Lemma reduceLoop_unfold kva i :
  reduceLoop reducef kva i
  = match kva !! i with
    | Some kvi =>
        outputLine (Key kvi)
          (reducef (Key kvi)
             (Value <$> take (scanRun (Key kvi) (drop (S i) kva) (S i) - i)
                             (drop i kva)))
        :: reduceLoop reducef kva (scanRun (Key kvi) (drop (S i) kva) (S i))
    | None => []
    end.
Proof.
  simp reduceLoop. generalize (inspect (kva !! i)). intros [o Ho].
  destruct o; simp reduceLoop; rewrite Ho; simp reduceLoop; done.
Qed.

Lemma filter_all {A} (P : A → Prop) `{!∀ x, Decision (P x)} (l : list A) :
  Forall P l → filter P l = l.
Proof.
  induction 1 as [|x l Hx Hl IH]; [done|].
  by rewrite filter_cons_True, IH.
Qed.

Lemma filter_none {A} (P : A → Prop) `{!∀ x, Decision (P x)} (l : list A) :
  Forall (λ x, ¬ P x) l → filter P l = [].
Proof.
  induction 1 as [|x l Hx Hl IH]; [done|].
  by rewrite filter_cons_False, IH.
Qed.

Lemma scanRun_spec key rest j :
  ∃ n, scanRun key rest j = (j + n)%nat ∧ (n ≤ length rest)%nat ∧
       Forall (λ kv, Key kv = key) (take n rest) ∧
       (∀ kv, rest !! n = Some kv → Key kv ≠ key).
Proof.
  revert j. induction rest as [|kv rest IH]; intros j; simpl.
  - exists 0%nat. repeat split; [lia|lia|done|done].
  - destruct (String.eqb_spec (Key kv) key) as [Heq|Hne].
    + destruct (IH (S j)) as (n & Hn & Hle & Hall & Hstop).
      exists (S n). repeat split; [lia|lia| |done].
      simpl. by constructor.
    + exists 0%nat. repeat split; [lia|lia|done|].
      intros kv' [= <-]. done.
Qed.

Lemma sortedByKey_drop kva i : sortedByKey kva → sortedByKey (drop i kva).
Proof.
  intros H. rewrite <- (take_drop i kva) in H.
  by apply StronglySorted_app_1_r in H.
Qed.

(** In a slice ordered by key, everything from the first element whose key
    differs from that of the head has a greater key than the head. *)
Lemma sortedByKey_after_run kvi rest n :
  sortedByKey (kvi :: rest) →
  (∀ kv, rest !! n = Some kv → Key kv ≠ Key kvi) →
  Forall (λ kv, WorkerSpec.keyLt (Key kvi) (Key kv)) (drop n rest).
Proof.
  intros Hs Hstop. apply StronglySorted_inv in Hs as [Hrest Hhd].
  destruct (drop n rest) as [|e0 tl] eqn:Hd; [done|].
  assert (He0 : rest !! n = Some e0).
  { rewrite <- (Nat.add_0_r n), <- lookup_drop, Hd. done. }
  assert (Hlt0 : WorkerSpec.keyLt (Key kvi) (Key e0)).
  { apply keyLt_total.
    - rewrite Forall_forall in Hhd. apply Hhd. by eapply list_elem_of_lookup_2.
    - intros Heq. by eapply Hstop. }
  constructor; [done|].
  assert (Hsd : sortedByKey (e0 :: tl)).
  { rewrite <- Hd. by apply sortedByKey_drop. }
  apply StronglySorted_inv in Hsd as [_ Htl].
  eapply Forall_impl; [exact Htl|]. intros e He. simpl in He.
  by eapply keyLt_le_trans.
Qed.

Lemma reduceLoop_sorted n kva i :
  (length kva - i ≤ n)%nat →
  sortedByKey (drop i kva) →
  ∃ keys,
    StronglySorted WorkerSpec.keyLt keys ∧
    (∀ k, k ∈ keys ↔ k ∈ Key <$> drop i kva) ∧
    reduceLoop reducef kva i
    = (λ k, outputLine k (reducef k (valuesOf k (drop i kva)))) <$> keys.
Proof.
  revert i. induction n as [|n IH]; intros i Hn Hs.
  - exists []. rewrite reduceLoop_unfold.
    rewrite (lookup_ge_None_2 kva i) by lia. rewrite drop_ge by lia.
    repeat split; try done; constructor.
  - rewrite reduceLoop_unfold.
    destruct (kva !! i) as [kvi|] eqn:Hi; cycle 1.
    { exists []. apply lookup_ge_None in Hi. rewrite drop_ge by lia.
      repeat split; try done; constructor. }
    pose proof (lookup_lt_Some _ _ _ Hi) as Hlt.
    rewrite (drop_S _ _ _ Hi) in Hs |- *.
    set (rest := drop (S i) kva) in *.
    destruct (scanRun_spec (Key kvi) rest (S i)) as (m & Hm & Hle & Hrun & Hstop).
    rewrite Hm.
    pose proof (sortedByKey_after_run kvi rest m Hs Hstop) as Hafter.
    assert (Hd : drop (S i + m) kva = drop m rest).
    { unfold rest. by rewrite drop_drop. }
    destruct (IH (S i + m)%nat) as (keys & Hkeys & Hmem & Hloop).
    { lia. }
    { rewrite Hd. apply sortedByKey_drop.
      by apply StronglySorted_inv in Hs as [? _]. }
    rewrite Hd in Hmem, Hloop.
    assert (Hgt : Forall (WorkerSpec.keyLt (Key kvi)) keys).
    { apply Forall_forall. intros k Hk. apply Hmem in Hk.
      apply list_elem_of_fmap in Hk as (e & -> & He).
      rewrite Forall_forall in Hafter. by apply Hafter. }
    assert (Hsplit : rest = take m rest ++ drop m rest) by (by rewrite take_drop).
    exists (Key kvi :: keys). split; [by constructor|]. split.
    + intros k. rewrite elem_of_cons, Hmem, fmap_cons, elem_of_cons.
      split; [intros [?|?]; [by left|right]|intros [?|H]; [by left|]].
      * rewrite Hsplit, fmap_app, elem_of_app. by right.
      * rewrite Hsplit, fmap_app, elem_of_app in H. destruct H as [H|H]; [|by right].
        left. apply list_elem_of_fmap in H as (e & -> & He).
        rewrite Forall_forall in Hrun. by apply Hrun.
    + rewrite fmap_cons. f_equal.
      * f_equal. f_equal. unfold valuesOf.
        rewrite filter_cons_True by done.
        replace (S i + m - i)%nat with (S m) by lia. rewrite firstn_cons.
        do 2 f_equal.
        rewrite Hsplit at 2. rewrite filter_app.
        rewrite (filter_all _ (take m rest)) by done.
        rewrite (filter_none _ (drop m rest)); [by rewrite app_nil_r|].
        eapply Forall_impl; [exact Hafter|]. intros e He Heq. simpl in *.
        rewrite Heq in He. by apply keyLt_irrefl in He.
      * rewrite Hloop. apply Forall_fmap_ext, Forall_forall. intros k Hk.
        do 2 f_equal. unfold valuesOf. f_equal.
        assert (Hne : Key kvi ≠ k).
        { intros <-. rewrite Forall_forall in Hgt.
          by eapply keyLt_irrefl, Hgt. }
        rewrite filter_cons_False by done.
        rewrite Hsplit at 2. rewrite filter_app.
        rewrite (filter_none _ (take m rest)); [done|].
        eapply Forall_impl; [exact Hrun|]. intros e He. simpl in *. congruence.
Qed.

(** C7 (reduce output).  Let [sorted] be what [sort.Sort(ByKey(kva))] leaves
    of the decoded records [kva] of reduce task [taskNum].  The file the
    REDUCE case puts in place is named [mr-out-taskNum], and its contents are
    the concatenation, over the distinct keys of [kva] in strictly ascending
    bytewise order, of one line per key: the key, a space, the result of the
    reduce callback on the key and the values of all records with that key
    (in the order the sort left them, a permutation of their order in [kva]),
    and a newline; nothing else is written. *)
Theorem C7_reduce_output (taskNum : Z) (kva sorted : list KeyValue) :
  sort_Sort kva sorted →
  ∃ keys,
    StronglySorted WorkerSpec.keyLt keys ∧
    (∀ k, k ∈ keys ↔ ∃ v, mkKeyValue k v ∈ kva) ∧
    WorkerFiles.reduceTask reducef taskNum sorted
    = ("mr-out-" +:+ pretty taskNum,
       String.concat ""
         ((λ k, k +:+ " " +:+ reducef k (valuesOf k sorted)
                  +:+ String "010" EmptyString) <$> keys)) ∧
    (∀ k, valuesOf k sorted ≡ₚ valuesOf k kva).
Proof.
  intros [Hperm Hsorted].
  destruct (reduceLoop_sorted (length sorted) sorted 0) as (keys & Hk & Hmem & Hloop).
  { lia. }
  { done. }
  rewrite drop_0 in Hmem, Hloop.
  exists keys. split; [done|]. split; [|split].
  - intros k. rewrite Hmem, <- Hperm, list_elem_of_fmap. split.
    + intros ([k' v] & -> & Hin). by exists v.
    + intros [v Hin]. by exists (mkKeyValue k v).
  - unfold WorkerFiles.reduceTask, WorkerFiles.oname, reduceOutput.
    by rewrite Hloop.
  - intros k. unfold valuesOf. by rewrite Hperm.
Qed.

End ReduceOutput.

(** C7 for reduce task 3 with a counting reduce callback on the records
    [b, a, a]: the file [mr-out-3] holds the two lines [a 2] and [b 1]. *)
Lemma C7_witness :
  let kva := [Worker.mkKeyValue "b" "x"; Worker.mkKeyValue "a" "y";
              Worker.mkKeyValue "a" "z"] in
  let sorted := [Worker.mkKeyValue "a" "y"; Worker.mkKeyValue "a" "z";
                 Worker.mkKeyValue "b" "x"] in
  let reducef := λ (_ : string) (values : list string), pretty (length values) in
  Worker.sort_Sort kva sorted ∧
  (∃ keys,
     (∀ k, k ∈ keys ↔ ∃ v, Worker.mkKeyValue k v ∈ kva) ∧
     WorkerFiles.reduceTask reducef 3 sorted
     = ("mr-out-" +:+ pretty 3,
        String.concat ""
          ((λ k, k +:+ " " +:+ pretty (length (WorkerSpec.valuesOf k sorted))
                   +:+ String "010" EmptyString) <$> keys))) ∧
  WorkerFiles.reduceTask reducef 3 sorted
  = ("mr-out-3"%string,
     "a 2" +:+ String "010" ("b 1" +:+ String "010" EmptyString)).
Proof.
  intros kva sorted reducef.
  assert (Hsort : Worker.sort_Sort kva sorted).
  { split.
    - unfold kva, sorted.
      etrans; [apply Permutation_swap|]. apply Permutation_skip, Permutation_swap.
    - unfold sorted. repeat constructor. }
  split; [exact Hsort|].
  destruct (C7_reduce_output reducef 3 kva sorted Hsort)
    as (keys & _ & Hmem & Hout & _).
  split; [exists keys; split; [exact Hmem|exact Hout]|].
  vm_compute. reflexivity.
Defined.

(** ** More on the coordinators *)

Lemma Signalled_Done_absorbing s s' :
  Signalled.step s s' →
  Signalled.Done (Signalled.coord s) = true →
  SignalledSpec.buckets (Signalled.coord s') = SignalledSpec.buckets (Signalled.coord s) ∧
  Signalled.Done (Signalled.coord s') = true.
Proof.
  intros [e He] HD.
  destruct e as [r|tid pick]; simpl in He; [by simplify_eq/=|].
  destruct (Signalled.goroutines s !! tid) as [g|] eqn:Hg; simplify_eq/=.
  destruct (Signalled.step_goroutine pick (Signalled.coord s) g)
    as [[[c g'] sp]|] eqn:Hs; simplify_eq/=.
  pose proof HD as HD'. apply Done_true_iff in HD' as (Hmp & Hmi & Hrp & Hri & Hlen).
  destruct s as [c0 gs]; simpl in *.
  destruct g; simpl in Hs; unfold Signalled.tryMap, Signalled.tryReduce,
    Signalled.CompleteMapTask, Signalled.CompleteReduceTask, Signalled.track in Hs;
    rewrite ?Hmp, ?Hmi, ?Hrp, ?Hri, ?lookup_empty in Hs;
    repeat case_match; simplify_eq/=; try done.
Qed.

Section SignalledMoreInv.
Import Signalled SignalledMore.

Lemma SignalledMore_init files R : Inv (init files R).
Proof.
  split; simpl; try done.
  - intros y b H. rewrite lookup_foldl_insert_true, lookup_empty in H.
    destruct (decide (y ∈ seqZ 0 R)); by simplify_eq.
  - intros H. by apply elem_of_nil in H.
Qed.

Lemma SignalledMore_step s s' : Inv s → step s s' → Inv s'.
Proof.
  intros [Hdisj Htrue Hjd Hcl] Hstep.
  assert (Habs : Done (coord s) = true → Done (coord s') = true).
  { intros HD. by destruct (Signalled_Done_absorbing s s' Hstep HD). }
  destruct Hstep as [e He].
  destruct e as [r|tid pick]; simpl in He.
  { simplify_eq. split; simpl; try done.
    intros H. apply elem_of_app in H as [H|H]; [auto|].
    apply list_elem_of_singleton in H. by destruct r. }
  destruct (goroutines s !! tid) as [g|] eqn:Hg; simplify_eq/=.
  destruct (step_goroutine pick (coord s) g) as [[[c g'] sp]|] eqn:Hs;
    simplify_eq/=.
  assert (Hin : g ∈ goroutines s) by (by eapply list_elem_of_lookup_2).
  destruct s as [c0 gs]; simpl in *.
  split; simpl.
  - clear Habs Hjd Hcl Htrue.
    destruct g; simpl in Hs; unfold tryMap, tryReduce, CompleteMapTask,
      CompleteReduceTask, track, trySend in Hs;
      repeat case_match; simplify_eq/=; try done;
      repeat match goal with
      | H : @lookup _ _ (gmap _ _) _ _ _ = Some _ |- _ => apply (elem_of_dom_2 _ _ _) in H
      end;
      rewrite ?dom_insert_L, ?dom_delete_L; set_solver.
  - clear Habs Hjd Hcl Hdisj.
    destruct g; simpl in Hs; unfold tryMap, tryReduce, CompleteMapTask,
      CompleteReduceTask, track, trySend in Hs;
      repeat case_match; simplify_eq/=; try done.
    + intros y' b' Hl. apply lookup_delete_Some in Hl as [_ Hl]. eauto.
    + intros y' b' Hl. apply lookup_insert_Some in Hl as [[_ <-]|[_ Hl]]; eauto.
  - intros Hj. destruct (jobDone c0) eqn:Hj0; [by auto|].
    destruct g; simpl in Hs; unfold tryMap, tryReduce, CompleteMapTask,
      CompleteReduceTask, track, trySend in Hs;
      repeat case_match; simplify_eq/=; try congruence.
    apply Habs, Hcl. done.
  - intros Hmem. apply elem_of_insert_app in Hmem as [Hmem|[Hmem|Hmem]].
    + subst g'. destruct g; simpl in Hs; unfold tryMap, tryReduce, CompleteMapTask,
        CompleteReduceTask, track, trySend in Hs;
        repeat case_match; simplify_eq/=; done.
    + auto.
    + destruct g; simpl in Hs; unfold tryMap, tryReduce, CompleteMapTask,
        CompleteReduceTask, track, trySend in Hs;
        repeat case_match; simplify_eq/=;
        first [ by apply elem_of_nil in Hmem
              | by apply list_elem_of_singleton in Hmem ].
Qed.

Lemma SignalledMore_reachable files R s : reachable files R s → Inv s.
Proof.
  intros H.
  eapply (rtc_ind_r (λ s, Inv s)); [apply SignalledMore_init| |exact H].
  intros y z _ Hyz IH. by eapply SignalledMore_step.
Qed.

End SignalledMoreInv.

Section PollingMoreInv.
Import Polling PollingMore.

Lemma PollingMore_init files R : Inv R (init files R).
Proof.
  split; simpl; try done.
  - intros y b H. rewrite lookup_foldl_insert_true, lookup_empty in H.
    destruct (decide (y ∈ seqZ 0 R)); by simplify_eq.
  - intros y. rewrite dom_foldl_insert_true, !dom_empty_L.
    rewrite !elem_of_union, elem_of_list_to_set, elem_of_seqZ.
    intros [[[H|H]|H]|H]; try (by apply not_elem_of_empty in H). lia.
  - intros args H. by apply elem_of_nil in H.
  - intros task [H|H]; by apply elem_of_nil in H.
Qed.

Ltac polling_cases Hs :=
  simpl in Hs; unfold tryMap, tryReduce, deleteMap, moveReduce, repend,
    stillInProgress in Hs;
  repeat case_match; simplify_eq/=; decide_hyps.

Lemma PollingMore_step R s s' : Inv R s → step s s' → Inv R s'.
Proof.
  intros [HR Hmu Hmd Hrd Htrue Hrange Hargs Htrack] [e He].
  destruct e as [r|tid pick]; simpl in He.
  { simplify_eq. split; simpl; try done.
    - intros args H. apply elem_of_app in H as [H|H]; [auto|].
      apply list_elem_of_singleton in H. by destruct r.
    - intros task [H|H] Hty; apply elem_of_app in H as [H|H]; eauto;
        apply list_elem_of_singleton in H; by destruct r. }
  destruct (goroutines s !! tid) as [g|] eqn:Hg; simplify_eq/=.
  destruct (step_goroutine pick (coord s) g) as [[[c g'] sp]|] eqn:Hs;
    simplify_eq/=.
  assert (Hin : g ∈ goroutines s) by (by eapply list_elem_of_lookup_2).
  destruct s as [c0 gs]; simpl in *.
  split; simpl.
  - destruct g; polling_cases Hs; done.
  - destruct g; polling_cases Hs; done.
  - clear Hrd Htrue Hrange Hargs Htrack.
    destruct g; polling_cases Hs; try done;
      repeat match goal with
      | H : @lookup _ _ (gmap _ _) _ _ _ = Some _ |- _ => apply (elem_of_dom_2 _ _ _) in H
      end;
      rewrite ?dom_insert_L, ?dom_delete_L; set_solver.
  - clear Hmd Htrue Hrange Hargs Htrack.
    destruct g; polling_cases Hs; try done;
      repeat match goal with
      | H : @lookup _ _ (gmap _ _) _ _ _ = Some _ |- _ => apply (elem_of_dom_2 _ _ _) in H
      end;
      rewrite ?dom_insert_L, ?dom_delete_L; set_solver.
  - clear Hmd Hrd Hrange Hargs Htrack.
    destruct g; polling_cases Hs; try done.
    + intros y' b' Hl. apply lookup_delete_Some in Hl as [_ Hl]. eauto.
    + intros y' b' Hl. apply lookup_insert_Some in Hl as [[_ <-]|[_ Hl]]; eauto.
  - clear Hmd Hrd Htrue.
    destruct g; polling_cases Hs; try done; intros y';
      rewrite ?dom_insert_L, ?dom_delete_L; intros Hy.
    + apply Hrange.
      destruct (decide (y' = pick)) as [->|Hne]; [|set_solver].
      apply (elem_of_dom_2 _ _ _) in H0. set_solver.
    + destruct (decide (y' = TaskNum args)) as [->|Hne]; [by apply Hargs|].
      apply Hrange. set_solver.
    + destruct (decide (y' = TaskNum task)) as [->|Hne].
      * apply Htrack; [by left|done].
      * apply Hrange. set_solver.
  - clear Hmd Hrd Htrue.
    intros args Hmem. apply elem_of_insert_app in Hmem as [Hmem|[Hmem|Hmem]].
    + subst g'. destruct g; polling_cases Hs.
      apply Hrange. apply (elem_of_dom_2 _ _ _) in H. set_solver.
    + auto.
    + destruct g; polling_cases Hs;
        first [ by apply elem_of_nil in Hmem
              | by apply list_elem_of_singleton in Hmem ].
  - clear Hmd Hrd Htrue.
    intros task Hmem Hty.
    assert (Hcases : (track_repend task = g' ∨ track_call task = g') ∨
                     (track_repend task ∈ gs ∨ track_call task ∈ gs) ∨
                     (track_repend task ∈ sp ∨ track_call task ∈ sp)).
    { destruct Hmem as [Hmem|Hmem];
        apply elem_of_insert_app in Hmem as [Hmem|[Hmem|Hmem]]; auto. }
    destruct Hcases as [Hc|[Hc|Hc]].
    + destruct g; polling_cases Hs; destruct Hc as [Hc|Hc]; simplify_eq.
      all: apply Htrack; auto.
    + by apply Htrack.
    + destruct g; polling_cases Hs; destruct Hc as [Hc|Hc];
        try (by apply elem_of_nil in Hc);
        apply list_elem_of_singleton in Hc; simplify_eq.
      simpl. apply Hrange. apply (elem_of_dom_2 _ _ _) in H0. set_solver.
Qed.

Lemma PollingMore_reachable files R s : reachable files R s → Inv R s.
Proof.
  intros H.
  eapply (rtc_ind_r (λ s, Inv R s)); [apply PollingMore_init| |exact H].
  intros y z _ Hyz IH. by eapply PollingMore_step.
Qed.

End PollingMoreInv.

(** X1 (reduce buckets of the signalling coordinator).  In every reachable
    state of a job made by [MakeCoordinator files R], [GetReduceN] answers
    [R]; an index is a key of [reducePending], [reduceInProgress] or
    [reduceCompleted] exactly when it lies in [0, R); and no index is a key
    of two of the three. *)
Theorem Signalled_reduce_task_in_one_bucket files R s y :
  Signalled.reachable files R s →
  let c := Signalled.coord s in
  Signalled.GetReduceN c = R ∧
  (0 ≤ y < R ↔
     is_Some (Signalled.reducePending c !! y) ∨
     is_Some (Signalled.reduceInProgress c !! y) ∨
     is_Some (Signalled.reduceCompleted c !! y)) ∧
  ¬ (is_Some (Signalled.reducePending c !! y) ∧
     is_Some (Signalled.reduceInProgress c !! y)) ∧
  ¬ (is_Some (Signalled.reducePending c !! y) ∧
     is_Some (Signalled.reduceCompleted c !! y)) ∧
  ¬ (is_Some (Signalled.reduceInProgress c !! y) ∧
     is_Some (Signalled.reduceCompleted c !! y)).
Proof.
  intros Hr c. apply reachable_Inv in Hr as [HR Hcov Hpi Hpc Hic _ _ _ _ _].
  fold c in HR, Hcov, Hpi, Hpc, Hic.
  split; [done|]. rewrite <- !elem_of_dom. split; [|split; [|split]].
  - rewrite <- elem_of_reduceIds, <- Hcov. set_solver.
  - intros [? ?]. set_solver.
  - intros [? ?]. set_solver.
  - intros [? ?]. set_solver.
Qed.

(** X1 for the initial state of a job of one file and two reduce tasks. *)
Lemma X1_witness :
  Signalled.reachable ["f"%string] 2 (Signalled.init ["f"%string] 2) ∧
  Signalled.GetReduceN (Signalled.coord (Signalled.init ["f"%string] 2)) = 2.
Proof.
  split; [apply rtc_refl|].
  exact (proj1 (Signalled_reduce_task_in_one_bucket ["f"%string] 2
                  (Signalled.init ["f"%string] 2) 0 (rtc_refl _ _))).
Defined.

(** X2 (map buckets, both revisions).  In every reachable state, an entry
    [i ↦ f] of [mapPending] or of [mapInProgress] names the input file of
    its index, [f = files[i]], and [i] is not a key of the other map
    bucket. *)
Theorem map_task_in_one_bucket_under_its_file files R i f :
  (∀ s, Signalled.reachable files R s →
     (Signalled.mapPending (Signalled.coord s) !! i = Some f →
        isInput files i f ∧ Signalled.mapInProgress (Signalled.coord s) !! i = None) ∧
     (Signalled.mapInProgress (Signalled.coord s) !! i = Some f →
        isInput files i f ∧ Signalled.mapPending (Signalled.coord s) !! i = None)) ∧
  (∀ s, Polling.reachable files R s →
     (Polling.mapPending (Polling.coord s) !! i = Some f →
        isInput files i f ∧ Polling.mapInProgress (Polling.coord s) !! i = None) ∧
     (Polling.mapInProgress (Polling.coord s) !! i = Some f →
        isInput files i f ∧ Polling.mapPending (Polling.coord s) !! i = None)).
Proof.
  split; intros s Hr.
  - pose proof (reachable_Inv files R s Hr) as HI.
    pose proof (SignalledMore_reachable files R s Hr) as [Hd _ _ _].
    split; intros Hl; (split; [by eauto using SignalledSpec.inv_pending_file,
                                 SignalledSpec.inv_inProgress_file|]);
      apply (elem_of_dom_2 _ _ _) in Hl; apply not_elem_of_dom; set_solver.
  - pose proof (Polling_reachable_Inv files R s Hr) as HI.
    pose proof (PollingMore_reachable files R s Hr) as [_ _ Hd _ _ _ _ _].
    split; intros Hl; (split; [by eauto using PollingSpec.inv_pending_file,
                                 PollingSpec.inv_inProgress_file|]);
      apply (elem_of_dom_2 _ _ _) in Hl; apply not_elem_of_dom; set_solver.
Qed.

(** X3 (reduce buckets of the polling coordinator).  In every reachable
    state [GetReduceN] answers [R], every key of a reduce bucket lies in
    [0, R), and no index is a key of both [reducePending] and
    [reduceInProgress]. *)
Theorem Polling_reduce_buckets files R s y :
  Polling.reachable files R s →
  let c := Polling.coord s in
  Polling.GetReduceN c = R ∧
  (is_Some (Polling.reducePending c !! y) ∨
   is_Some (Polling.reduceInProgress c !! y) ∨
   is_Some (Polling.reduceCompleted c !! y) → 0 ≤ y < R) ∧
  ¬ (is_Some (Polling.reducePending c !! y) ∧
     is_Some (Polling.reduceInProgress c !! y)).
Proof.
  intros Hr c. apply PollingMore_reachable in Hr as [HR _ _ Hrd _ Hrange _ _].
  fold c in HR, Hrd, Hrange.
  split; [done|]. rewrite <- !elem_of_dom. split.
  - intros H. apply Hrange. set_solver.
  - intros [? ?]. set_solver.
Qed.

(** X3 for the initial state of a job of one file and two reduce tasks. *)
Lemma X3_witness :
  Polling.reachable ["f"%string] 2 (Polling.init ["f"%string] 2) ∧
  Polling.GetReduceN (Polling.coord (Polling.init ["f"%string] 2)) = 2.
Proof.
  split; [apply rtc_refl|].
  exact (proj1 (Polling_reduce_buckets ["f"%string] 2
                  (Polling.init ["f"%string] 2) 0 (rtc_refl _ _))).
Defined.

(** X4 (the terminal state is absorbing, signalling coordinator).  From a
    state in which [Done] computes true, whatever transitions follow
    (handlers, watchers, new requests), [Done] stays true and none of the
    five buckets changes. *)
Theorem Signalled_terminal_state_is_absorbing s s' :
  rtc Signalled.step s s' →
  Signalled.Done (Signalled.coord s) = true →
  Signalled.Done (Signalled.coord s') = true ∧
  SignalledSpec.buckets (Signalled.coord s') = SignalledSpec.buckets (Signalled.coord s).
Proof.
  induction 1 as [s|s1 s2 s3 Hstep Hrtc IH]; [done|].
  intros HD. destruct (Signalled_Done_absorbing s1 s2 Hstep HD) as [Hb HD2].
  destruct (IH HD2) as [HD3 Hb3]. split; [done|]. by rewrite Hb3.
Qed.

(** X5 (EXIT only at the end, signalling coordinator).  If in a reachable
    state a transition of a goroutine makes [GetTask] return a reply of type
    EXIT, then [Done] computes true in that state, the transition changes
    nothing in the coordinator and starts no watcher, and, for [R >= 1],
    every reduce task is in [reduceCompleted]. *)
Theorem Signalled_EXIT_only_when_Done files R s tid pick g c reply sp :
  Signalled.reachable files R s →
  Signalled.goroutines s !! tid = Some g →
  Signalled.step_goroutine pick (Signalled.coord s) g
    = Some (c, Signalled.GetTask_return reply, sp) →
  Task_TaskType reply = EXIT →
  Signalled.Done (Signalled.coord s) = true ∧ c = Signalled.coord s ∧ sp = [] ∧
  (1 ≤ R → SignalledSpec.allReduceCompleted R (Signalled.coord s)).
Proof.
  intros Hr Hg Hs Hty.
  pose proof (SignalledMore_reachable files R s Hr) as [_ _ Hjd _].
  assert (HD : Signalled.Done (Signalled.coord s) = true
               ∧ c = Signalled.coord s ∧ sp = []).
  { destruct g; simpl in Hs; unfold Signalled.tryMap, Signalled.tryReduce in Hs;
      repeat case_match; simplify_eq/=; auto. }
  destruct HD as (HD & -> & ->). repeat split; try done.
  intros HR. by apply (Signalled_Done_iff files R s).
Qed.

(** X4 for the job of one file and one reduce task: after one worker did the
    job, a further [GetTask] runs to its return, the two watchers wake up
    and a late completion report arrives. *)
Lemma X4_witness :
  ∃ s s',
    Signalled.run Signalled.one_worker_job (Signalled.init ["f"%string] 1) = Some s ∧
    Signalled.run Signalled.after_the_job s = Some s' ∧
    Signalled.goroutines s' !! 6%nat
      = Some (Signalled.GetTask_return (mkTask "" 0 EXIT)) ∧
    Signalled.Done (Signalled.coord s) = true ∧
    Signalled.Done (Signalled.coord s') = true ∧
    SignalledSpec.buckets (Signalled.coord s') = SignalledSpec.buckets (Signalled.coord s).
Proof.
  destruct (Signalled.run Signalled.one_worker_job (Signalled.init ["f"%string] 1))
    as [s|] eqn:Hs; [|by vm_compute in Hs].
  destruct (Signalled.run Signalled.after_the_job s) as [s'|] eqn:Hs';
    [|by vm_compute in Hs; injection Hs as <-; vm_compute in Hs'].
  exists s, s'. split; [reflexivity|]. split; [exact Hs'|].
  assert (HD : Signalled.Done (Signalled.coord s) = true).
  { vm_compute in Hs. injection Hs as <-. reflexivity. }
  split.
  { vm_compute in Hs. injection Hs as <-. vm_compute in Hs'. injection Hs' as <-.
    reflexivity. }
  split; [exact HD|].
  exact (Signalled_terminal_state_is_absorbing s s' (Signalled_run_rtc _ _ _ Hs') HD).
Defined.

(** X5 for the job of one file and one reduce task: after one worker did the
    job, a further [GetTask] arrives and returns EXIT. *)
Lemma X5_witness :
  ∃ s,
    Signalled.run (Signalled.one_worker_job ++ [Arrive ReqGetTask])
      (Signalled.init ["f"%string] 1) = Some s ∧
    Signalled.goroutines s !! 6%nat = Some Signalled.GetTask_loop ∧
    Signalled.step_goroutine 0 (Signalled.coord s) Signalled.GetTask_loop
      = Some (Signalled.coord s, Signalled.GetTask_return (mkTask "" 0 EXIT), []) ∧
    Signalled.Done (Signalled.coord s) = true ∧
    SignalledSpec.allReduceCompleted 1 (Signalled.coord s).
Proof.
  destruct (Signalled.run (Signalled.one_worker_job ++ [Arrive ReqGetTask])
              (Signalled.init ["f"%string] 1)) as [s|] eqn:Hs;
    [|by vm_compute in Hs].
  exists s. split; [reflexivity|].
  assert (Hg : Signalled.goroutines s !! 6%nat = Some Signalled.GetTask_loop).
  { vm_compute in Hs. injection Hs as <-. reflexivity. }
  assert (Hstep : Signalled.step_goroutine 0 (Signalled.coord s) Signalled.GetTask_loop
                  = Some (Signalled.coord s,
                          Signalled.GetTask_return (mkTask "" 0 EXIT), [])).
  { vm_compute in Hs. injection Hs as <-. reflexivity. }
  split; [exact Hg|]. split; [exact Hstep|].
  destruct (Signalled_EXIT_only_when_Done ["f"%string] 1 s 6 0 Signalled.GetTask_loop
              (Signalled.coord s) (mkTask "" 0 EXIT) []
              (Signalled_run_rtc _ _ _ Hs) Hg Hstep eq_refl)
    as (HD & _ & _ & Hall).
  split; [exact HD|]. apply Hall. lia.
Defined.

(** X6 (a dispatch undone by its watcher, both revisions).  When [GetTask]
    hands out a pending map task [i] (a pending reduce task [y]) in a
    reachable state, it replies that task and starts a watcher for it; if
    the critical section of that watcher runs next, the five buckets are
    again what they were before the dispatch.  In the polling revision the
    unlocked test of the watcher finds the task in progress. *)
Theorem dispatch_then_timeout_restores_buckets files R :
  (∀ s i f,
     Signalled.reachable files R s →
     Signalled.mapPending (Signalled.coord s) !! i = Some f →
     ∃ c1,
       Signalled.tryMap i (Signalled.coord s)
         = Some (c1, Signalled.GetTask_return (mkTask f i MAP),
                 [Signalled.track_call (mkTask f i MAP)]) ∧
       SignalledSpec.buckets (Signalled.track (mkTask f i MAP) c1)
         = SignalledSpec.buckets (Signalled.coord s)) ∧
  (∀ s y b,
     Signalled.reachable files R s →
     Signalled.reducePending (Signalled.coord s) !! y = Some b →
     ∃ c1,
       Signalled.tryReduce y (Signalled.coord s)
         = Some (c1, Signalled.GetTask_return (mkTask "" y REDUCE),
                 [Signalled.track_call (mkTask "" y REDUCE)]) ∧
       SignalledSpec.buckets (Signalled.track (mkTask "" y REDUCE) c1)
         = SignalledSpec.buckets (Signalled.coord s)) ∧
  (∀ s i f,
     Polling.reachable files R s →
     Polling.mapPending (Polling.coord s) !! i = Some f →
     ∃ c1,
       Polling.tryMap i (Polling.coord s)
         = Some (c1, Polling.GetTask_return (mkTask f i MAP),
                 [Polling.track_call (mkTask f i MAP)]) ∧
       Polling.stillInProgress (mkTask f i MAP) c1 = true ∧
       PollingSpec.buckets (Polling.repend (mkTask f i MAP) c1)
         = PollingSpec.buckets (Polling.coord s)) ∧
  (∀ s y b,
     Polling.reachable files R s →
     Polling.reducePending (Polling.coord s) !! y = Some b →
     ∃ c1,
       Polling.tryReduce y (Polling.coord s)
         = Some (c1, Polling.GetTask_return (mkTask "" y REDUCE),
                 [Polling.track_call (mkTask "" y REDUCE)]) ∧
       Polling.stillInProgress (mkTask "" y REDUCE) c1 = true ∧
       PollingSpec.buckets (Polling.repend (mkTask "" y REDUCE) c1)
         = PollingSpec.buckets (Polling.coord s)).
Proof.
  repeat apply conj.
  - intros s i f Hr Hl.
    pose proof (SignalledMore_reachable files R s Hr) as [Hd _ _ _].
    assert (Hn : Signalled.mapInProgress (Signalled.coord s) !! i = None).
    { apply (elem_of_dom_2 _ _ _) in Hl. apply not_elem_of_dom. set_solver. }
    unfold Signalled.tryMap. rewrite Hl. eexists. split; [done|].
    unfold Signalled.track, SignalledSpec.buckets. simpl.
    rewrite lookup_insert_eq. simpl.
    by rewrite insert_delete_id, delete_insert_id.
  - intros s y b Hr Hl.
    pose proof (SignalledMore_reachable files R s Hr) as [_ Ht _ _].
    pose proof (reachable_Inv files R s Hr) as HI.
    pose proof (SignalledSpec.inv_disj_pi files R s HI) as Hd.
    assert (b = true) as -> by eauto.
    assert (Hn : Signalled.reduceInProgress (Signalled.coord s) !! y = None).
    { apply (elem_of_dom_2 _ _ _) in Hl. apply not_elem_of_dom. set_solver. }
    unfold Signalled.tryReduce. rewrite Hl. eexists. split; [done|].
    unfold Signalled.track, SignalledSpec.buckets. simpl.
    rewrite lookup_insert_eq. simpl.
    by rewrite insert_delete_id, delete_insert_id.
  - intros s i f Hr Hl.
    pose proof (PollingMore_reachable files R s Hr) as [_ _ Hd _ _ _ _ _].
    assert (Hn : Polling.mapInProgress (Polling.coord s) !! i = None).
    { apply (elem_of_dom_2 _ _ _) in Hl. apply not_elem_of_dom. set_solver. }
    unfold Polling.tryMap. rewrite Hl. eexists. split; [done|].
    unfold Polling.stillInProgress, Polling.repend, PollingSpec.buckets. simpl.
    rewrite lookup_insert_eq. split; [by apply bool_decide_eq_true_2|].
    by rewrite insert_delete_id, delete_insert_id.
  - intros s y b Hr Hl.
    pose proof (PollingMore_reachable files R s Hr) as [_ _ _ Hd Ht _ _ _].
    assert (b = true) as -> by eauto.
    assert (Hn : Polling.reduceInProgress (Polling.coord s) !! y = None).
    { apply (elem_of_dom_2 _ _ _) in Hl. apply not_elem_of_dom. set_solver. }
    unfold Polling.tryReduce. rewrite Hl. eexists. split; [done|].
    unfold Polling.stillInProgress, Polling.repend, PollingSpec.buckets. simpl.
    rewrite lookup_insert_eq. split; [by apply bool_decide_eq_true_2|].
    by rewrite insert_delete_id, delete_insert_id.
Qed.

(** X2 for the job of one file [f]: map task 0 is pending under [f]. *)
Lemma X2_witness :
  Signalled.mapPending (Signalled.coord (Signalled.init ["f"%string] 1)) !! 0
    = Some "f"%string ∧
  isInput ["f"%string] 0 "f" ∧
  Signalled.mapInProgress (Signalled.coord (Signalled.init ["f"%string] 1)) !! 0 = None.
Proof.
  split; [reflexivity|].
  exact (proj1 (proj1 (map_task_in_one_bucket_under_its_file ["f"%string] 1 0 "f")
                  (Signalled.init ["f"%string] 1) (rtc_refl _ _)) eq_refl).
Defined.

(** X6 for the job of one file [f]: map task 0 is handed out and timed out. *)
Lemma X6_witness :
  Signalled.mapPending (Signalled.coord (Signalled.init ["f"%string] 1)) !! 0
    = Some "f"%string ∧
  ∃ c1,
    Signalled.tryMap 0 (Signalled.coord (Signalled.init ["f"%string] 1))
      = Some (c1, Signalled.GetTask_return (mkTask "f" 0 MAP),
              [Signalled.track_call (mkTask "f" 0 MAP)]) ∧
    SignalledSpec.buckets (Signalled.track (mkTask "f" 0 MAP) c1)
      = SignalledSpec.buckets (Signalled.coord (Signalled.init ["f"%string] 1)).
Proof.
  split; [reflexivity|].
  exact (proj1 (dispatch_then_timeout_restores_buckets ["f"%string] 1)
           (Signalled.init ["f"%string] 1) 0 "f"%string (rtc_refl _ _) eq_refl).
Defined.

(** ** One worker on the signalling coordinator *)

Lemma lookup_foldl_insert_pair_NoDup (l : list (Z * string)) (m : gmap Z string) i f :
  NoDup (fst <$> l) →
  (foldl (λ m p, <[fst p := snd p]> m) m l !! i = Some f) ↔
  ((i, f) ∈ l ∨ ((i ∉ fst <$> l) ∧ m !! i = Some f)).
Proof.
  revert m. induction l as [|[k v] l IH]; intros m Hnd.
  - cbn [foldl]. split; [intros H; right; split; [apply not_elem_of_nil|done]|].
    intros [H|[_ H]]; [by apply elem_of_nil in H|done].
  - rewrite fmap_cons in Hnd |- *. cbn [foldl fst snd] in *.
    apply NoDup_cons in Hnd as [Hk Hnd]. rewrite IH by done.
    rewrite not_elem_of_cons, !elem_of_cons. split.
    + intros [H|[Hni H]]; [by left; right|].
      destruct (decide (k = i)) as [->|Hne].
      * rewrite lookup_insert_eq in H. simplify_eq. by left; left.
      * rewrite lookup_insert_ne in H by done. right. done.
    + intros [[H|H]|[[Hne Hni] H]].
      * simplify_eq. right. split; [done|]. by rewrite lookup_insert_eq.
      * by left.
      * right. split; [done|]. by rewrite lookup_insert_ne.
Qed.

Lemma elem_of_zip_seqZ_iff (files : list string) i f :
  (i, f) ∈ zip (seqZ 0 (Z.of_nat (length files))) files ↔ isInput files i f.
Proof.
  split; [apply elem_of_zip_seqZ|]. intros [Hi Hf].
  apply list_elem_of_lookup. exists (Z.to_nat i).
  apply lookup_zip_with_Some. exists i, f. split; [done|]. split; [|done].
  apply lookup_seqZ. apply lookup_lt_Some in Hf. lia.
Qed.

Lemma fst_zip_seqZ (files : list string) :
  (zip (seqZ 0 (Z.of_nat (length files))) files).*1 = seqZ 0 (Z.of_nat (length files)).
Proof. apply fst_zip. rewrite length_seqZ. lia. Qed.

Lemma lookup_mapPending_init (files : list string) i f :
  foldl (λ m p, <[fst p := snd p]> m) (∅ : gmap Z string)
        (zip (seqZ 0 (Z.of_nat (length files))) files) !! i = Some f ↔
  isInput files i f.
Proof.
  rewrite lookup_foldl_insert_pair_NoDup.
  - rewrite elem_of_zip_seqZ_iff, lookup_empty. naive_solver.
  - rewrite fst_zip_seqZ. apply NoDup_seqZ.
Qed.

Section SignalledWorkerProofs.
Import Signalled SignalledWorker.

Lemma runsAlone_returned c g c' g' :
  runsAlone c g c' g' →
  (∀ pick, step_goroutine pick c g = None) →
  c' = c ∧ g' = g.
Proof. intros H Hn. inversion H; subst; [done|]. by rewrite Hn in *. Qed.

(** What a [GetTask] that runs alone does, in a state with nothing in
    progress. *)
Lemma GetTask_alone c c1 reply :
  mu c = false → mapInProgress c = ∅ →
  (mapPending c = ∅ → reducePending c = ∅ → Done c = true) →
  runsAlone c GetTask_loop c1 (GetTask_return reply) →
  (Done c = true ∧ reply = mkTask "" 0 EXIT ∧ c1 = c) ∨
  (Done c = false ∧ ∃ i f,
     mapPending c !! i = Some f ∧ reply = mkTask f i MAP ∧
     c1 = set_mapPending (delete i (mapPending c))
            (set_mapInProgress (<[i := f]> (mapInProgress c)) c)) ∨
  (Done c = false ∧ mapPending c = ∅ ∧ ∃ y b,
     reducePending c !! y = Some b ∧ reply = mkTask "" y REDUCE ∧
     c1 = set_reducePending (delete y (reducePending c))
            (set_reduceInProgress (<[y := true]> (reduceInProgress c)) c)).
Proof.
  intros Hmu Hmip Hdone Hrun.
  inversion Hrun as [|pick ? ? c2 g2 sp ? ? Hs Hrest]; subst; clear Hrun.
  simpl in Hs. rewrite Hmu in Hs.
  destruct (Done c) eqn:HD; simplify_eq.
  { left. apply runsAlone_returned in Hrest as [-> ?]; [|done]. by simplify_eq. }
  right.
  inversion Hrest as [|pick2 ? ? c3 g3 sp3 ? ? Hs2 Hrest2]; subst; clear Hrest.
  simpl in Hs2. rewrite Hmu in Hs2. unfold tryMap in Hs2.
  destruct (mapPending c2 !! pick2) as [f|] eqn:Hl; simplify_eq.
  { left. split; [done|]. exists pick2, f.
    apply runsAlone_returned in Hrest2 as [-> ?]; [|done]. by simplify_eq. }
  case_bool_decide as Hmp; [|done].
  rewrite Hmip, len_empty, bool_decide_eq_true_2 in Hs2 by done. simplify_eq.
  right. split; [done|]. split; [done|].
  inversion Hrest2 as [|pick3 ? ? c4 g4 sp4 ? ? Hs3 Hrest3]; subst; clear Hrest2.
  simpl in Hs3. rewrite Hmu in Hs3. unfold tryReduce in Hs3.
  destruct (reducePending c3 !! pick3) as [b|] eqn:Hl3; simplify_eq.
  { exists pick3, b.
    apply runsAlone_returned in Hrest3 as [-> ?]; [|done]. by simplify_eq. }
  case_bool_decide as Hrp; [|done].
  by specialize (Hdone Hmp Hrp).
Qed.

Lemma SeqInv_init files R :
  0 ≤ R → SeqInv files R [] (MakeCoordinator files R).
Proof.
  intros HR. split; simpl; try done.
  - intros i f. rewrite lookup_mapPending_init. split; [|tauto].
    intros ?; split; [done|apply not_elem_of_nil].
  - intros y. rewrite lookup_reducePending_init. case_decide.
    + split; [|by eauto]. intros _. split; [done|apply not_elem_of_nil].
    + split; [by intros [? ?]|tauto].
  - intros y. rewrite lookup_empty. split; [by intros [? ?]|].
    by intros ?%elem_of_nil.
  - apply NoDup_nil_2.
  - exists [], []. repeat split; try done; by apply Forall_nil.
Qed.

Lemma SeqInv_all_done files R tasks c :
  SeqInv files R tasks c →
  (mapPending c = ∅ ∧ reducePending c = ∅) ↔ (∀ t, jobTask files R t → t ∈ tasks).
Proof.
  intros I. split.
  - intros [Hmp Hrp] [f i ty] [[Hty Hin]|(Hty & Hf & Hy)]; simpl in *; subst.
    + destruct (decide (mkTask f i MAP ∈ tasks)) as [|Hn]; [done|].
      assert (mapPending c !! i = Some f) as Hl by by apply (seq_mp _ _ _ _ I).
      by rewrite Hmp, lookup_empty in Hl.
    + destruct (decide (mkTask "" i REDUCE ∈ tasks)) as [|Hn]; [done|].
      assert (is_Some (reducePending c !! i)) as [b Hl] by by apply (seq_rp _ _ _ _ I).
      by rewrite Hrp, lookup_empty in Hl.
  - intros Hall. split; apply map_empty; intros i.
    + destruct (mapPending c !! i) as [f|] eqn:Hl; [|done].
      apply (seq_mp _ _ _ _ I) in Hl as [Hin Hn]. destruct Hn.
      apply Hall. by left.
    + destruct (reducePending c !! i) as [b|] eqn:Hl; [|done].
      assert (is_Some (reducePending c !! i)) as Hs by eauto.
      apply (seq_rp _ _ _ _ I) in Hs as [Hin Hn]. destruct Hn.
      apply Hall. by right.
Qed.

Lemma SeqInv_Done files R tasks c :
  SeqInv files R tasks c →
  Done c = true ↔ (mapPending c = ∅ ∧ reducePending c = ∅).
Proof.
  intros I. rewrite Done_true_iff. split; [tauto|]. intros [Hmp Hrp].
  repeat split; try done; try apply I.
  rewrite (seq_nReduce _ _ _ _ I).
  assert (dom (reduceCompleted c) = reduceIds R) as Hdom.
  { apply set_eq. intros y. rewrite elem_of_dom, elem_of_reduceIds.
    rewrite (seq_rc _ _ _ _ I). split.
    - intros Hin. pose proof (seq_job _ _ _ _ I) as HF.
      rewrite Forall_forall in HF. apply HF in Hin as [[? ?]|(_ & _ & ?)]; done.
    - intros Hy. destruct (decide (mkTask "" y REDUCE ∈ tasks)) as [|Hn]; [done|].
      assert (is_Some (reducePending c !! y)) as [b Hl] by by apply (seq_rp _ _ _ _ I).
      by rewrite Hrp, lookup_empty in Hl. }
  unfold len. rewrite <- size_dom, Hdom. apply size_reduceIds, I.
Qed.

Tactic Notation "signalled_step" hyp(H) "as" ident(Hs) ident(Hr) :=
  inversion H as [|? ? ? ? ? ? ? ? Hs Hr]; subst; clear H; simpl in Hs.

Lemma CompleteMapTask_alone c1 c2 args :
  mu c1 = false →
  runsAlone c1 (CompleteMapTask_call args) c2 (CompleteMapTask_return None) →
  is_Some (mapInProgress c1 !! TaskNum args) ∧
  mapPending c2 = mapPending c1 ∧
  mapInProgress c2 = delete (TaskNum args) (mapInProgress c1) ∧
  reducePending c2 = reducePending c1 ∧
  reduceInProgress c2 = reduceInProgress c1 ∧
  reduceCompleted c2 = reduceCompleted c1 ∧
  jobDone c2 = jobDone c1 ∧ nReduce c2 = nReduce c1 ∧ mu c2 = false.
Proof.
  intros Hmu H. signalled_step H as Hs Hr. rewrite Hmu in Hs. unfold CompleteMapTask in Hs.
  destruct (mapInProgress c1 !! TaskNum args) eqn:Hl; simpl in Hs; simplify_eq.
  - apply runsAlone_returned in Hr as [-> _]; [|done].
    split; [by eauto|]. by case_match.
  - apply runsAlone_returned in Hr as [_ ?]; done.
Qed.

Lemma CompleteReduceTask_alone c1 c2 args :
  mu c1 = false → (jobDone c1 = true → Done c1 = true) →
  runsAlone c1 (CompleteReduceTask_call args) c2 (CompleteReduceTask_return None) →
  is_Some (reduceInProgress c1 !! TaskNum args) ∧
  mapPending c2 = mapPending c1 ∧
  mapInProgress c2 = mapInProgress c1 ∧
  reducePending c2 = reducePending c1 ∧
  reduceInProgress c2 = delete (TaskNum args) (reduceInProgress c1) ∧
  reduceCompleted c2 = <[TaskNum args := true]> (reduceCompleted c1) ∧
  (jobDone c2 = true → jobDone c1 = true ∨ Done c2 = true) ∧
  nReduce c2 = nReduce c1 ∧ mu c2 = false.
Proof.
  intros Hmu HjD H. signalled_step H as Hs Hr. rewrite Hmu in Hs. unfold CompleteReduceTask in Hs.
  destruct (reduceInProgress c1 !! TaskNum args) eqn:Hl; simpl in Hs; simplify_eq.
  - split; [by eauto|]. signalled_step Hr as Hs Hr'. rewrite Hmu in Hs. simplify_eq.
    rename Hr' into Hr.
    match type of Hr with context [if ?b then _ else _] => destruct b eqn:HD end.
    + signalled_step Hr as Hs Hr'. rename Hr' into Hr.
      match type of Hs with context [if ?b then _ else _] => destruct b eqn:HjD' end;
        simplify_eq.
      * apply runsAlone_returned in Hr as [_ ?]; done.
      * apply runsAlone_returned in Hr as [-> _]; [|done]. simpl.
        repeat split; try done. intros _. by right.
    + apply runsAlone_returned in Hr as [-> _]; [|done]. simpl.
      repeat split; try done. intros ?. by left.
  - apply runsAlone_returned in Hr as [_ ?]; done.
Qed.

Lemma SeqInv_GetTask_pre files R tasks c :
  SeqInv files R tasks c →
  mapPending c = ∅ → reducePending c = ∅ → Done c = true.
Proof. intros I ? ?. by apply (SeqInv_Done _ _ _ _ I). Qed.

Lemma SeqInv_iteration files R tasks c t c2 :
  SeqInv files R tasks c → iteration c t c2 →
  SeqInv files R (tasks ++ [t]) c2.
Proof.
  intros I Hit.
  pose proof (seq_mu _ _ _ _ I) as Hmu. pose proof (seq_mip _ _ _ _ I) as Hmip.
  pose proof (seq_rip _ _ _ _ I) as Hrip.
  destruct Hit as [c c1 c2 reply Hget Hty Hcomp|c c1 c2 reply Hget Hty Hcomp].
  - apply GetTask_alone in Hget
      as [(_ & -> & _)|[(HD & i & f & Hl & -> & ->)|(_ & _ & y & b & _ & -> & _)]];
      try done; [|by eapply SeqInv_GetTask_pre].
    apply CompleteMapTask_alone in Hcomp
      as (_ & Hmp2 & Hmip2 & Hrp2 & Hrip2 & Hrc2 & HjD2 & HnR2 & Hmu2); [|done].
    simpl in *. rewrite Hmip in Hmip2.
    rewrite delete_insert_id in Hmip2 by apply lookup_empty.
    pose proof Hl as Hl'. apply (seq_mp _ _ _ _ I) in Hl' as [Hin Hnew].
    split; try done; try apply I.
    + by rewrite HnR2; apply I.
    + by rewrite Hrip2.
    + intros i' f'. rewrite Hmp2, lookup_delete_Some, (seq_mp _ _ _ _ I).
      rewrite not_elem_of_app, not_elem_of_cons. split.
      * intros (Hne & ? & ?). split; [done|]. split; [done|].
        split; [congruence|apply not_elem_of_nil].
      * intros (Hin' & ? & Hne & _). split; [|by split]. intros <-.
        destruct Hin as [_ Hf], Hin' as [_ Hf']. congruence.
    + intros y. rewrite Hrp2, (seq_rp _ _ _ _ I), not_elem_of_app, not_elem_of_cons.
      split; [|tauto]. intros [? ?]. split; [done|]. split; [done|].
      split; [done|apply not_elem_of_nil].
    + intros y. rewrite Hrc2, (seq_rc _ _ _ _ I), elem_of_app, list_elem_of_singleton.
      split; [tauto|]. by intros [?|?].
    + apply Forall_app. split; [apply I|]. apply Forall_singleton. by left.
    + apply NoDup_app. repeat split; [apply I| |apply NoDup_singleton].
      intros x Hx ->%list_elem_of_singleton. done.
    + destruct (seq_phase _ _ _ _ I) as (ms & rs & -> & Hms & Hrs & Hph).
      destruct rs as [|r rs].
      * exists (ms ++ [mkTask f i MAP]), []. rewrite !app_nil_r.
        repeat split; try done. apply Forall_app. split; [done|].
        by apply Forall_singleton.
      * rewrite Hph in Hl by done. by rewrite lookup_empty in Hl.
    + rewrite HjD2. intros HjD. apply (seq_jobDone _ _ _ _ I) in HjD. congruence.
  - apply GetTask_alone in Hget
      as [(_ & -> & _)|[(_ & i & f & _ & -> & _)|(HD & Hmp & y & b & Hl & -> & ->)]];
      try done; [|by eapply SeqInv_GetTask_pre].
    apply CompleteReduceTask_alone in Hcomp
      as (_ & Hmp2 & Hmip2 & Hrp2 & Hrip2 & Hrc2 & HjD2 & HnR2 & Hmu2); [|done|].
    2:{ simpl. intros HjD. apply (seq_jobDone _ _ _ _ I) in HjD. congruence. }
    simpl in *. rewrite Hrip in Hrip2.
    rewrite delete_insert_id in Hrip2 by apply lookup_empty.
    assert (is_Some (reducePending c !! y)) as Hs by eauto.
    apply (seq_rp _ _ _ _ I) in Hs as [Hin Hnew].
    split; try done; try apply I.
    + by rewrite HnR2; apply I.
    + by rewrite Hmip2.
    + intros i' f'. rewrite Hmp2, (seq_mp _ _ _ _ I), not_elem_of_app, not_elem_of_cons.
      split; [|tauto]. intros [? ?]. split; [done|]. split; [done|].
      split; [done|apply not_elem_of_nil].
    + intros y'. rewrite Hrp2, not_elem_of_app, not_elem_of_cons.
      destruct (decide (y = y')) as [<-|Hne].
      * rewrite lookup_delete_eq. split; [by intros [? ?]|].
        by intros (? & ? & ? & _).
      * rewrite lookup_delete_ne, (seq_rp _ _ _ _ I) by done. split; [|tauto].
        intros [? ?]. split; [done|]. split; [done|].
        split; [congruence|apply not_elem_of_nil].
    + intros y'. rewrite Hrc2, elem_of_app, list_elem_of_singleton.
      rewrite <- (seq_rc _ _ _ _ I). destruct (decide (y = y')) as [->|Hne].
      * rewrite lookup_insert_eq. split; [by right|by eauto].
      * rewrite lookup_insert_ne by done. split; [tauto|].
        intros [?|?]; [done|congruence].
    + apply Forall_app. split; [apply I|]. apply Forall_singleton. by right.
    + apply NoDup_app. repeat split; [apply I| |apply NoDup_singleton].
      intros x Hx ->%list_elem_of_singleton. done.
    + destruct (seq_phase _ _ _ _ I) as (ms & rs & -> & Hms & Hrs & Hph).
      exists ms, (rs ++ [mkTask "" y REDUCE]). rewrite app_assoc.
      repeat split; try done; [|by rewrite Hmp2].
      apply Forall_app. split; [done|]. by apply Forall_singleton.
    + intros HjD. apply HjD2 in HjD as [HjD|?]; [|done].
      apply (seq_jobDone _ _ _ _ I) in HjD. congruence.
Qed.

Lemma SeqInv_workerRuns files R tasks c :
  0 ≤ R → workerRuns (MakeCoordinator files R) tasks c → SeqInv files R tasks c.
Proof.
  intros HR H. remember (MakeCoordinator files R) as c0 eqn:Hc0.
  induction H as [|c0 tasks c1 t c2 _ IH Hit]; subst.
  - by apply SeqInv_init.
  - eapply SeqInv_iteration; [|done]. by apply IH.
Qed.

Lemma SeqInv_progress files R tasks c :
  SeqInv files R tasks c → Done c = false → ∃ t c2, iteration c t c2.
Proof.
  intros I HD.
  pose proof (seq_mu _ _ _ _ I) as Hmu. pose proof (seq_mip _ _ _ _ I) as Hmip.
  pose proof (seq_rip _ _ _ _ I) as Hrip.
  assert (step_goroutine 0 c GetTask_loop = Some (c, GetTask_tryMap, [])) as Hloop.
  { simpl. by rewrite Hmu, HD. }
  destruct (decide (mapPending c = ∅)) as [Hmp|Hmp].
  - assert (reducePending c ≠ ∅) as Hrp.
    { intros Hrp. rewrite (SeqInv_GetTask_pre _ _ _ _ I) in HD; done. }
    apply map_choose in Hrp as (y & b & Hl0).
    assert (reducePending c !! y = Some b) as Hl by exact Hl0. clear Hl0.
    set (c1 := set_reducePending (delete y (reducePending c))
                 (set_reduceInProgress (<[y := true]> (reduceInProgress c)) c)).
    assert (runsAlone c GetTask_loop c1 (GetTask_return (mkTask "" y REDUCE))) as Hget.
    { eapply runs_step; [exact Hloop|].
      eapply (runs_step 0); [|eapply (runs_step y); [|apply runs_here]].
      - simpl. rewrite Hmu. unfold tryMap, Pick.
        rewrite Hmp, lookup_empty, bool_decide_eq_true_2 by done.
        by rewrite Hmip, len_empty, bool_decide_eq_true_2.
      - simpl. rewrite Hmu. unfold tryReduce, Pick. by rewrite Hl. }
    set (c2 := set_reduceInProgress (delete y (reduceInProgress c1))
                 (set_reduceCompleted (<[y := true]> (reduceCompleted c1)) c1)).
    assert (step_goroutine 0 c1 (CompleteReduceTask_call (mkTask "" y MAP))
            = Some (c2, CompleteReduceTask_checkDone, [])) as Hcall.
    { simpl. rewrite Hmu. unfold CompleteReduceTask. simpl.
      by rewrite lookup_insert_eq. }
    assert (jobDone c2 = false) as HjD.
    { simpl. destruct (jobDone c) eqn:HjD; [|done].
      apply (seq_jobDone _ _ _ _ I) in HjD. congruence. }
    destruct (Done c2) eqn:HD2.
    + exists (mkTask "" y REDUCE), (set_jobDone true c2).
      eapply iteration_reduce; [exact Hget|done|]. simpl.
      eapply runs_step; [exact Hcall|].
      eapply (runs_step 0); [|eapply (runs_step 0); [|apply runs_here]].
      * simpl. rewrite Hmu. fold c1. fold c2. by rewrite HD2.
      * simpl. simpl in HjD. by rewrite HjD.
    + exists (mkTask "" y REDUCE), c2.
      eapply iteration_reduce; [exact Hget|done|]. simpl.
      eapply runs_step; [exact Hcall|].
      eapply (runs_step 0); [|apply runs_here].
      simpl. rewrite Hmu. fold c1. fold c2. by rewrite HD2.
  - apply map_choose in Hmp as (i & f & Hl0).
    assert (mapPending c !! i = Some f) as Hl by exact Hl0. clear Hl0.
    set (c1 := set_mapPending (delete i (mapPending c))
                 (set_mapInProgress (<[i := f]> (mapInProgress c)) c)).
    assert (runsAlone c GetTask_loop c1 (GetTask_return (mkTask f i MAP))) as Hget.
    { eapply runs_step; [exact Hloop|].
      eapply (runs_step i); [|apply runs_here].
      simpl. rewrite Hmu. unfold tryMap, Pick. by rewrite Hl. }
    exists (mkTask f i MAP), (fst (CompleteMapTask (mkTask f i MAP) c1)).
    eapply iteration_map; [exact Hget|done|]. simpl.
    eapply (runs_step 0); [|apply runs_here].
    simpl. rewrite Hmu. unfold CompleteMapTask. simpl.
    by rewrite lookup_insert_eq.
Qed.

(** X7 (one worker alone, signalling coordinator).  Let a single worker loop
    on a coordinator made by [MakeCoordinator files R], [R >= 0], each of its
    requests running to its return with no other goroutine in between, and
    let [tasks] be the tasks it was handed and reported, oldest first.  Then
    no task was handed out twice; every one is a map task [(files[i], i)] or
    a reduce task [y < R]; the map tasks come before the reduce tasks, and
    once a reduce task was handed out every input file had been mapped;
    [Done] computes true exactly when every task of the job is in [tasks];
    a [GetTask] replies EXIT exactly then, and then one does; while [Done]
    is false the worker can do a further iteration; and a watcher that fires
    between two iterations changes nothing. *)
Theorem Signalled_lone_worker_completes_job files R tasks c :
  0 ≤ R →
  workerRuns (MakeCoordinator files R) tasks c →
  NoDup tasks ∧
  Forall (jobTask files R) tasks ∧
  (∃ ms rs, tasks = ms ++ rs ∧
     Forall (λ t, Task_TaskType t = MAP) ms ∧
     Forall (λ t, Task_TaskType t = REDUCE) rs ∧
     (rs ≠ [] → ∀ i f, isInput files i f → mkTask f i MAP ∈ ms)) ∧
  (Done c = true ↔ ∀ t, jobTask files R t → t ∈ tasks) ∧
  (∀ c1 reply, runsAlone c GetTask_loop c1 (GetTask_return reply) →
     (Task_TaskType reply = EXIT ↔ Done c = true)) ∧
  (Done c = true →
     runsAlone c GetTask_loop c (GetTask_return (mkTask "" 0 EXIT))) ∧
  (Done c = false → ∃ t c2, iteration c t c2) ∧
  (∀ t, track t c = c).
Proof.
  intros HR Hruns. apply SeqInv_workerRuns in Hruns as I; [|done].
  split; [apply I|]. split; [apply I|]. split; [|split; [|split; [|split; [|split]]]].
  - destruct (seq_phase _ _ _ _ I) as (ms & rs & -> & Hms & Hrs & Hph).
    exists ms, rs. repeat split; try done.
    intros Hne i f Hin. specialize (Hph Hne).
    destruct (decide (mkTask f i MAP ∈ ms ++ rs)) as [Hel|Hn].
    + apply elem_of_app in Hel as [?|Hel]; [done|].
      rewrite Forall_forall in Hrs. by apply Hrs in Hel.
    + assert (mapPending c !! i = Some f) as Hl by by apply (seq_mp _ _ _ _ I).
      by rewrite Hph, lookup_empty in Hl.
  - by rewrite (SeqInv_Done _ _ _ _ I), (SeqInv_all_done _ _ _ _ I).
  - intros c1 reply Hget. apply GetTask_alone in Hget
      as [(HD & -> & _)|[(HD & i & f & _ & -> & _)|(HD & _ & y & b & _ & -> & _)]];
      try apply I; [done| | |by eapply SeqInv_GetTask_pre]; by rewrite HD.
  - intros HD. eapply (runs_step 0); [|apply runs_here].
    simpl. by rewrite (seq_mu _ _ _ _ I), HD.
  - by eapply SeqInv_progress.
  - intros t. unfold track.
    rewrite (seq_mip _ _ _ _ I), (seq_rip _ _ _ _ I), !lookup_empty.
    by destruct (Task_TaskType t).
Qed.

End SignalledWorkerProofs.

(** X7 for the job of one file and one reduce task, done by one worker. *)
Lemma X7_witness :
  0 ≤ 1 ∧
  ∃ c,
    SignalledWorker.workerRuns (Signalled.MakeCoordinator ["f"%string] 1)
      [mkTask "f" 0 MAP; mkTask "" 0 REDUCE] c ∧
    NoDup [mkTask "f" 0 MAP; mkTask "" 0 REDUCE].
Proof.
  split; [lia|].
  assert (∃ c, SignalledWorker.workerRuns (Signalled.MakeCoordinator ["f"%string] 1)
                 [mkTask "f" 0 MAP; mkTask "" 0 REDUCE] c) as [c Hrun].
  { eexists.
    eapply (SignalledWorker.worker_iteration _ [mkTask "f" 0 MAP] _ (mkTask "" 0 REDUCE)).
    - eapply (SignalledWorker.worker_iteration _ [] _ (mkTask "f" 0 MAP));
        [apply SignalledWorker.worker_start|].
      eapply SignalledWorker.iteration_map; [|reflexivity|].
      + eapply (SignalledWorker.runs_step 0); [vm_compute; reflexivity|].
        eapply (SignalledWorker.runs_step 0); [vm_compute; reflexivity|].
        apply SignalledWorker.runs_here.
      + eapply (SignalledWorker.runs_step 0); [vm_compute; reflexivity|].
        apply SignalledWorker.runs_here.
    - eapply SignalledWorker.iteration_reduce; [|reflexivity|].
      + eapply (SignalledWorker.runs_step 0); [vm_compute; reflexivity|].
        eapply (SignalledWorker.runs_step 0); [vm_compute; reflexivity|].
        eapply (SignalledWorker.runs_step 0); [vm_compute; reflexivity|].
        apply SignalledWorker.runs_here.
      + eapply (SignalledWorker.runs_step 0); [vm_compute; reflexivity|].
        eapply (SignalledWorker.runs_step 0); [vm_compute; reflexivity|].
        eapply (SignalledWorker.runs_step 0); [vm_compute; reflexivity|].
        apply SignalledWorker.runs_here. }
  exists c. split; [exact Hrun|].
  exact (proj1 (Signalled_lone_worker_completes_job ["f"%string] 1 _ c ltac:(lia) Hrun)).
Defined.

(** ** One worker on the polling coordinator *)

Lemma Polling_Done_true_iff c :
  Polling.Done c = true ↔
  Polling.mapPending c = ∅ ∧ Polling.mapInProgress c = ∅ ∧
  Polling.reducePending c = ∅ ∧ Polling.reduceInProgress c = ∅ ∧
  len (Polling.reduceCompleted c) = Polling.nReduce c.
Proof.
  unfold Polling.Done. rewrite !andb_true_iff, !bool_decide_eq_true. split.
  - intros [[[[? ?] ?] ?] ?]. repeat split; try done; by apply len_0_empty.
  - intros (-> & -> & -> & -> & ?). by rewrite !len_empty.
Qed.

Section PollingWorkerProofs.
Import Polling PollingWorker.

Tactic Notation "polling_step" hyp(H) "as" ident(Hs) ident(Hr) :=
  inversion H as [|? ? ? ? ? ? ? ? Hs Hr]; subst; clear H; simpl in Hs.

Lemma Polling_runsAlone_returned c g c' g' :
  runsAlone c g c' g' →
  (∀ pick, step_goroutine pick c g = None) →
  c' = c ∧ g' = g.
Proof. intros H Hn. inversion H; subst; [done|]. by rewrite Hn in *. Qed.

Lemma Polling_GetTask_alone c c1 reply :
  mu c = false → mapInProgress c = ∅ → reduceInProgress c = ∅ →
  (mapPending c = ∅ → reducePending c = ∅ → Done c = true) →
  runsAlone c GetTask_waitMaps c1 (GetTask_return reply) →
  (Done c = true ∧ reply = mkTask "" 0 EXIT ∧ c1 = c) ∨
  (Done c = false ∧ ∃ i f,
     mapPending c !! i = Some f ∧ reply = mkTask f i MAP ∧
     c1 = set_mapPending (delete i (mapPending c))
            (set_mapInProgress (<[i := f]> (mapInProgress c)) c)) ∨
  (Done c = false ∧ mapPending c = ∅ ∧ ∃ y b,
     reducePending c !! y = Some b ∧ reply = mkTask "" y REDUCE ∧
     c1 = set_reducePending (delete y (reducePending c))
            (set_reduceInProgress (<[y := true]> (reduceInProgress c)) c)).
Proof.
  intros Hmu Hmip Hrip Hdone Hrun.
  assert (bool_decide (len (mapPending c) = 0) &&
          bool_decide (0 < len (mapInProgress c)) = false) as Hwm.
  { apply andb_false_iff. right. apply bool_decide_eq_false.
    rewrite Hmip. pose proof (len_empty (V:=string)). lia. }
  assert (bool_decide (len (reducePending c) = 0) &&
          bool_decide (0 < len (reduceInProgress c)) = false) as Hwr.
  { apply andb_false_iff. right. apply bool_decide_eq_false.
    rewrite Hrip. pose proof (len_empty (V:=bool)). lia. }
  polling_step Hrun as Hs Hr. rewrite Hwm in Hs. simplify_eq.
  polling_step Hr as Hs Hr'.
  destruct (Done _) eqn:HD; simplify_eq.
  { left. apply Polling_runsAlone_returned in Hr' as [-> ?]; [|done]. by simplify_eq. }
  right.
  polling_step Hr' as Hs Hr. rewrite Hmu in Hs. unfold tryMap in Hs.
  destruct (mapPending _ !! _) as [f|] eqn:Hl; simplify_eq.
  { left. split; [done|]. eexists _, f.
    apply Polling_runsAlone_returned in Hr as [-> ?]; [|done]. by simplify_eq. }
  case_bool_decide as Hmp; [|done]. simplify_eq.
  right. split; [done|]. split; [done|].
  polling_step Hr as Hs Hr'. rewrite Hwr in Hs. simplify_eq.
  polling_step Hr' as Hs Hr. rewrite Hmu in Hs. unfold tryReduce in Hs.
  destruct (reducePending _ !! _) as [b|] eqn:Hl3; simplify_eq.
  { eexists _, b.
    apply Polling_runsAlone_returned in Hr as [-> ?]; [|done]. by simplify_eq. }
  case_bool_decide as Hrp; [|done].
  by specialize (Hdone Hmp Hrp).
Qed.

Lemma Polling_SeqInv_init files R :
  0 ≤ R → SeqInv files R [] (MakeCoordinator files R).
Proof.
  intros HR. split; simpl; try done.
  - intros i f. rewrite lookup_mapPending_init. split; [|tauto].
    intros ?; split; [done|apply not_elem_of_nil].
  - intros y. rewrite lookup_reducePending_init. case_decide.
    + split; [|by eauto]. intros _. split; [done|apply not_elem_of_nil].
    + split; [by intros [? ?]|tauto].
  - intros y. rewrite lookup_empty. split; [by intros [? ?]|].
    by intros ?%elem_of_nil.
  - apply NoDup_nil_2.
  - exists [], []. repeat split; try done; by apply Forall_nil.
Qed.

Lemma Polling_SeqInv_all_done files R tasks c :
  SeqInv files R tasks c →
  (mapPending c = ∅ ∧ reducePending c = ∅) ↔ (∀ t, jobTask files R t → t ∈ tasks).
Proof.
  intros I. split.
  - intros [Hmp Hrp] [f i ty] [[Hty Hin]|(Hty & Hf & Hy)]; simpl in *; subst.
    + destruct (decide (mkTask f i MAP ∈ tasks)) as [|Hn]; [done|].
      assert (mapPending c !! i = Some f) as Hl by by apply (seq_mp _ _ _ _ I).
      by rewrite Hmp, lookup_empty in Hl.
    + destruct (decide (mkTask "" i REDUCE ∈ tasks)) as [|Hn]; [done|].
      assert (is_Some (reducePending c !! i)) as [b Hl] by by apply (seq_rp _ _ _ _ I).
      by rewrite Hrp, lookup_empty in Hl.
  - intros Hall. split; apply map_empty; intros i.
    + destruct (mapPending c !! i) as [f|] eqn:Hl; [|done].
      apply (seq_mp _ _ _ _ I) in Hl as [Hin Hn]. destruct Hn.
      apply Hall. by left.
    + destruct (reducePending c !! i) as [b|] eqn:Hl; [|done].
      assert (is_Some (reducePending c !! i)) as Hs by eauto.
      apply (seq_rp _ _ _ _ I) in Hs as [Hin Hn]. destruct Hn.
      apply Hall. by right.
Qed.

Lemma Polling_SeqInv_Done files R tasks c :
  SeqInv files R tasks c →
  Done c = true ↔ (mapPending c = ∅ ∧ reducePending c = ∅).
Proof.
  intros I. rewrite Polling_Done_true_iff. split; [tauto|]. intros [Hmp Hrp].
  repeat split; try done; try apply I.
  rewrite (seq_nReduce _ _ _ _ I).
  assert (dom (reduceCompleted c) = reduceIds R) as Hdom.
  { apply set_eq. intros y. rewrite elem_of_dom, elem_of_reduceIds.
    rewrite (seq_rc _ _ _ _ I). split.
    - intros Hin. pose proof (seq_job _ _ _ _ I) as HF.
      rewrite Forall_forall in HF. apply HF in Hin as [[? ?]|(_ & _ & ?)]; done.
    - intros Hy. destruct (decide (mkTask "" y REDUCE ∈ tasks)) as [|Hn]; [done|].
      assert (is_Some (reducePending c !! y)) as [b Hl] by by apply (seq_rp _ _ _ _ I).
      by rewrite Hrp, lookup_empty in Hl. }
  unfold len. rewrite <- size_dom, Hdom. apply size_reduceIds, I.
Qed.

Lemma Polling_SeqInv_GetTask_pre files R tasks c :
  SeqInv files R tasks c →
  mapPending c = ∅ → reducePending c = ∅ → Done c = true.
Proof. intros I ? ?. by apply (Polling_SeqInv_Done _ _ _ _ I). Qed.

Lemma Polling_CompleteMapTask_alone c1 c2 args :
  mu c1 = false →
  runsAlone c1 (CompleteMapTask_call args) c2 (CompleteMapTask_return None) →
  is_Some (mapInProgress c1 !! TaskNum args) ∧ c2 = deleteMap args c1.
Proof.
  intros Hmu H. polling_step H as Hs Hr.
  destruct (mapInProgress _ !! _) eqn:Hl; simplify_eq.
  - split; [by eauto|]. polling_step Hr as Hs Hr'. rewrite Hmu in Hs. simplify_eq.
    apply Polling_runsAlone_returned in Hr' as [-> _]; done.
  - apply Polling_runsAlone_returned in Hr as [_ ?]; done.
Qed.

Lemma Polling_CompleteReduceTask_alone c1 c2 args :
  mu c1 = false →
  runsAlone c1 (CompleteReduceTask_call args) c2 (CompleteReduceTask_return None) →
  is_Some (reduceInProgress c1 !! TaskNum args) ∧ c2 = moveReduce args c1.
Proof.
  intros Hmu H. polling_step H as Hs Hr.
  destruct (reduceInProgress _ !! _) eqn:Hl; simplify_eq.
  - split; [by eauto|]. polling_step Hr as Hs Hr'. rewrite Hmu in Hs. simplify_eq.
    apply Polling_runsAlone_returned in Hr' as [-> _]; done.
  - apply Polling_runsAlone_returned in Hr as [_ ?]; done.
Qed.

Lemma Polling_SeqInv_iteration files R tasks c t c2 :
  SeqInv files R tasks c → iteration c t c2 →
  SeqInv files R (tasks ++ [t]) c2.
Proof.
  intros I Hit.
  pose proof (seq_mu _ _ _ _ I) as Hmu. pose proof (seq_mip _ _ _ _ I) as Hmip.
  pose proof (seq_rip _ _ _ _ I) as Hrip.
  destruct Hit as [c c1 c2 reply Hget Hty Hcomp|c c1 c2 reply Hget Hty Hcomp].
  - apply Polling_GetTask_alone in Hget
      as [(_ & -> & _)|[(HD & i & f & Hl & -> & ->)|(_ & _ & y & b & _ & -> & _)]];
      try done; [|by eapply Polling_SeqInv_GetTask_pre].
    apply Polling_CompleteMapTask_alone in Hcomp as (_ & ->); [|done].
    unfold deleteMap. simpl. rewrite Hmip.
    rewrite delete_insert_id by apply lookup_empty.
    pose proof Hl as Hl'. apply (seq_mp _ _ _ _ I) in Hl' as [Hin Hnew].
    split; simpl; try done; try apply I.
    + intros i' f'. rewrite lookup_delete_Some, (seq_mp _ _ _ _ I).
      rewrite not_elem_of_app, not_elem_of_cons. split.
      * intros (Hne & ? & ?). split; [done|]. split; [done|].
        split; [congruence|apply not_elem_of_nil].
      * intros (Hin' & ? & Hne & _). split; [|by split]. intros <-.
        destruct Hin as [_ Hf], Hin' as [_ Hf']. congruence.
    + intros y. rewrite (seq_rp _ _ _ _ I), not_elem_of_app, not_elem_of_cons.
      split; [|tauto]. intros [? ?]. split; [done|]. split; [done|].
      split; [done|apply not_elem_of_nil].
    + intros y. rewrite (seq_rc _ _ _ _ I), elem_of_app, list_elem_of_singleton.
      split; [tauto|]. by intros [?|?].
    + apply Forall_app. split; [apply I|]. apply Forall_singleton. by left.
    + apply NoDup_app. repeat split; [apply I| |apply NoDup_singleton].
      intros x Hx ->%list_elem_of_singleton. done.
    + destruct (seq_phase _ _ _ _ I) as (ms & rs & -> & Hms & Hrs & Hph).
      destruct rs as [|r rs].
      * exists (ms ++ [mkTask f i MAP]), []. rewrite !app_nil_r.
        repeat split; try done. apply Forall_app. split; [done|].
        by apply Forall_singleton.
      * rewrite Hph in Hl by done. by rewrite lookup_empty in Hl.
  - apply Polling_GetTask_alone in Hget
      as [(_ & -> & _)|[(_ & i & f & _ & -> & _)|(HD & Hmp & y & b & Hl & -> & ->)]];
      try done; [|by eapply Polling_SeqInv_GetTask_pre].
    apply Polling_CompleteReduceTask_alone in Hcomp as (_ & ->); [|done].
    unfold moveReduce. simpl. rewrite Hrip.
    rewrite delete_insert_id by apply lookup_empty.
    assert (is_Some (reducePending c !! y)) as Hs by eauto.
    apply (seq_rp _ _ _ _ I) in Hs as [Hin Hnew].
    split; simpl; try done; try apply I.
    + intros i' f'. rewrite (seq_mp _ _ _ _ I), not_elem_of_app, not_elem_of_cons.
      split; [|tauto]. intros [? ?]. split; [done|]. split; [done|].
      split; [done|apply not_elem_of_nil].
    + intros y'. rewrite not_elem_of_app, not_elem_of_cons.
      destruct (decide (y = y')) as [<-|Hne].
      * rewrite lookup_delete_eq. split; [by intros [? ?]|].
        by intros (? & ? & ? & _).
      * rewrite lookup_delete_ne, (seq_rp _ _ _ _ I) by done. split; [|tauto].
        intros [? ?]. split; [done|]. split; [done|].
        split; [congruence|apply not_elem_of_nil].
    + intros y'. rewrite elem_of_app, list_elem_of_singleton.
      rewrite <- (seq_rc _ _ _ _ I). destruct (decide (y = y')) as [->|Hne].
      * rewrite lookup_insert_eq. split; [by right|by eauto].
      * rewrite lookup_insert_ne by done. split; [tauto|].
        intros [?|?]; [done|congruence].
    + apply Forall_app. split; [apply I|]. apply Forall_singleton. by right.
    + apply NoDup_app. repeat split; [apply I| |apply NoDup_singleton].
      intros x Hx ->%list_elem_of_singleton. done.
    + destruct (seq_phase _ _ _ _ I) as (ms & rs & -> & Hms & Hrs & Hph).
      exists ms, (rs ++ [mkTask "" y REDUCE]). rewrite app_assoc.
      repeat split; try done.
      apply Forall_app. split; [done|]. by apply Forall_singleton.
Qed.

Lemma Polling_SeqInv_workerRuns files R tasks c :
  0 ≤ R → workerRuns (MakeCoordinator files R) tasks c → SeqInv files R tasks c.
Proof.
  intros HR H. remember (MakeCoordinator files R) as c0 eqn:Hc0.
  induction H as [|c0 tasks c1 t c2 _ IH Hit]; subst.
  - by apply Polling_SeqInv_init.
  - eapply Polling_SeqInv_iteration; [|done]. by apply IH.
Qed.

Lemma Polling_SeqInv_progress files R tasks c :
  SeqInv files R tasks c → Done c = false → ∃ t c2, iteration c t c2.
Proof.
  intros I HD.
  pose proof (seq_mu _ _ _ _ I) as Hmu. pose proof (seq_mip _ _ _ _ I) as Hmip.
  pose proof (seq_rip _ _ _ _ I) as Hrip.
  assert (bool_decide (len (mapPending c) = 0) &&
          bool_decide (0 < len (mapInProgress c)) = false) as Hwm.
  { apply andb_false_iff. right. apply bool_decide_eq_false.
    rewrite Hmip. pose proof (len_empty (V:=string)). lia. }
  assert (bool_decide (len (reducePending c) = 0) &&
          bool_decide (0 < len (reduceInProgress c)) = false) as Hwr.
  { apply andb_false_iff. right. apply bool_decide_eq_false.
    rewrite Hrip. pose proof (len_empty (V:=bool)). lia. }
  assert (runsAlone c GetTask_waitMaps c GetTask_tryMap) as Hloop.
  { eapply (runs_step 0); [|eapply (runs_step 0); [|apply runs_here]].
    - simpl. by rewrite Hwm.
    - simpl. by rewrite HD. }
  assert (∀ c1 g, runsAlone c GetTask_tryMap c1 g → runsAlone c GetTask_waitMaps c1 g)
    as Hpre.
  { intros c1 g Hrun.
    eapply (runs_step 0); [|eapply (runs_step 0); [|exact Hrun]].
    - simpl. by rewrite Hwm.
    - simpl. by rewrite HD. }
  destruct (decide (mapPending c = ∅)) as [Hmp|Hmp].
  - assert (reducePending c ≠ ∅) as Hrp.
    { intros Hrp. rewrite (Polling_SeqInv_GetTask_pre _ _ _ _ I) in HD; done. }
    apply map_choose in Hrp as (y & b & Hl0).
    assert (reducePending c !! y = Some b) as Hl by exact Hl0. clear Hl0.
    set (c1 := set_reducePending (delete y (reducePending c))
                 (set_reduceInProgress (<[y := true]> (reduceInProgress c)) c)).
    exists (mkTask "" y REDUCE), (moveReduce (mkTask "" y MAP) c1).
    eapply iteration_reduce; [apply Hpre| done |].
    + eapply (runs_step 0); [|eapply (runs_step 0);
                                [|eapply (runs_step y); [|apply runs_here]]].
      * simpl. rewrite Hmu. unfold tryMap, Pick.
        by rewrite Hmp, lookup_empty, bool_decide_eq_true_2.
      * simpl. by rewrite Hwr.
      * simpl. rewrite Hmu. unfold tryReduce, Pick. by rewrite Hl.
    + eapply (runs_step 0); [|eapply (runs_step 0); [|apply runs_here]].
      * simpl. by rewrite lookup_insert_eq.
      * simpl. by rewrite Hmu.
  - apply map_choose in Hmp as (i & f & Hl0).
    assert (mapPending c !! i = Some f) as Hl by exact Hl0. clear Hl0.
    set (c1 := set_mapPending (delete i (mapPending c))
                 (set_mapInProgress (<[i := f]> (mapInProgress c)) c)).
    exists (mkTask f i MAP), (deleteMap (mkTask f i MAP) c1).
    eapply iteration_map; [apply Hpre| done |].
    + eapply (runs_step i); [|apply runs_here].
      simpl. rewrite Hmu. unfold tryMap, Pick. by rewrite Hl.
    + eapply (runs_step 0); [|eapply (runs_step 0); [|apply runs_here]].
      * simpl. by rewrite lookup_insert_eq.
      * simpl. by rewrite Hmu.
Qed.

(** X8 (one worker alone, polling coordinator).  Let a single worker loop on
    a coordinator made by [MakeCoordinator files R], [R >= 0], each of its
    requests running to its return with no other goroutine in between, and
    let [tasks] be the tasks it was handed and reported, oldest first.  Then
    no task was handed out twice; every one is a map task [(files[i], i)] or
    a reduce task [y < R]; the map tasks come before the reduce tasks, and
    once a reduce task was handed out every input file had been mapped;
    [Done] computes true exactly when every task of the job is in [tasks];
    a [GetTask] replies EXIT exactly then, and then one does; while [Done]
    is false the worker can do a further iteration; and a watcher that fires
    between two iterations finds its task no longer in progress and changes
    nothing. *)
Theorem Polling_lone_worker_completes_job files R tasks c :
  0 ≤ R →
  workerRuns (MakeCoordinator files R) tasks c →
  NoDup tasks ∧
  Forall (jobTask files R) tasks ∧
  (∃ ms rs, tasks = ms ++ rs ∧
     Forall (λ t, Task_TaskType t = MAP) ms ∧
     Forall (λ t, Task_TaskType t = REDUCE) rs ∧
     (rs ≠ [] → ∀ i f, isInput files i f → mkTask f i MAP ∈ ms)) ∧
  (Done c = true ↔ ∀ t, jobTask files R t → t ∈ tasks) ∧
  (∀ c1 reply, runsAlone c GetTask_waitMaps c1 (GetTask_return reply) →
     (Task_TaskType reply = EXIT ↔ Done c = true)) ∧
  (Done c = true →
     runsAlone c GetTask_waitMaps c (GetTask_return (mkTask "" 0 EXIT))) ∧
  (Done c = false → ∃ t c2, iteration c t c2) ∧
  (∀ t c1, runsAlone c (track_call t) c1 track_return → c1 = c).
Proof.
  intros HR Hruns. apply Polling_SeqInv_workerRuns in Hruns as I; [|done].
  split; [apply I|]. split; [apply I|]. split; [|split; [|split; [|split; [|split]]]].
  - destruct (seq_phase _ _ _ _ I) as (ms & rs & -> & Hms & Hrs & Hph).
    exists ms, rs. repeat split; try done.
    intros Hne i f Hin. specialize (Hph Hne).
    destruct (decide (mkTask f i MAP ∈ ms ++ rs)) as [Hel|Hn].
    + apply elem_of_app in Hel as [?|Hel]; [done|].
      rewrite Forall_forall in Hrs. by apply Hrs in Hel.
    + assert (mapPending c !! i = Some f) as Hl by by apply (seq_mp _ _ _ _ I).
      by rewrite Hph, lookup_empty in Hl.
  - by rewrite (Polling_SeqInv_Done _ _ _ _ I), (Polling_SeqInv_all_done _ _ _ _ I).
  - intros c1 reply Hget. apply Polling_GetTask_alone in Hget
      as [(HD & -> & _)|[(HD & i & f & _ & -> & _)|(HD & _ & y & b & _ & -> & _)]];
      try apply I; [done| | |by eapply Polling_SeqInv_GetTask_pre]; by rewrite HD.
  - intros HD. eapply (runs_step 0); [|eapply (runs_step 0); [|apply runs_here]].
    + simpl. rewrite (seq_mip _ _ _ _ I).
      replace (bool_decide (0 < len (∅ : gmap Z string))) with false; [by rewrite andb_false_r|].
      symmetry. apply bool_decide_eq_false. pose proof (len_empty (V:=string)). lia.
    + simpl. by rewrite HD.
  - by eapply Polling_SeqInv_progress.
  - intros t c1 Hrun. polling_step Hrun as Hs Hr.
    assert (stillInProgress t c = false) as Hst.
    { unfold stillInProgress.
      rewrite (seq_mip _ _ _ _ I), (seq_rip _ _ _ _ I), !lookup_empty.
      destruct (Task_TaskType t); try done;
        apply bool_decide_eq_false; by intros [? ?]. }
    rewrite Hst in Hs. simplify_eq.
    apply Polling_runsAlone_returned in Hr as [-> _]; done.
Qed.

End PollingWorkerProofs.

(** X8 for the job of one file and one reduce task, done by one worker. *)
Lemma X8_witness :
  0 ≤ 1 ∧
  ∃ c,
    PollingWorker.workerRuns (Polling.MakeCoordinator ["f"%string] 1)
      [mkTask "f" 0 MAP; mkTask "" 0 REDUCE] c ∧
    NoDup [mkTask "f" 0 MAP; mkTask "" 0 REDUCE].
Proof.
  split; [lia|].
  assert (∃ c, PollingWorker.workerRuns (Polling.MakeCoordinator ["f"%string] 1)
                 [mkTask "f" 0 MAP; mkTask "" 0 REDUCE] c) as [c Hrun].
  { eexists.
    eapply (PollingWorker.worker_iteration _ [mkTask "f" 0 MAP] _ (mkTask "" 0 REDUCE)).
    - eapply (PollingWorker.worker_iteration _ [] _ (mkTask "f" 0 MAP));
        [apply PollingWorker.worker_start|].
      eapply PollingWorker.iteration_map; [|reflexivity|].
      + eapply (PollingWorker.runs_step 0); [vm_compute; reflexivity|].
        eapply (PollingWorker.runs_step 0); [vm_compute; reflexivity|].
        eapply (PollingWorker.runs_step 0); [vm_compute; reflexivity|].
        apply PollingWorker.runs_here.
      + eapply (PollingWorker.runs_step 0); [vm_compute; reflexivity|].
        eapply (PollingWorker.runs_step 0); [vm_compute; reflexivity|].
        apply PollingWorker.runs_here.
    - eapply PollingWorker.iteration_reduce; [|reflexivity|].
      + eapply (PollingWorker.runs_step 0); [vm_compute; reflexivity|].
        eapply (PollingWorker.runs_step 0); [vm_compute; reflexivity|].
        eapply (PollingWorker.runs_step 0); [vm_compute; reflexivity|].
        eapply (PollingWorker.runs_step 0); [vm_compute; reflexivity|].
        eapply (PollingWorker.runs_step 0); [vm_compute; reflexivity|].
        apply PollingWorker.runs_here.
      + eapply (PollingWorker.runs_step 0); [vm_compute; reflexivity|].
        eapply (PollingWorker.runs_step 0); [vm_compute; reflexivity|].
        apply PollingWorker.runs_here. }
  exists c. split; [exact Hrun|].
  exact (proj1 (Polling_lone_worker_completes_job ["f"%string] 1 _ c ltac:(lia) Hrun)).
Defined.

(** ** From the map outputs to the reduce output *)

Section WorkerFilesProofs.
Import Worker WorkerSpec WorkerFiles WorkerFilesSpec.

Lemma append_cons c a s : String c a +:+ s = String c (a +:+ s).
Proof. done. Qed.

Lemma append_nil s : "" +:+ s = s.
Proof. done. Qed.

Lemma allChars_impl (P Q : ascii → bool) s :
  (∀ c, P c = true → Q c = true) → allChars P s = true → allChars Q s = true.
Proof.
  intros HPQ. induction s as [|c s IH]; simpl; [done|].
  rewrite !andb_true_iff. intros [? ?]. auto.
Qed.

Lemma allChars_app P a b :
  allChars P (a +:+ b) = true ↔ allChars P a = true ∧ allChars P b = true.
Proof.
  induction a as [|c a IH]; [rewrite append_nil; simpl; tauto|].
  rewrite append_cons. simpl. rewrite !andb_true_iff, IH. tauto.
Qed.

Lemma isDigit_pretty_N_char x : isDigit (pretty_N_char x) = true.
Proof. unfold pretty_N_char. by repeat case_match. Qed.

Lemma allDigits_pretty_N_go x s :
  allChars isDigit s = true → allChars isDigit (pretty_N_go x s) = true.
Proof.
  revert s. induction (N.lt_wf_0 x) as [x _ IH]; intros s Hs.
  assert (x = 0 ∨ 0 < x)%N as [->|?] by lia.
  - by rewrite pretty_N_go_0.
  - rewrite pretty_N_go_step by done. apply IH; [by apply N.div_lt|].
    simpl. by rewrite isDigit_pretty_N_char.
Qed.

Lemma allDigits_pretty_N (x : N) : allChars isDigit (pretty x) = true.
Proof.
  unfold pretty, pretty_N. case_decide; [done|].
  by apply allDigits_pretty_N_go.
Qed.

Lemma allDigits_pretty_Z (z : Z) : 0 ≤ z → allChars isDigit (pretty z) = true.
Proof.
  intros Hz. destruct z as [|p|p]; [done| |lia].
  apply (allDigits_pretty_N (N.pos p)).
Qed.

Lemma noSlash_pretty_Z (z : Z) : allChars (notChar "/") (pretty z) = true.
Proof.
  assert (∀ p : positive, allChars (notChar "/") (pretty (N.pos p)) = true) as Hp.
  { intros p. eapply allChars_impl; [|apply allDigits_pretty_N].
    intros c. unfold isDigit, Ascii.is_nat. by repeat case_match. }
  destruct z as [|p|p]; [done|apply Hp|].
  change (pretty (Z.neg p)) with ("-" +:+ pretty (N.pos p)).
  rewrite append_cons. simpl. apply Hp.
Qed.

Lemma isDigit_notChar d c :
  isDigit d = false → isDigit c = true → notChar d c = true.
Proof.
  intros Hd Hc. unfold notChar. apply negb_true_iff, Ascii.eqb_neq.
  intros ->. congruence.
Qed.

(** A name whose last field is a number is cut at its last dash in one way. *)
Lemma last_dash a b d1 d2 :
  allChars (notChar "-") d1 = true → allChars (notChar "-") d2 = true →
  a +:+ "-" +:+ d1 = b +:+ "-" +:+ d2 → a = b ∧ d1 = d2.
Proof.
  intros H1 H2. revert b. induction a as [|c a IH]; intros [|c' b] Heq;
    repeat (rewrite append_cons in Heq || rewrite append_nil in Heq).
  - by simplify_eq.
  - simplify_eq. apply allChars_app in H1 as [_ H1].
    done.
  - simplify_eq. apply allChars_app in H2 as [_ H2].
    done.
  - simplify_eq. by destruct (IH b) as [-> ->].
Qed.

Lemma Match_literal p n :
  allChars (notChar "*") p = true → Match p n = true ↔ n = p.
Proof.
  revert n. induction p as [|c p IH]; intros n Hp; simpl in *.
  - by rewrite bool_decide_eq_true.
  - apply andb_true_iff in Hp as [Hc Hp]. unfold notChar in Hc.
    apply negb_true_iff in Hc. rewrite Hc. destruct n as [|d n]; [done|].
    rewrite andb_true_iff, Ascii.eqb_eq, IH by done. split.
    + by intros [-> ->].
    + intros [=]. by subst.
Qed.

Lemma Match_prefix q p n :
  allChars (notChar "*") q = true →
  Match (q +:+ p) n = true ↔ ∃ rest, n = q +:+ rest ∧ Match p rest = true.
Proof.
  revert n. induction q as [|c q IH]; intros n Hq.
  - rewrite append_nil. split; [by exists n|]. by intros (rest & -> & ?).
  - simpl in Hq. apply andb_true_iff in Hq as [Hc Hq]. unfold notChar in Hc.
    apply negb_true_iff in Hc. rewrite append_cons. simpl. rewrite Hc.
    destruct n as [|d n].
    + split; [done|]. by intros (rest & ? & ?).
    + rewrite andb_true_iff, Ascii.eqb_eq, IH by done. split.
      * intros [-> (rest & -> & ?)]. by exists rest.
      * intros (rest & Heq & ?). rewrite append_cons in Heq. simplify_eq.
        split; [done|]. by exists rest.
Qed.

Lemma Match_star p n :
  Match (String "*" p) n = true ↔
  ∃ mid rest, n = mid +:+ rest ∧ allChars (notChar "/") mid = true ∧
              Match p rest = true.
Proof.
  simpl. induction n as [|c n IH].
  - rewrite orb_false_r. split.
    + intros ?. by exists "", "".
    + intros ([|??] & rest & Heq & _ & ?); [|done].
      rewrite append_nil in Heq. by subst.
  - rewrite orb_true_iff, andb_true_iff, IH. split.
    + intros [?|[Hc (mid & rest & -> & ? & ?)]].
      * by exists "", (String c n).
      * exists (String c mid), rest. rewrite append_cons. simpl.
        unfold notChar at 1. by rewrite Hc.
    + intros ([|d mid] & rest & Heq & Hmid & ?).
      * rewrite append_nil in Heq. subst. by left.
      * rewrite append_cons in Heq. simplify_eq. simpl in Hmid.
        apply andb_true_iff in Hmid as [Hd Hmid]. right. split; [done|].
        by exists mid, rest.
Qed.

Lemma Match_reduce_pattern D name :
  allChars (notChar "*") D = true →
  Match ("mr-*-" +:+ D) name = true ↔
  ∃ mid, name = "mr-" +:+ mid +:+ "-" +:+ D ∧ allChars (notChar "/") mid = true.
Proof.
  intros HD.
  change ("mr-*-" +:+ D) with ("mr-" +:+ String "*" ("-" +:+ D)).
  rewrite Match_prefix by done. split.
  - intros (rest & -> & Hm). apply Match_star in Hm as (mid & rest' & -> & ? & Hm).
    apply Match_literal in Hm as ->; [by exists mid|].
    rewrite append_cons. simpl. by rewrite append_nil.
  - intros (mid & -> & ?). exists (mid +:+ "-" +:+ D). split; [done|].
    apply Match_star. exists mid, ("-" +:+ D). split; [done|]. split; [done|].
    apply Match_literal; [|done].
    rewrite append_cons. simpl. by rewrite append_nil.
Qed.

Lemma noDash_pretty_Z (z : Z) : 0 ≤ z → allChars (notChar "-") (pretty z) = true.
Proof.
  intros Hz. eapply allChars_impl; [|by apply allDigits_pretty_Z].
  intros c. by apply isDigit_notChar.
Qed.

Lemma noStar_pretty_Z (z : Z) : 0 ≤ z → allChars (notChar "*") (pretty z) = true.
Proof.
  intros Hz. eapply allChars_impl; [|by apply allDigits_pretty_Z].
  intros c. by apply isDigit_notChar.
Qed.

Lemma intermediateFilename_inj2 x y x' y' :
  0 ≤ y → 0 ≤ y' →
  intermediateFilename x y = intermediateFilename x' y' → x = x' ∧ y = y'.
Proof.
  intros Hy Hy' Heq. unfold intermediateFilename in Heq.
  apply (inj (String.app _)) in Heq.
  apply last_dash in Heq as [Hx Hyy]; [|by apply noDash_pretty_Z..].
  split; by apply (inj pretty).
Qed.

Lemma Match_intermediateFilename x y y' :
  0 ≤ y → 0 ≤ y' →
  Match ("mr-*-" +:+ pretty y) (intermediateFilename x y') = true ↔ y' = y.
Proof.
  intros Hy Hy'. rewrite Match_reduce_pattern by by apply noStar_pretty_Z.
  unfold intermediateFilename. split.
  - intros (mid & Heq & _). apply (inj (String.app _)) in Heq.
    apply last_dash in Heq as [_ Heq]; [|by apply noDash_pretty_Z..].
    by apply (inj pretty).
  - intros ->. exists (pretty x). split; [done|apply noSlash_pretty_Z].
Qed.

Lemma mapTask_lookup x R kva :
  1 ≤ R →
  ∃ files,
    mapTask x R kva = Some files ∧
    (∀ y, files !! intermediateFilename x y
          = match filter (λ kv, bucketOf R kv = y) kva with
            | [] => None
            | l => Some l
            end) ∧
    (∀ name, is_Some (files !! name) →
             ∃ y, 0 ≤ y < R ∧ name = intermediateFilename x y).
Proof.
  intros HR. unfold mapTask.
  destruct (partition_lookup R kva ∅ HR) as (m & -> & Hm).
  destruct (intermediateFiles_lookup x m) as [Hf1 Hf2].
  eexists. split; [done|]. split.
  - intros y. rewrite Hf1, Hm, lookup_empty.
    by destruct (filter _ kva).
  - intros name Hn. destruct (Hf2 name Hn) as (y & Hy & ->).
    exists y. split; [|done]. rewrite Hm, lookup_empty in Hy.
    destruct (filter _ kva) as [|kv l] eqn:Hfl; [by destruct Hy|].
    assert (Hin : kv ∈ filter (λ kv, bucketOf R kv = y) kva) by (rewrite Hfl; left).
    apply list_elem_of_filter in Hin as [<- _]. unfold bucketOf.
    apply Z.mod_pos_bound. lia.
Qed.

Lemma written_lookup R outs x name l :
  1 ≤ R →
  written R outs x !! name = Some l ↔
  ∃ y, 0 ≤ y < R ∧ name = intermediateFilename x y ∧
       l = filter (λ kv, bucketOf R kv = y) (outs x) ∧ l ≠ [].
Proof.
  intros HR. unfold written.
  destruct (mapTask_lookup x R (outs x) HR) as (files & -> & Hf1 & Hf2). simpl.
  split.
  - intros Hl. destruct (Hf2 name) as (y & Hy & ->); [by eauto|].
    exists y. split; [done|]. split; [done|]. rewrite Hf1 in Hl.
    destruct (filter _ (outs x)); by simplify_eq.
  - intros (y & Hy & -> & -> & Hne). rewrite Hf1.
    by destruct (filter _ (outs x)).
Qed.

Lemma written_unique R outs x x' name l l' :
  1 ≤ R →
  written R outs x !! name = Some l → written R outs x' !! name = Some l' →
  x = x' ∧ l = l'.
Proof.
  intros HR (y & Hy & -> & -> & _)%written_lookup (y' & Hy' & Heq & -> & _)%written_lookup;
    try done.
  apply intermediateFilename_inj2 in Heq as [-> ->]; [done|lia..].
Qed.

Lemma mapTask_dir_written R outs x dir :
  1 ≤ R → mapTask_dir x R (outs x) dir = Some (written R outs x ∪ dir).
Proof.
  intros HR. unfold mapTask_dir, written.
  by destruct (mapTask_lookup x R (outs x) HR) as (files & -> & _).
Qed.

Lemma runMapTasks_lookup R outs xs dir0 :
  1 ≤ R →
  ∃ dir, runMapTasks R outs xs dir0 = Some dir ∧
    ∀ name l, dir !! name = Some l ↔
      (∃ x, x ∈ xs ∧ written R outs x !! name = Some l) ∨
      ((∀ x, x ∈ xs → written R outs x !! name = None) ∧ dir0 !! name = Some l).
Proof.
  intros HR. revert dir0. induction xs as [|x xs IH]; intros dir0.
  - exists dir0. split; [done|]. intros name l. split.
    + intros ?. right. split; [|done]. by intros ? ?%elem_of_nil.
    + intros [(x & ?%elem_of_nil & _)|[_ ?]]; done.
  - cbn [runMapTasks]. rewrite mapTask_dir_written by done. cbn [mbind option_bind].
    destruct (IH (written R outs x ∪ dir0)) as (dir & Hrun & Hdir).
    exists dir. split; [done|]. intros name l. rewrite Hdir. clear Hdir.
    rewrite lookup_union_Some_raw. split.
    + intros [(x' & Hx' & Hl)|[Hnone [Hl|[Hn Hl]]]].
      * left. exists x'. split; [by right|done].
      * left. exists x. split; [by left|done].
      * right. split; [|done]. by intros x' [->|?]%elem_of_cons; auto.
    + intros [(x' & [->|Hx']%elem_of_cons & Hl)|[Hnone Hl]].
      * destruct (decide (Exists (λ x', is_Some (written R outs x' !! name)) xs))
          as [Hex|Hnex].
        -- apply Exists_exists in Hex as (x' & Hx' & l' & Hl').
           destruct (written_unique R outs x x' name l l') as [-> ->]; try done.
           left. by exists x'.
        -- right. split; [|by left]. intros x' Hx'.
           destruct (written R outs x' !! name) eqn:Hw; [|done].
           destruct Hnex. apply Exists_exists. exists x'. by eauto.
      * left. by exists x'.
      * right. split; [by intros x' ?; apply Hnone; right|].
        right. split; [apply Hnone; by left|done].
Qed.

Lemma filter_join {A} (P : A → Prop) `{∀ x, Decision (P x)} (ls : list (list A)) :
  filter P (mjoin ls) = mjoin (filter P <$> ls).
Proof.
  induction ls as [|l ls IH]; [done|].
  rewrite fmap_cons. simpl. rewrite filter_app. by f_equal.
Qed.

Lemma fmap_join {A B} (f : A → B) (ls : list (list A)) :
  f <$> mjoin ls = mjoin (fmap f <$> ls).
Proof.
  induction ls as [|l ls IH]; [done|].
  rewrite fmap_cons. simpl. rewrite fmap_app. by f_equal.
Qed.

Lemma join_fmap_filter {A B} (P : A → Prop) `{∀ x, Decision (P x)}
    (g : A → list B) (l : list A) :
  (∀ x, ¬ P x → g x = []) → mjoin (g <$> filter P l) = mjoin (g <$> l).
Proof.
  intros Hg. induction l as [|x l IH]; [done|].
  rewrite filter_cons. destruct (decide (P x)) as [HP|HP].
  - rewrite !fmap_cons. simpl. by f_equal.
  - rewrite !fmap_cons. simpl. by rewrite (Hg x HP).
Qed.

Lemma mapM_fmap_lookup {A B} (f : A → option B) (g : A → B) (l : list A) :
  (∀ x, x ∈ l → f x = Some (g x)) → mapM f l = Some (g <$> l).
Proof.
  intros Hf. apply mapM_Some_2. induction l as [|x l IH]; [constructor|].
  rewrite fmap_cons. constructor.
  - apply Hf. by left.
  - apply IH. intros x' Hx'. apply Hf. by right.
Qed.

Section ReduceInputProofs.
Variable decoded : KeyValue → KeyValue.

Lemma reduceInput_after_maps R outs xs dir y :
  1 ≤ R → 0 ≤ y →
  runMapTasks R outs xs ∅ = Some dir →
  ∃ kva, reduceInput decoded dir y = Some kva ∧
    kva ≡ₚ decoded <$> filter (λ kv, bucketOf R kv = y) (mjoin (outs <$> remove_dups xs)).
Proof.
  intros HR Hy Hrun.
  destruct (runMapTasks_lookup R outs xs ∅ HR) as (dir' & Hrun' & Hdir).
  rewrite Hrun in Hrun'. simplify_eq.
  set (bucket := λ x, filter (λ kv, bucketOf R kv = y) (outs x)).
  set (nameOf := λ x, intermediateFilename x y).
  set (g := λ name, decoded <$> default [] (dir' !! name)).
  assert (∀ name, name ∈ Glob ("mr-*-" +:+ pretty y) dir' ↔
                  ∃ x, x ∈ xs ∧ name = nameOf x ∧ bucket x ≠ []) as Hglob.
  { intros name. unfold Glob. rewrite list_elem_of_filter, merge_sort_Permutation.
    rewrite list_elem_of_fmap. split.
    - intros [Hm ([name' l] & -> & Hin%elem_of_map_to_list)]. simpl in *.
      apply Hdir in Hin as [(x & Hx & Hw)|[_ Hin]]; [|by rewrite lookup_empty in Hin].
      apply written_lookup in Hw as (y' & Hy' & -> & -> & Hne); [|done].
      apply Match_intermediateFilename in Hm as ->; [|done|lia].
      by exists x.
    - intros (x & Hx & -> & Hne). split.
      + by apply Match_intermediateFilename.
      + exists (nameOf x, bucket x). split; [done|].
        apply elem_of_map_to_list, Hdir. left. exists x. split; [done|].
        apply written_lookup; [done|]. exists y. split; [|done].
        destruct (bucket x) as [|kv l] eqn:Hb; [done|].
        assert (Hin : kv ∈ bucket x) by (rewrite Hb; left).
        apply list_elem_of_filter in Hin as [<- _]. unfold bucketOf.
        apply Z.mod_pos_bound. lia. }
  assert (∀ x, x ∈ xs → bucket x ≠ [] → dir' !! nameOf x = Some (bucket x)) as Hcontent.
  { intros x Hx Hne. apply Hdir. left. exists x. split; [done|].
    apply written_lookup; [done|]. exists y. split; [|done].
    destruct (bucket x) as [|kv l] eqn:Hb; [done|].
    assert (Hin : kv ∈ bucket x) by (rewrite Hb; left).
    apply list_elem_of_filter in Hin as [<- _]. unfold bucketOf.
    apply Z.mod_pos_bound. lia. }
  exists (mjoin (g <$> Glob ("mr-*-" +:+ pretty y) dir')). split.
  - unfold reduceInput, readMatches.
    rewrite (mapM_fmap_lookup _ g); [done|].
    intros name (x & Hx & -> & Hne)%Hglob. unfold g.
    by rewrite (Hcontent x Hx Hne).
  - assert (Inj (=) (=) nameOf) as Hinj.
    { intros x x' Heq. by apply intermediateFilename_inj2 in Heq as [? _]. }
    assert (Glob ("mr-*-" +:+ pretty y) dir'
            ≡ₚ nameOf <$> filter (λ x, bucket x ≠ []) (remove_dups xs)) as ->.
    { apply NoDup_Permutation.
      - unfold Glob. apply NoDup_filter. rewrite merge_sort_Permutation.
        apply NoDup_fst_map_to_list.
      - apply NoDup_fmap_2; [done|]. apply NoDup_filter, NoDup_remove_dups.
      - intros name. rewrite Hglob, list_elem_of_fmap. split.
        + intros (x & Hx & -> & Hne). exists x. split; [done|].
          apply list_elem_of_filter. split; [done|]. by apply elem_of_remove_dups.
        + intros (x & -> & [Hne Hx]%list_elem_of_filter).
          rewrite elem_of_remove_dups in Hx. by exists x. }
    rewrite <- list_fmap_compose.
    rewrite (list_fmap_ext (g ∘ nameOf) (λ x, decoded <$> bucket x)).
    2:{ intros i x [Hne Hx]%list_elem_of_lookup_2%list_elem_of_filter.
        rewrite elem_of_remove_dups in Hx. simpl. unfold g. by rewrite (Hcontent x Hx Hne). }
    rewrite join_fmap_filter.
    2:{ intros x Hx. destruct (bucket x); [done|]. by destruct Hx. }
    rewrite filter_join, fmap_join, <- !list_fmap_compose. done.
Qed.

Variable reducef : string → list string → string.

(** X12 (from the map outputs to [mr-out-y]).  Let the MAP case of the tasks
    [xs] run from an empty directory with [nReduce = R >= 1], task [x]
    writing the pairs [outs x], and let reduce task [y >= 0] then read [kva]
    from the files its pattern matches and sort it.  Then [kva] is a
    permutation of the decoded pairs, over the distinct tasks of [xs], whose
    key has [ihash(key) mod R = y]; and the file the REDUCE case puts in
    place is named [mr-out-y] and holds one line per distinct decoded key of
    these pairs, in strictly ascending order: the key, a space, the result
    of the reduce callback on the key and on a permutation of the decoded
    values emitted for it, and a newline. *)
Theorem reduce_task_output_after_map_phase R outs xs dir y kva sorted :
  1 ≤ R → 0 ≤ y →
  runMapTasks R outs xs ∅ = Some dir →
  reduceInput decoded dir y = Some kva →
  sort_Sort kva sorted →
  let emitted :=
    decoded <$> filter (λ kv, ihash (Key kv) mod R = y)
                       (mjoin (outs <$> remove_dups xs)) in
  kva ≡ₚ emitted ∧
  ∃ keys,
    StronglySorted keyLt keys ∧
    (∀ k, k ∈ keys ↔ ∃ v, mkKeyValue k v ∈ emitted) ∧
    reduceTask reducef y sorted
    = ("mr-out-" +:+ pretty y,
       String.concat ""
         ((λ k, k +:+ " " +:+ reducef k (valuesOf k sorted)
                  +:+ String "010" EmptyString) <$> keys)) ∧
    (∀ k, valuesOf k sorted ≡ₚ valuesOf k emitted).
Proof.
  intros HR Hy Hrun Hin [Hperm Hsorted] emitted.
  destruct (reduceInput_after_maps R outs xs dir y HR Hy Hrun) as (kva' & Hin' & Hkva).
  rewrite Hin in Hin'. simplify_eq. fold emitted in Hkva.
  split; [done|].
  destruct (reduceLoop_sorted reducef (length sorted) sorted 0)
    as (keys & Hk & Hmem & Hloop).
  { lia. }
  { done. }
  rewrite drop_0 in Hmem, Hloop.
  exists keys. split; [done|]. split; [|split].
  - intros k. rewrite Hmem, <- Hperm, Hkva, list_elem_of_fmap. split.
    + intros ([k' v] & -> & Hel). by exists v.
    + intros [v Hel]. by exists (mkKeyValue k v).
  - unfold reduceTask, oname, reduceOutput. by rewrite Hloop.
  - intros k. unfold valuesOf. by rewrite <- Hperm, Hkva.
Qed.

End ReduceInputProofs.

(** X10 (the map phase depends on the set of tasks run).  For
    [nReduce >= 1], running the MAP case for the tasks of [xs] one after
    another, each writing what the map callback returns for its task, never
    panics, and leaves the same directory for any two lists with the same
    members: neither the order of the tasks nor the re-execution of a task
    matters. *)
Theorem map_phase_depends_on_task_set R outs xs xs' dir0 :
  1 ≤ R → (∀ x, x ∈ xs ↔ x ∈ xs') →
  is_Some (runMapTasks R outs xs dir0) ∧
  runMapTasks R outs xs dir0 = runMapTasks R outs xs' dir0.
Proof.
  intros HR Hset.
  destruct (runMapTasks_lookup R outs xs dir0 HR) as (dir & -> & Hdir).
  destruct (runMapTasks_lookup R outs xs' dir0 HR) as (dir' & -> & Hdir').
  split; [by eauto|]. f_equal. apply map_eq. intros name.
  apply option_eq. intros l. rewrite Hdir, Hdir'.
  by setoid_rewrite Hset.
Qed.

(** X11 (file names of the reduce input).  For reduce task numbers
    [y, y' >= 0], the pattern ["mr-*-" + Itoa(y)] that the REDUCE case globs
    matches the intermediate file [mr-x-y'] exactly when [y' = y]; it also
    matches the output file [mr-out-y] of the same reduce task; and two
    intermediate files with the same name have the same map task and the
    same reduce task. *)
Theorem reduce_pattern_selects_bucket x y y' :
  0 ≤ y → 0 ≤ y' →
  (Match ("mr-*-" +:+ pretty y) (intermediateFilename x y') = true ↔ y' = y) ∧
  Match ("mr-*-" +:+ pretty y) ("mr-out-" +:+ pretty y) = true ∧
  (∀ x', intermediateFilename x y = intermediateFilename x' y' → x = x' ∧ y = y').
Proof.
  intros Hy Hy'. split; [by apply Match_intermediateFilename|]. split.
  - apply Match_reduce_pattern; [by apply noStar_pretty_Z|].
    by exists "out".
  - intros x'. by apply intermediateFilename_inj2.
Qed.

Lemma partition_abs R kva m : partition R kva m = partition (Z.abs R) kva m.
Proof.
  revert m. induction kva as [|kv kva IH]; intros m; [done|].
  cbn [partition].
  assert (go_rem (ihash (Key kv)) R = go_rem (ihash (Key kv)) (Z.abs R)) as ->.
  { unfold go_rem. destruct (decide (R = 0)) as [->|Hne]; [done|].
    rewrite !bool_decide_eq_false_2 by lia. f_equal.
    destruct (Z.abs_eq_or_opp R) as [->| ->]; [done|].
    by rewrite Z.rem_opp_r by done. }
  destruct (go_rem _ _); [|done]. cbn [mbind option_bind]. apply IH.
Qed.

(** X9 (MAP case with [nReduce <= 0]).  With [nReduce = 0] the MAP case
    panics on [ihash(kv.Key) % nReduce] exactly when the map callback
    returned at least one pair, and writes no file when it returned none.
    With [nReduce <> 0] it never panics and writes the same files as with
    [|nReduce|]: Go's [%] takes the sign of the dividend, and [ihash] is
    never negative. *)
Theorem mapTask_nReduce_not_positive x R kva :
  (R = 0 → (mapTask x R kva = None ↔ kva ≠ []) ∧ mapTask x R [] = Some ∅) ∧
  (R ≠ 0 → mapTask x R kva = mapTask x (Z.abs R) kva ∧ is_Some (mapTask x R kva)).
Proof.
  split.
  - intros ->. split; [|done]. unfold mapTask. destruct kva as [|kv kva]; [done|].
    cbn [partition]. unfold go_rem. by rewrite bool_decide_eq_true_2.
  - intros HR. unfold mapTask. rewrite partition_abs. split; [done|].
    destruct (partition_lookup (Z.abs R) kva ∅) as (m & -> & _); [lia|]. by eauto.
Qed.


End WorkerFilesProofs.

(** X9 for one emitted pair, with [nReduce = 0] and [nReduce = -2]. *)
Lemma X9_witness :
  Worker.mapTask 3 0 [Worker.mkKeyValue "a" "1"] = None ∧
  Worker.mapTask 3 (-2) [Worker.mkKeyValue "a" "1"]
  = Worker.mapTask 3 2 [Worker.mkKeyValue "a" "1"].
Proof.
  split.
  - exact (proj2 (proj1 (proj1 (mapTask_nReduce_not_positive 3 0
                                  [Worker.mkKeyValue "a" "1"]) eq_refl))
             ltac:(discriminate)).
  - exact (proj1 (proj2 (mapTask_nReduce_not_positive 3 (-2)
                           [Worker.mkKeyValue "a" "1"]) ltac:(lia))).
Defined.

(** X10 for the task lists [0; 1; 0] and [1; 0]. *)
Lemma X10_witness :
  let outs := λ _ : Z, [Worker.mkKeyValue "a" "1"] in
  1 ≤ 2 ∧
  WorkerFiles.runMapTasks 2 outs [0; 1; 0] ∅ = WorkerFiles.runMapTasks 2 outs [1; 0] ∅.
Proof.
  intros outs. split; [lia|].
  refine (proj2 (map_phase_depends_on_task_set 2 outs [0; 1; 0] [1; 0] ∅ ltac:(lia) _)).
  intros x. rewrite !elem_of_cons, elem_of_nil. tauto.
Defined.

(** X11 for the intermediate file [mr-3-1] and reduce task 1. *)
Lemma X11_witness :
  0 ≤ 1 ∧
  WorkerFiles.Match ("mr-*-" +:+ pretty 1) (Worker.intermediateFilename 3 1) = true.
Proof.
  split; [lia|].
  exact (proj2 (proj1 (reduce_pattern_selects_bucket 3 1 1 ltac:(lia) ltac:(lia)))
           eq_refl).
Defined.

(** X12 for two map tasks that emit the pairs [b, a] and [a], one reduce
    task and a counting reduce callback: [mr-out-0] holds the lines [a 2]
    and [b 1]. *)
Lemma X12_witness :
  let outs := λ x : Z,
    if bool_decide (x = 0)
    then [Worker.mkKeyValue "b" "x"; Worker.mkKeyValue "a" "y"]
    else [Worker.mkKeyValue "a" "z"] in
  let reducef := λ (_ : string) (values : list string), pretty (length values) in
  let sorted := [Worker.mkKeyValue "a" "y"; Worker.mkKeyValue "a" "z";
                 Worker.mkKeyValue "b" "x"] in
  ∃ dir kva,
    WorkerFiles.runMapTasks 1 outs [0; 1] ∅ = Some dir ∧
    WorkerFiles.reduceInput id dir 0 = Some kva ∧
    Worker.sort_Sort kva sorted ∧
    kva ≡ₚ [Worker.mkKeyValue "b" "x"; Worker.mkKeyValue "a" "y";
            Worker.mkKeyValue "a" "z"] ∧
    WorkerFiles.reduceTask reducef 0 sorted
    = ("mr-out-0"%string,
       "a 2" +:+ String "010" ("b 1" +:+ String "010" EmptyString)).
Proof.
  intros outs reducef sorted.
  assert (∃ dir, WorkerFiles.runMapTasks 1 outs [0; 1] ∅ = Some dir) as [dir Hdir].
  { eexists. vm_compute. reflexivity. }
  exists dir.
  destruct (WorkerFiles.reduceInput id dir 0) as [kva|] eqn:Hin.
  2:{ exfalso. injection Hdir as <-. vm_compute in Hin. discriminate. }
  exists kva.
  assert (kva = [Worker.mkKeyValue "b" "x"; Worker.mkKeyValue "a" "y";
                 Worker.mkKeyValue "a" "z"]) as Hkva.
  { injection Hdir as <-. vm_compute in Hin. by injection Hin as <-. }
  assert (Worker.sort_Sort kva sorted) as Hsort.
  { rewrite Hkva. split.
    - unfold sorted.
      etrans; [apply Permutation_swap|]. apply Permutation_skip, Permutation_swap.
    - unfold sorted. repeat constructor. }
  split; [done|]. split; [done|]. split; [done|]. split.
  - exact (proj1 (reduce_task_output_after_map_phase id reducef 1 outs [0; 1] dir 0
                    kva sorted ltac:(lia) ltac:(lia) Hdir Hin Hsort)).
  - vm_compute. reflexivity.
Defined.

(** ** [ByKey] and a negative [nReduce] *)

Lemma ByKey_index_is_Some a i :
  is_Some (ByKey.index a i) ↔ 0 ≤ i < ByKey.Len a.
Proof.
  unfold ByKey.index, ByKey.Len. case_bool_decide.
  - rewrite lookup_lt_is_Some. lia.
  - split; [by intros [? ?]|lia].
Qed.

Lemma ByKey_index_Some a i kv :
  ByKey.index a i = Some kv ↔ 0 ≤ i ∧ a !! Z.to_nat i = Some kv.
Proof.
  unfold ByKey.index. case_bool_decide; [tauto|]. split; [done|tauto].
Qed.

(** X13 ([ByKey] as a [sort.Interface]).  [Less] and [Swap] panic exactly
    when an index is outside [0, Len()).  [Less] is irreflexive and
    transitive, and two elements neither of which is [Less] than the other
    have the same key.  [Swap] leaves a permutation of the slice, of the same
    length, with the two elements exchanged, and swapping again restores the
    slice. *)
Theorem ByKey_is_a_sort_Interface (a : list Worker.KeyValue) (i j k : Z) :
  (is_Some (ByKey.Less a i j) ↔ 0 ≤ i < ByKey.Len a ∧ 0 ≤ j < ByKey.Len a) ∧
  (is_Some (ByKey.Swap a i j) ↔ 0 ≤ i < ByKey.Len a ∧ 0 ≤ j < ByKey.Len a) ∧
  ByKey.Less a i i ≠ Some true ∧
  (ByKey.Less a i j = Some true → ByKey.Less a j k = Some true →
   ByKey.Less a i k = Some true) ∧
  (ByKey.Less a i j = Some false → ByKey.Less a j i = Some false →
   Worker.Key <$> ByKey.index a i = Worker.Key <$> ByKey.index a j) ∧
  (∀ a', ByKey.Swap a i j = Some a' →
     a' ≡ₚ a ∧ ByKey.Len a' = ByKey.Len a ∧
     ByKey.index a' i = ByKey.index a j ∧ ByKey.index a' j = ByKey.index a i ∧
     ByKey.Swap a' i j = Some a).
Proof.
  pose proof (ByKey_index_is_Some a i) as Hi.
  pose proof (ByKey_index_is_Some a j) as Hj.
  split; [|split; [|split; [|split; [|split]]]].
  - unfold ByKey.Less. rewrite <- Hi, <- Hj.
    destruct (ByKey.index a i), (ByKey.index a j); simpl;
      split; try (by intros [? ?]); try (by intros [[? ?] [? ?]]); by eauto.
  - unfold ByKey.Swap. rewrite <- Hi, <- Hj.
    destruct (ByKey.index a i), (ByKey.index a j); simpl;
      split; try (by intros [? ?]); try (by intros [[? ?] [? ?]]); by eauto.
  - unfold ByKey.Less. destruct (ByKey.index a i) as [ai|]; simpl; [|done].
    intros [= H]. by apply keyLt_irrefl in H.
  - unfold ByKey.Less.
    destruct (ByKey.index a i) as [ai|], (ByKey.index a j) as [aj|],
      (ByKey.index a k) as [ak|]; simpl; try done.
    intros [= H1] [= H2]. f_equal. by eapply keyLt_trans.
  - unfold ByKey.Less.
    destruct (ByKey.index a i) as [ai|], (ByKey.index a j) as [aj|]; simpl; try done.
    intros [= H1] [= H2]. f_equal.
    destruct (decide (Worker.Key ai = Worker.Key aj)) as [|Hne]; [done|].
    apply keyLt_total in H2; [|done]. unfold WorkerSpec.keyLt in H2.
    unfold Worker.Less in H1. congruence.
  - intros a' Hswap. unfold ByKey.Swap in Hswap.
    destruct (ByKey.index a j) as [aj|] eqn:Haj; simpl in Hswap; [|done].
    destruct (ByKey.index a i) as [ai|] eqn:Hai; simpl in Hswap; [|done].
    simplify_eq.
    apply ByKey_index_Some in Hai as [Hi0 Hai].
    apply ByKey_index_Some in Haj as [Hj0 Haj].
    pose proof (lookup_lt_Some _ _ _ Hai) as Hli.
    pose proof (lookup_lt_Some _ _ _ Haj) as Hlj.
    assert (<[Z.to_nat j:=ai]> (<[Z.to_nat i:=aj]> a) !! Z.to_nat j = Some ai) as Hj'.
    { apply list_lookup_insert_eq. by rewrite length_insert. }
    assert (<[Z.to_nat j:=ai]> (<[Z.to_nat i:=aj]> a) !! Z.to_nat i = Some aj) as Hi'.
    { destruct (decide (Z.to_nat i = Z.to_nat j)) as [Heq|Hne].
      - rewrite Heq in *. by simplify_eq.
      - rewrite list_lookup_insert_ne by done. by apply list_lookup_insert_eq. }
    split; [by apply Permutation_insert_swap|].
    split; [unfold ByKey.Len; by rewrite !length_insert|].
    split; [by apply ByKey_index_Some|]. split; [by apply ByKey_index_Some|].
    unfold ByKey.Swap, ByKey.index. rewrite !bool_decide_eq_true_2 by done.
    rewrite Hj', Hi'. simpl. f_equal.
    destruct (decide (Z.to_nat i = Z.to_nat j)) as [Heq|Hne].
    + rewrite Heq in *. simplify_eq. rewrite !list_insert_insert_eq.
      by apply list_insert_id.
    + rewrite (list_insert_insert_ne _ (Z.to_nat j) (Z.to_nat i)) by done.
      rewrite list_insert_insert_eq.
      rewrite (list_insert_insert_ne _ (Z.to_nat i) (Z.to_nat j)) by done.
      rewrite list_insert_insert_eq.
      rewrite (list_insert_id _ (Z.to_nat i)) by done.
      by apply list_insert_id.
Qed.

(** X14 (negative [nReduce]).  In every reachable state of a coordinator
    made with [nReduce < 0], in both revisions, [Done] computes false and the
    three reduce buckets are empty: there is no reduce task and the job never
    finishes. *)
Theorem negative_nReduce_never_Done files R :
  R < 0 →
  (∀ s, Signalled.reachable files R s →
     Signalled.Done (Signalled.coord s) = false ∧
     SignalledSpec.buckets (Signalled.coord s)
     = (Signalled.mapPending (Signalled.coord s),
        Signalled.mapInProgress (Signalled.coord s), ∅, ∅, ∅)) ∧
  (∀ s, Polling.reachable files R s →
     Polling.Done (Polling.coord s) = false ∧
     PollingSpec.buckets (Polling.coord s)
     = (Polling.mapPending (Polling.coord s),
        Polling.mapInProgress (Polling.coord s), ∅, ∅, ∅)).
Proof.
  intros HR. split.
  - intros s Hs. apply reachable_Inv in Hs as I. split.
    + apply not_true_is_false. rewrite Done_true_iff.
      intros (_ & _ & _ & _ & Hlen).
      rewrite (SignalledSpec.inv_nReduce _ _ _ I) in Hlen. unfold len in Hlen. lia.
    + pose proof (SignalledSpec.inv_cover _ _ _ I) as Hcov.
      assert (reduceIds R = ∅) as HR0.
      { apply set_eq. intros y. rewrite elem_of_reduceIds. set_solver by lia. }
      rewrite HR0 in Hcov. unfold SignalledSpec.buckets.
      assert (dom (Signalled.reducePending (Signalled.coord s)) = ∅) as ->%dom_empty_inv_L
        by set_solver.
      assert (dom (Signalled.reduceInProgress (Signalled.coord s)) = ∅) as ->%dom_empty_inv_L
        by set_solver.
      assert (dom (Signalled.reduceCompleted (Signalled.coord s)) = ∅) as ->%dom_empty_inv_L
        by set_solver.
      done.
  - intros s Hs. apply PollingMore_reachable in Hs as I. split.
    + apply not_true_is_false. rewrite Polling_Done_true_iff.
      intros (_ & _ & _ & _ & Hlen).
      rewrite (PollingMore.inv_nReduce _ _ I) in Hlen. unfold len in Hlen. lia.
    + pose proof (PollingMore.inv_range _ _ I) as Hrange.
      unfold PollingSpec.buckets.
      assert (dom (Polling.reducePending (Polling.coord s)) = ∅) as ->%dom_empty_inv_L.
      { apply set_eq. intros y. split; [|set_solver]. intros Hy.
        assert (0 ≤ y < R) by (apply Hrange; set_solver). lia. }
      assert (dom (Polling.reduceInProgress (Polling.coord s)) = ∅) as ->%dom_empty_inv_L.
      { apply set_eq. intros y. split; [|set_solver]. intros Hy.
        assert (0 ≤ y < R) by (apply Hrange; set_solver). lia. }
      assert (dom (Polling.reduceCompleted (Polling.coord s)) = ∅) as ->%dom_empty_inv_L.
      { apply set_eq. intros y. split; [|set_solver]. intros Hy.
        assert (0 ≤ y < R) by (apply Hrange; set_solver). lia. }
      done.
Qed.

(** X14 for the initial state of a job with [nReduce = -1]. *)
Lemma X14_witness :
  -1 < 0 ∧
  Signalled.Done (Signalled.coord (Signalled.init ["f"%string] (-1))) = false.
Proof.
  split; [lia|].
  exact (proj1 (proj1 (negative_nReduce_never_Done ["f"%string] (-1) ltac:(lia))
                  (Signalled.init ["f"%string] (-1)) (rtc_refl _ _))).
Defined.
